(** * calculateM: the m-score search of [utils.py], embedded and verified

    The development follows [utils.py] function by function.  Python
    values are embedded as follows.

    - A grid is a list of columns, every column a list of tile tokens
      (strings); a binary grid is a list of columns of integers.
    - Python integers are [Z].  [MAXDIST] is the float literal [10e9];
      Python compares integers and floats exactly, and the search adds
      the sentinel to a cost only when a budget reaches it, so it is
      embedded as the integer 10^10, and the theorems that depend on
      sums carry the bound [belowSentinel].  The module [PyNum] has the
      search with Python's floats (IEEE 754 doubles), for the runs
      beyond that bound.
    - List subscripts follow Python: an index [i] with
      [-len <= i < len] is valid, and a negative one counts from the end.
    - Exceptions are the [Raise] outcomes of the [outcome] monad; a loop
      whose number of iterations is not structurally bounded takes a fuel
      argument and answers [OutOfFuel] when it is used up.
    - [dict]s keyed by numbers or by objects are [gmap]s, sets are
      [gset]s; where the code iterates over the keys of a dict the
      insertion order is kept next to the map. *)

From Stdlib Require Import ZArith Lia String Ascii.
From stdpp Require Import base option list gmap strings.

Local Open Scope Z_scope.
Set Warnings "-clear-no-such-hyp".

(** ** Exceptions and the outcome monad *)

Inductive exn := IndexError | ValueError | KeyError | OverflowError.

Inductive outcome (A : Type) : Type :=
  | Ok (a : A)
  | Raise (e : exn)
  | OutOfFuel.
Arguments Ok {A} a.
Arguments Raise {A} e.
Arguments OutOfFuel {A}.

Definition bind {A B} (m : outcome A) (k : A -> outcome B) : outcome B :=
  match m with
  | Ok a => k a
  | Raise e => Raise e
  | OutOfFuel => OutOfFuel
  end.

#[global] Instance outcome_ret : MRet outcome := @Ok.
#[global] Instance outcome_bind : MBind outcome := fun A B k m => bind m k.

Definition orRaise {A} (e : exn) (o : option A) : outcome A :=
  match o with Some a => Ok a | None => Raise e end.

(** Left-to-right loop over a list with an accumulator, stopping at the
    first exception. *)
Fixpoint foldM {A S} (f : S -> A -> outcome S) (s : S) (l : list A) : outcome S :=
  match l with
  | [] => Ok s
  | a :: l' => s' ← f s a; foldM f s' l'
  end.

(** ** Python list subscripts *)

(** The position that subscript [i] denotes in a list of length [n]. *)
Definition pyPos (n : nat) (i : Z) : option nat :=
  if decide (0 <= i < Z.of_nat n) then Some (Z.to_nat i)
  else if decide (- Z.of_nat n <= i < 0) then Some (Z.to_nat (Z.of_nat n + i))
  else None.

(** [l[i]] *)
Definition pyIndex {A} (l : list A) (i : Z) : option A :=
  p ← pyPos (length l) i; l !! p.

(** [l[i] = v] *)
Definition pySet {A} (l : list A) (i : Z) (v : A) : option (list A) :=
  p ← pyPos (length l) i; Some (<[p := v]> l).

(** [m[i][j] = v] on a list of lists *)
Definition pySet2 {A} (m : list (list A)) (i j : Z) (v : A) : option (list (list A)) :=
  col ← pyIndex m i; col' ← pySet col j v; pySet m i col'.

(** ** Strings: [re.match], [re.sub], [int] *)

(** [dropPrefix t s] is the rest of [s] after the prefix [t], if [t] is
    a prefix of [s]. *)
Fixpoint dropPrefix (t s : string) : option string :=
  match t, s with
  | EmptyString, _ => Some s
  | String a t', String b s' => if Ascii.eqb a b then dropPrefix t' s' else None
  | String _ _, EmptyString => None
  end.

(** [re.match(f"^{target}", tile)] for a literal target. *)
Definition reMatchPrefix (target tile : string) : bool :=
  match dropPrefix target tile with Some _ => true | None => false end.

(** [re.sub(target, "", tile)] for a literal, non-empty target: every
    occurrence is removed, scanning from the left. *)
Fixpoint reSubLoop (fuel : nat) (target s : string) : string :=
  match fuel with
  | O => s
  | S fuel' =>
    match s with
    | EmptyString => EmptyString
    | String c s' =>
      match dropPrefix target s with
      | Some rest => reSubLoop fuel' target rest
      | None => String c (reSubLoop fuel' target s')
      end
    end
  end.

Definition reSub (target s : string) : string :=
  reSubLoop (String.length s) target s.

Definition isDigit (c : ascii) : bool :=
  let n := Z.of_nat (nat_of_ascii c) in (48 <=? n) && (n <=? 57).

Definition digitVal (c : ascii) : Z := Z.of_nat (nat_of_ascii c) - 48.

(** Decimal digits, single underscores allowed between digits. *)
Fixpoint parseDigits (acc : Z) (afterDigit : bool) (s : string) : option Z :=
  match s with
  | EmptyString => if afterDigit then Some acc else None
  | String c s' =>
    if isDigit c then parseDigits (10 * acc + digitVal c) true s'
    else if Ascii.eqb c "_" then
      (if afterDigit then parseDigits acc false s' else None)
    else None
  end.

Definition isSpace (c : ascii) : bool :=
  let n := Z.of_nat (nat_of_ascii c) in
  ((9 <=? n) && (n <=? 13)) || ((28 <=? n) && (n <=? 32)).

Fixpoint lstrip (s : string) : string :=
  match s with
  | String c s' => if isSpace c then lstrip s' else s
  | EmptyString => EmptyString
  end.

Fixpoint rstrip (s : string) : string :=
  match s with
  | EmptyString => EmptyString
  | String c s' =>
    match rstrip s' with
    | EmptyString => if isSpace c then EmptyString else String c EmptyString
    | r => String c r
    end
  end.

(** [int(s)] in base 10 on ASCII text: surrounding white space, an
    optional sign, digits.  [None] stands for [ValueError].  Python's
    [int] also refuses a text of more than 4300 digits, which [pyInt]
    reads: wherever [int] returns, [pyInt] returns the same number, and
    the theorems that promise a result on a given grid or text bound
    it ([asciiGrid], [shortLines], and [numeral] for well-formed
    tiles). *)
Definition pyInt (s : string) : option Z :=
  match rstrip (lstrip s) with
  | String "+" d => parseDigits 0 false d
  | String "-" d => Z.opp <$> parseDigits 0 false d
  | d => parseDigits 0 false d
  end.

(** ** [heapq] on a list, with the comparison [lt] of the elements *)

Section heapq.
Context {A : Type} (lt : A -> A -> bool).

  (** The [while pos > startpos] loop of [_siftdown]; [pos] bounds the
      number of iterations. *)
Fixpoint siftdownLoop (fuel : nat) (heap : list A) (startpos pos : nat)
      (newitem : A) : list A :=
    match fuel with
    | O => <[pos := newitem]> heap
    | S fuel' =>
      if decide (startpos < pos)%nat then
        let parentpos := ((pos - 1) / 2)%nat in
        match heap !! parentpos with
        | Some parent =>
          if lt newitem parent
          then siftdownLoop fuel' (<[pos := parent]> heap) startpos parentpos newitem
          else <[pos := newitem]> heap
        | None => <[pos := newitem]> heap
        end
      else <[pos := newitem]> heap
    end.

Definition siftdown (heap : list A) (startpos pos : nat) : list A :=
    match heap !! pos with
    | Some newitem => siftdownLoop pos heap startpos pos newitem
    | None => heap
    end.

  (** The [while childpos < endpos] loop of [_siftup]: the smaller child
      is bubbled up until a leaf is reached; the position of the hole is
      returned with the heap. *)
Fixpoint siftupLoop (fuel : nat) (heap : list A) (pos : nat) : list A * nat :=
    match fuel with
    | O => (heap, pos)
    | S fuel' =>
      let endpos := length heap in
      let childpos := (2 * pos + 1)%nat in
      if decide (childpos < endpos)%nat then
        let rightpos := (childpos + 1)%nat in
        let childpos' :=
          match heap !! childpos, heap !! rightpos with
          | Some c, Some r => if lt c r then childpos else rightpos
          | _, _ => childpos
          end in
        match heap !! childpos' with
        | Some c => siftupLoop fuel' (<[pos := c]> heap) childpos'
        | None => (heap, pos)
        end
      else (heap, pos)
    end.

Definition siftup (heap : list A) (pos : nat) : list A :=
    match heap !! pos with
    | Some newitem =>
      let '(heap', pos') := siftupLoop (length heap) heap pos in
      siftdown (<[pos' := newitem]> heap') pos pos'
    | None => heap
    end.

Definition heappush (heap : list A) (item : A) : list A :=
    siftdown (heap ++ [item]) 0 (length heap).

  (** [heappop] of a non-empty heap; [None] on the empty one. *)
Definition heappop (heap : list A) : option (A * list A) :=
    match reverse heap with
    | [] => None
    | lastelt :: rest =>
      match reverse rest with
      | [] => Some (lastelt, [])
      | returnitem :: tl => Some (returnitem, siftup (lastelt :: tl) 0)
      end
    end.
End heapq.

(** ** [classes.py]: [Object], [AStarNode], [DLSNode] *)

(** A grid coordinate [(x, y)]: column first. *)
Abbreviation Loc := (Z * Z)%type (only parsing).

(** Modelled from the spec: [classes.Object] is not part of the sources.
    It is built as [Object(identifier, x, y, value)] and read through
    [.identifier], [.x], [.y], [.value] and [.loc()]; the spec's GridObject
    is "a tagged entity with a kind, a location and a value", used as a
    dict key, so two objects are equal when their four fields are. *)
Record Object := mkObject {
  identifier : string;
  ox : Z;
  oy : Z;
  value : Z
}.

Definition loc (o : Object) : Loc := (ox o, oy o).

#[global] Instance Object_eq_dec : EqDecision Object.
Proof. solve_decision. Defined.

#[global] Instance Object_countable : Countable Object.
Proof.
  refine (inj_countable'
            (fun o => (identifier o, ox o, oy o, value o))
            (fun t => match t with (i, a, b, v) => mkObject i a b v end) _).
  intros []; reflexivity.
Defined.

(** Modelled from the spec: [classes.AStarNode] is not part of the
    sources.  [AStarNode(parent, loc, g, h)]; the heap orders nodes by
    "lowest estimated total cost (path cost so far + heuristic) first". *)
#[warnings="-register-all"]
Inductive AStarNode :=
  mkAStarNode (parent : option AStarNode) (nloc : Loc) (g h : Z).

Definition aLoc (n : AStarNode) : Loc := match n with mkAStarNode _ l _ _ => l end.
Definition aG (n : AStarNode) : Z := match n with mkAStarNode _ _ g _ => g end.
Definition aH (n : AStarNode) : Z := match n with mkAStarNode _ _ _ h => h end.
Definition aF (n : AStarNode) : Z := aG n + aH n.
Definition aLt (a b : AStarNode) : bool := aF a <? aF b.

(** The [tracker] loop of [aStarSearch]: the locations from the root of
    the parent chain down to the node. *)
Fixpoint aPath (n : AStarNode) : list Loc :=
  match n with
  | mkAStarNode None l _ _ => [l]
  | mkAStarNode (Some p) l _ _ => aPath p ++ [l]
  end.

(** Modelled from the spec: [classes.DLSNode] is not part of the sources.
    [DLSNode(parent, obj, cost, budget, score)]; [getTrajLen] is
    "cost + budget", [getPath] the objects from the root to the node, and
    [getVisited] "the path objects excluding the current one". *)
#[warnings="-register-all"]
Inductive DLSNode :=
  mkDLSNode (parent : option DLSNode) (obj : Object) (cost budget score : Z).

Definition dObj (n : DLSNode) : Object := match n with mkDLSNode _ o _ _ _ => o end.
Definition dCost (n : DLSNode) : Z := match n with mkDLSNode _ _ c _ _ => c end.
Definition dBudget (n : DLSNode) : Z := match n with mkDLSNode _ _ _ b _ => b end.
Definition dScore (n : DLSNode) : Z := match n with mkDLSNode _ _ _ _ s => s end.
Definition dParent (n : DLSNode) : option DLSNode :=
  match n with mkDLSNode p _ _ _ _ => p end.

Definition getTrajLen (n : DLSNode) : Z := dCost n + dBudget n.

Fixpoint getPath (n : DLSNode) : list Object :=
  match n with
  | mkDLSNode None o _ _ _ => [o]
  | mkDLSNode (Some p) o _ _ _ => getPath p ++ [o]
  end.

Definition getVisited (n : DLSNode) : gset Object :=
  match dParent n with
  | None => ∅
  | Some p => list_to_set (getPath p)
  end.

(** ** [utils.py] *)

(** [MAXDIST = 10e9], the distance that [aStarSearch] returns when it
    finds no path.  The source writes a float; it is the integer of the
    same value here, where every distance, cost and budget is an
    integer.  Python compares a float and an [int] by their exact
    values, so the comparisons are those of the code.  A sum with the
    float is computed only when a sentinel edge is within a budget,
    that is, when a budget reaches [MAXDIST]: the module [PyNum] below
    follows the search with Python's numbers, and
    [getMScores_exact_below_sentinel] shows that the two runs are one
    when the limit stays below the sentinel ([belowSentinel]). *)
Definition MAXDIST : Z := 10000000000.

Abbreviation Grid := (list (list string)) (only parsing).
Abbreviation BinGrid := (list (list Z)) (only parsing).

(** *** [findAll] *)

(** The body of the two loops of [findAll] on one tile. *)
Definition findTile (target : string) (x y : Z) (tile : string) : outcome (list Object) :=
  if reMatchPrefix target tile then
    let v := reSub target tile in
    n ← (if decide (v = ""%string) then Ok 0 else orRaise ValueError (pyInt v));
    Ok [mkObject target x y n]
  else Ok [].

Fixpoint findCol (target : string) (x y : Z) (col : list string) : outcome (list Object) :=
  match col with
  | [] => Ok []
  | tile :: col' =>
    o ← findTile target x y tile;
    r ← findCol target x (y + 1) col';
    Ok (o ++ r)
  end.

Fixpoint findCols (target : string) (x : Z) (grid : Grid) : outcome (list Object) :=
  match grid with
  | [] => Ok []
  | col :: grid' =>
    o ← findCol target x 0 col;
    r ← findCols target (x + 1) grid';
    Ok (o ++ r)
  end.

Definition findAll (target : string) (grid : Grid) : outcome (list Object) :=
  findCols target 0 grid.

(** *** [getManhattanDist], [getFreeNeighbours] *)

Definition getManhattanDist (start end_ : Loc) : Z :=
  Z.abs (end_.1 - start.1) + Z.abs (end_.2 - start.2).

(** [grid[neighbour[0]][neighbour[1]]], [None] for [IndexError]. *)
Definition binAt (grid : BinGrid) (n : Loc) : option Z :=
  col ← pyIndex grid n.1; pyIndex col n.2.

Definition getFreeNeighbours (tile : Loc) (grid : BinGrid) : list Loc :=
  filter (fun n => binAt grid n = Some 0)
    [(tile.1, tile.2 - 1); (tile.1 + 1, tile.2); (tile.1, tile.2 + 1); (tile.1 - 1, tile.2)].

(** *** [aStarSearch] *)

(** The [for neighbour in neighbours] loop: one push per neighbour that
    is not in [visited]. *)
Definition pushNeighbours (heuristicFn : Loc -> Loc -> Z) (end_ : Loc)
    (currentNode : AStarNode) (visited : gset Loc) (pq : list AStarNode)
    (neighbours : list Loc) : list AStarNode :=
  foldl (fun pq neighbour =>
           if decide (neighbour ∈ visited) then pq
           else heappush aLt pq
                  (mkAStarNode (Some currentNode) neighbour (aG currentNode + 1)
                     (heuristicFn neighbour end_)))
        pq neighbours.

(** The main search loop, on the priority queue and the visited set. *)
Fixpoint aStarLoop (fuel : nat) (end_ : Loc) (binGrid : BinGrid)
    (heuristicFn : Loc -> Loc -> Z) (pq : list AStarNode) (visited : gset Loc)
    : outcome (Z * list Loc) :=
  match fuel with
  | O => OutOfFuel
  | S fuel' =>
    match heappop aLt pq with
    | None => Ok (MAXDIST, [])
    | Some (currentNode, pq') =>
      let visited' := {[ aLoc currentNode ]} ∪ visited in
      if decide (aLoc currentNode = end_) then
        Ok (aG currentNode, aPath currentNode)
      else
        let neighbours := getFreeNeighbours (aLoc currentNode) binGrid in
        aStarLoop fuel' end_ binGrid heuristicFn
          (pushNeighbours heuristicFn end_ currentNode visited' pq' neighbours)
          visited'
    end
  end.

Definition aStarSearch (fuel : nat) (start end_ : Loc) (binGrid : BinGrid)
    (heuristicFn : Loc -> Loc -> Z) : outcome (Z * list Loc) :=
  aStarLoop fuel end_ binGrid heuristicFn
    (heappush aLt [] (mkAStarNode None start 0 (heuristicFn start end_))) ∅.

(** *** [getDist] *)

(** The comprehension of [getDist]: ["."] and ["A"] are free, every other
    token is blocked. *)
Definition binTile (tile : string) : Z :=
  if decide (tile = "."%string ∨ tile = "A"%string) then 0 else 1.

Definition binGridOf (grid : Grid) : BinGrid := map (map binTile) grid.

(** The occupancy grid handed to the search: the comprehension, then the
    two assignments that free [start] and [end]. *)
Definition pairGrid (start end_ : Loc) (grid : Grid) : outcome BinGrid :=
  b ← orRaise IndexError (pySet2 (binGridOf grid) start.1 start.2 0);
  orRaise IndexError (pySet2 b end_.1 end_.2 0).

Definition getDist (fuel : nat) (start end_ : Loc) (grid : Grid) : outcome Z :=
  binGrid ← pairGrid start end_ grid;
  r ← aStarSearch fuel start end_ binGrid getManhattanDist;
  Ok r.1.

(** *** [convertToGraph] *)

(** The adjacency matrix: a dict of dicts.  [gKeys] is the insertion
    order of the outer keys, which [list(initialGraph.keys())] reads. *)
Record Graph := mkGraph {
  gKeys : list Object;
  gAdj : gmap Object (gmap Object Z)
}.

(** The keys of a dict built from a list of keys, in insertion order: a
    key that comes again keeps its first position. *)
Definition dictKeys (l : list Object) : list Object :=
  foldl (fun acc o => if decide (o ∈ acc) then acc else acc ++ [o]) [] l.

(** [[x for target in ["A", "C", "SD"] for x in findAll(target, grid)]] *)
Definition nonObstaclesOf (grid : Grid) : outcome (list Object) :=
  a ← findAll "A" grid;
  c ← findAll "C" grid;
  s ← findAll "SD" grid;
  Ok (a ++ c ++ s).

(** [{source: {target: 0 for target in nonObstacles} for source in nonObstacles}] *)
Definition zeroMatrix (nonObstacles : list Object) : gmap Object (gmap Object Z) :=
  list_to_map
    (map (fun source => (source, list_to_map (map (fun target => (target, 0)) nonObstacles)))
         nonObstacles).

(** [adjMatrix[source][target] = dist] *)
Definition setEdge (adj : gmap Object (gmap Object Z)) (source target : Object)
    (dist : Z) : outcome (gmap Object (gmap Object Z)) :=
  row ← orRaise KeyError (adj !! source);
  Ok (<[source := <[target := dist]> row]> adj).

(** [alteredGraph[a][b]] *)
Definition getEdge (gr : Graph) (a b : Object) : outcome Z :=
  row ← orRaise KeyError (gAdj gr !! a);
  orRaise KeyError (row !! b).

(** The inner loop of [convertToGraph] for one [source]. *)
Definition fillRow (fuel : nat) (grid : Grid) (source : Object)
    (adj : gmap Object (gmap Object Z)) (targets : list Object)
    : outcome (gmap Object (gmap Object Z)) :=
  foldM (fun adj target =>
           dist ← getDist fuel (loc source) (loc target) grid;
           adj1 ← setEdge adj source target dist;
           setEdge adj1 target source dist)
        adj targets.

(** The outer loop: [source] runs over the list, [target] over the
    objects after it. *)
Fixpoint fillRows (fuel : nat) (grid : Grid) (adj : gmap Object (gmap Object Z))
    (l : list Object) : outcome (gmap Object (gmap Object Z)) :=
  match l with
  | [] => Ok adj
  | source :: rest =>
    adj' ← fillRow fuel grid source adj rest;
    fillRows fuel grid adj' rest
  end.

Definition convertToGraph (fuel : nat) (grid : Grid) : outcome Graph :=
  nonObstacles ← nonObstaclesOf grid;
  adj ← fillRows fuel grid (zeroMatrix nonObstacles) nonObstacles;
  Ok (mkGraph (dictKeys nonObstacles) adj).

(** *** [omitFromGrid] *)

Definition omitFromGrid (grid : Grid) (visited : gset Object) : outcome Grid :=
  foldM (fun alteredGrid o =>
           orRaise IndexError (pySet2 alteredGrid (ox o) (oy o) "."%string))
        grid (elements visited).

(** *** [getMScores] *)

(** [itertools.combinations(l, k)] *)
Fixpoint combinations {A} (l : list A) (k : nat) {struct l} : list (list A) :=
  match k, l with
  | O, _ => [[]]
  | S _, [] => []
  | S k', x :: l' => map (cons x) (combinations l' k') ++ combinations l' k
  end.

(** [[frozenset(x) for i in range(len(nonObstacles) + 1)
      for x in itertools.combinations(nonObstacles, i)]] *)
Definition objectPowerset (nonObstacles : list Object) : list (gset Object) :=
  concat (map (fun i => map list_to_set (combinations nonObstacles i))
              (seq 0 (length nonObstacles + 1))).

(** The table [mScores] maps a trajectory length to the best score and
    its path; the cache [graphs] maps a set of visited objects to its
    graph, [None] being the entry of a set whose graph has not been built
    yet. *)

(** The [try ... except KeyError ... else] block: the entry of the node's
    trajectory length is written when there is none, or when the node's
    score is greater than the stored one. *)
Definition updateScores (currentNode : DLSNode) (mScores : gmap Z (Z * list Object))
    : gmap Z (Z * list Object) :=
  match mScores !! getTrajLen currentNode with
  | None => <[getTrajLen currentNode := (dScore currentNode, getPath currentNode)]> mScores
  | Some (maxScore, maxPath) =>
    if decide (dScore currentNode > maxScore)
    then <[getTrajLen currentNode := (dScore currentNode, getPath currentNode)]> mScores
    else mScores
  end.

(** The child node that the [else] branch of the expansion puts on the
    queue. *)
Definition childNode (currentNode : DLSNode) (neighbour : Object) (w : Z) : DLSNode :=
  let cost := dCost currentNode + w in
  let budget := dBudget currentNode - w in
  let budget := if decide (identifier neighbour = "SD"%string)
                then budget + value neighbour else budget in
  let score := dScore currentNode in
  let score := if decide (identifier neighbour = "C"%string)
               then score + value neighbour else score in
  mkDLSNode (Some currentNode) neighbour cost budget score.

(** The body of [for neighbour in list(initialGraph.keys())], on the
    queue and the cache. *)
Definition expandNeighbour (fuel : nat) (grid : Grid) (currentNode : DLSNode)
    (st : list DLSNode * gmap (gset Object) (option Graph)) (neighbour : Object)
    : outcome (list DLSNode * gmap (gset Object) (option Graph)) :=
  let '(q, graphs) := st in
  entry ← orRaise KeyError (graphs !! getVisited currentNode);
  '(alteredGraph, graphs') ←
    match entry with
    | Some gr => Ok (gr, graphs)
    | None =>
      alteredGrid ← omitFromGrid grid (getVisited currentNode);
      gr ← convertToGraph fuel alteredGrid;
      Ok (gr, <[getVisited currentNode := Some gr]> graphs)
    end;
  if decide (neighbour ∈ getPath currentNode) then Ok (q, graphs')
  else
    w ← getEdge alteredGraph (dObj currentNode) neighbour;
    if decide (w > dBudget currentNode) then Ok (q, graphs')
    else Ok (q ++ [childNode currentNode neighbour w], graphs').

(** The [while not q.empty()] loop, on the queue, the table and the
    cache. *)
Fixpoint searchLoop (fuel aFuel : nat) (grid : Grid) (keys : list Object)
    (q : list DLSNode) (mScores : gmap Z (Z * list Object))
    (graphs : gmap (gset Object) (option Graph)) : outcome (gmap Z (Z * list Object)) :=
  match fuel with
  | O => OutOfFuel
  | S fuel' =>
    match q with
    | [] => Ok mScores
    | currentNode :: q' =>
      let mScores' := updateScores currentNode mScores in
      st ← foldM (expandNeighbour aFuel grid currentNode) (q', graphs) keys;
      searchLoop fuel' aFuel grid keys st.1 mScores' st.2
    end
  end.

(** [graphs = {s: None for s in objectPowerset}; graphs[frozenset()] = initialGraph] *)
Definition initialGraphs (nonObstacles : list Object) (initialGraph : Graph)
    : gmap (gset Object) (option Graph) :=
  <[∅ := Some initialGraph]>
    (list_to_map (map (fun s => (s, None)) (objectPowerset nonObstacles))).

(** [getMScores(grid, defaultLimit)]; [fuel] bounds the iterations of
    every loop of the run (the main loop and each path search). *)
Definition getMScores (fuel : nat) (grid : Grid) (defaultLimit : Z)
    : outcome (gmap Z (Z * list Object)) :=
  initialGraph ← convertToGraph fuel grid;
  nonObstacles ← nonObstaclesOf grid;
  let graphs := initialGraphs nonObstacles initialGraph in
  agents ← findAll "A" grid;
  root ← orRaise IndexError (head agents);
  searchLoop fuel fuel grid (gKeys initialGraph)
    [mkDLSNode None root 0 defaultLimit 0] ∅ graphs.

(** *** [parseEnv] *)

(** The lines of a text, without their terminating newline. *)
Fixpoint readlines (s : string) : list string :=
  match s with
  | EmptyString => []
  | String c s' =>
    if Ascii.eqb c "010" then EmptyString :: readlines s'
    else match readlines s' with
         | [] => [String c EmptyString]
         | l :: ls => String c l :: ls
         end
  end.

(** [line.split()]: the maximal runs of characters that are not white
    space.  The first component is the run that the text starts with. *)
Fixpoint splitRuns (s : string) : string * list string :=
  match s with
  | EmptyString => (EmptyString, [])
  | String c s' =>
    let '(cur, toks) := splitRuns s' in
    if isSpace c
    then (EmptyString, if decide (cur = EmptyString) then toks else cur :: toks)
    else (String c cur, toks)
  end.

Definition split (s : string) : list string :=
  let '(cur, toks) := splitRuns s in
  if decide (cur = EmptyString) then toks else cur :: toks.

(** [np.array(rows).T.tolist()]: the columns of a rectangular list of
    rows; a ragged one is refused by [np.array] with a [ValueError] (numpy 1.24
    and later). *)
Definition npTranspose (rows : list (list string)) : outcome Grid :=
  match rows with
  | [] => Ok []
  | r :: _ =>
    if forallb (fun r' => Nat.eqb (length r') (length r)) rows
    then Ok (map (fun j => map (fun r' => nth j r' EmptyString) rows) (seq 0 (length r)))
    else Raise ValueError
  end.

(** [parseEnv], on the text of the file. *)
Definition parseEnv (text : string) : outcome (Z * Grid) :=
  let lines := readlines text in
  epLen ← orRaise ValueError (pyInt (hd EmptyString lines));
  grid ← npTranspose (map split (tl lines));
  Ok (epLen, grid).

(** * Specification vocabulary *)

(** The token of the tile at a coordinate inside the grid. *)
Definition gridAt (grid : Grid) (t : Loc) : option string :=
  if decide (0 <= t.1 /\ 0 <= t.2)
  then col ← grid !! Z.to_nat t.1; col !! Z.to_nat t.2
  else None.

(** A tile of the binary grid that lies inside it and is free. *)
Definition insideFree (binGrid : BinGrid) (t : Loc) : Prop :=
  0 <= t.1 /\ 0 <= t.2 /\ binAt binGrid t = Some 0.

(** Two tiles one four-directional step apart. *)
Definition adjacent (a b : Loc) : Prop := getManhattanDist a b = 1.

(** [route binGrid a b n]: a walk of [n] unit steps from [a] to [b] over
    free tiles inside the grid. *)
Inductive route (binGrid : BinGrid) : Loc -> Loc -> nat -> Prop :=
  | route_here a : insideFree binGrid a -> route binGrid a a 0
  | route_step a b c n :
      insideFree binGrid a -> adjacent a b -> route binGrid b c n ->
      route binGrid a c (S n).

(** The least number of steps of a route. *)
Definition shortest (binGrid : BinGrid) (a b : Loc) (n : nat) : Prop :=
  route binGrid a b n /\ forall m, route binGrid a b m -> (n <= m)%nat.

(** The tokens of the interactable objects: those that [findAll] picks
    up for one of its three targets. *)
Definition interactable (tile : string) : Prop :=
  reMatchPrefix "A" tile = true \/ reMatchPrefix "C" tile = true \/
  reMatchPrefix "SD" tile = true.

(** The occupancy grid of a pair as the specification describes it:
    walls and the objects other than the pair blocked, the pair and the
    empty tiles free. *)
Definition blocksAllOthers (grid : Grid) (u v : Loc) (b : BinGrid) : Prop :=
  forall t tile, gridAt grid t = Some tile ->
    ((tile = "#"%string \/ interactable tile) -> t <> u -> t <> v -> binAt b t = Some 1) /\
    (t = u \/ t = v \/ tile = "."%string -> binAt b t = Some 0).

(** The occupancy grid of a pair as [getDist] computes it: the tiles of
    the pair, the empty tiles and the Agent tiles free, every other
    tile blocked. *)
Definition blocksAllButAgent (grid : Grid) (u v : Loc) (b : BinGrid) : Prop :=
  forall t tile, gridAt grid t = Some tile ->
    binAt b t = Some (if decide (t = u \/ t = v \/ tile = "."%string \/ tile = "A"%string)
                      then 0 else 1).

(** ** The grids of the examples *)

(** Scenario A of the specification: the row [A . C5], as columns. *)
Definition scenarioA : Grid := [["A"]; ["."]; ["C5"]]%string.
Definition agentA : Object := mkObject "A" 0 0 0.
Definition coin5 : Object := mkObject "C" 2 0 5.

(** The table that the specification gives for scenario A. *)
Definition scenarioA_claimed (table : gmap Z (Z * list Object)) : Prop :=
  table !! 2 = Some (5, [agentA; coin5]) /\ table !! 0 = Some (0, [agentA]).

(** A 3x3 binary grid whose walls leave one route of six steps from the
    top-left to the bottom-left tile. *)
Definition detourGrid : BinGrid := [[0; 1; 0]; [0; 1; 0]; [0; 0; 0]].

(** The number of steps from [(0, 0)] to a free tile of [detourGrid]. *)
Definition detourDepth (t : Loc) : Z :=
  match t with
  | (0, 0) => 0 | (1, 0) => 1 | (2, 0) => 2 | (2, 1) => 3
  | (2, 2) => 4 | (1, 2) => 5 | (0, 2) => 6
  | _ => 0
  end.

(** A grid with the Agent at [(0, 0)] and a coin at [(0, 2)] whose
    occupancy grid for the two is [detourGrid]. *)
Definition detourWorld : Grid :=
  [["A"; "#"; "C1"]; ["."; "#"; "."]; ["."; "."; "."]]%string.

(** A 3x3 binary grid whose middle column is a wall: the tile [(0, 0)]
    is enclosed. *)
Definition sealedGrid : BinGrid := [[0; 1; 0]; [1; 1; 1]; [0; 0; 0]].

(** A grid with the Agent at [(0, 0)] and a coin at [(0, 2)] whose
    occupancy grid for the two is [sealedGrid]. *)
Definition sealedWorld : Grid :=
  [["A"; "#"; "C1"]; ["#"; "#"; "#"]; ["."; "."; "."]]%string.

(** A row with a coin on each side of the Agent. *)
Definition agentBetween : Grid := [["C1"]; ["A"]; ["C2"]]%string.

(** The text of a file whose body has two Agents, and its grid. *)
Definition twoAgentsText : string :=
  ("2" +:+ String "010" "A A C5" +:+ String "010" "")%string.
Definition twoAgents : Grid := [["A"]; ["A"]; ["C5"]]%string.


(** ** Invariants of the search *)

(** The sum of the values of the coins in a list of objects. *)
Definition coinSum (l : list Object) : Z :=
  foldr (fun o acc => (if decide (identifier o = "C"%string) then value o else 0) + acc) 0 l.

(** A search node over the objects [objs]: no object comes twice on its
    path, the path stays inside [objs], and the score is the sum of the
    coins on the path. *)
Definition nodeOk (objs : list Object) (n : DLSNode) : Prop :=
  NoDup (getPath n) /\ (forall o, o ∈ getPath n -> o ∈ objs) /\
  dScore n = coinSum (getPath n).

(** A table all of whose entries are the score and the path of a node
    that satisfies [P]. *)
Definition tableFrom (P : DLSNode -> Prop) (table : gmap Z (Z * list Object)) : Prop :=
  forall L s p, table !! L = Some (s, p) ->
    exists n, P n /\ L = getTrajLen n /\ s = dScore n /\ p = getPath n.

(** No tile of the grid is a time-extension device. *)
Definition noSD (grid : Grid) : Prop :=
  forall col tile, col ∈ grid -> tile ∈ col -> reMatchPrefix "SD" tile = false.


(** ** Measures of the two searches *)

(** The size of a tree of depth [u] with four children per node. *)
Fixpoint searchTree (u : nat) : nat :=
  match u with
  | O => 1
  | S u' => 1 + 4 * searchTree u'
  end.

(** The coordinates that the subscripts of a grid accept, from the
    lengths of its columns: with [w] columns of [h] tiles at most, the
    column subscripts from [-w] to [w - 1] and the row subscripts from
    [-h] to [h - 1]. *)
Definition coordsOf (shape : list nat) : gset (Z * Z) :=
  let w := Z.of_nat (length shape) in
  let h := Z.of_nat (foldr Nat.max O shape) in
  list_to_set (x ← seqZ (- w) (2 * w); y ← seqZ (- h) (2 * h); [(x, y)]).

(** The weight of a node of the priority queue, given the accepted
    coordinates [U] and the visited ones [V]: a node on a coordinate not
    yet visited closes it when it is popped. *)
Definition aWeight (U V : gset (Z * Z)) (n : AStarNode) : nat :=
  if decide (aLoc n ∈ U ∖ V)
  then searchTree (size (U ∖ V))
  else searchTree (S (size (U ∖ V))).

(** The fuel that lets every path search on a grid of the given shape
    run to its end. *)
Definition aStarFuel (shape : list nat) : nat :=
  S (searchTree (S (size (coordsOf shape)))).

(** The size of the tree of the paths without repetition over [r]
    objects. *)
Fixpoint visitTree (r : nat) : nat :=
  match r with
  | O => 1
  | S r' => 1 + r * visitTree r'
  end.

(** The objects that a node can still visit. *)
Definition remaining (keys : list Object) (n : DLSNode) : nat :=
  length (filter (fun o => o ∉ getPath n) keys).

Definition dWeight (keys : list Object) (n : DLSNode) : nat :=
  visitTree (remaining keys n).

(** A computation that ends, with a value or with an exception. *)
Definition halts {A} (m : outcome A) : Prop := m <> OutOfFuel.

(** The fuel that lets [getMScores] run to its end on a grid: enough
    for every path search on a grid of this shape, and for one iteration
    of the main loop per path without repetition over the objects. *)
Definition searchFuel (grid : Grid) : nat :=
  aStarFuel (map length grid) +
  match nonObstaclesOf grid with
  | Ok objs => S (visitTree (length (dictKeys objs)))
  | _ => O
  end.

(** The tiles of the objects of a set. *)
Definition locsOf (visited : gset Object) : gset (Z * Z) := set_map loc visited.

(** An adjacency matrix with an entry for every pair of the objects. *)
Definition complete (objs : list Object) (adj : gmap Object (gmap Object Z)) : Prop :=
  forall a b, a ∈ objs -> b ∈ objs ->
    exists row w, adj !! a = Some row /\ row !! b = Some w.

(** A cache with an entry for every set of objects, whose graphs have
    an edge for every pair of objects outside their set. *)
Definition cacheOk (objs : list Object) (graphs : gmap (gset Object) (option Graph)) : Prop :=
  (forall V : gset Object, V ⊆ list_to_set objs -> is_Some (graphs !! V)) /\
  (forall V gr, graphs !! V = Some (Some gr) ->
     forall a b, a ∈ objs -> b ∈ objs -> a ∉ V -> b ∉ V ->
       exists w, getEdge gr a b = Ok w).

(** ** Well-formed input *)

Fixpoint allDigits (s : string) : bool :=
  match s with
  | EmptyString => true
  | String c s' => isDigit c && allDigits s'
  end.

(** A non-empty string of at most 4300 decimal digits: Python's [int]
    refuses a longer one with a [ValueError] (the default of
    [sys.set_int_max_str_digits]). *)
Definition numeral (s : string) : bool :=
  match s with
  | EmptyString => false
  | _ => allDigits s && (String.length s <=? 4300)%nat
  end.

(** The tokens of the grid text format: [A], [#], [.], [C<v>] and
    [SD<t>] with decimal numerals [v] and [t] that [int] reads. *)
Definition wellFormedTile (tile : string) : bool :=
  match tile with
  | String "A" EmptyString | String "#" EmptyString | String "." EmptyString => true
  | String "C" d => numeral d
  | String "S" (String "D" d) => numeral d
  | _ => false
  end.

(** Rows, or columns, of one length. *)
Definition rectangular {A} (rows : list (list A)) : Prop :=
  forall r, r ∈ rows -> length r = length (hd [] rows).

(** A well-formed grid: rectangular, made of tokens of the format,
    with exactly one Agent. *)
Definition wellFormedGrid (grid : Grid) : Prop :=
  rectangular grid /\
  (forall col tile, col ∈ grid -> tile ∈ col -> wellFormedTile tile = true) /\
  length (filter (fun tile => tile = "A"%string) (concat grid)) = 1%nat.

(** [below m1 m2]: the run [m1] ran out of fuel, or it ended as [m2]. *)
Definition below {A} (m1 m2 : outcome A) : Prop := m1 = OutOfFuel \/ m1 = m2.

(** * Further vocabulary *)

(** The column-major order of the tiles: by column, then by row. *)
Definition locLt (a b : Z * Z) : Prop := a.1 < b.1 \/ (a.1 = b.1 /\ a.2 < b.2).

(** A list of objects in strictly increasing column-major order. *)
Definition increasing (l : list Object) : Prop :=
  forall i j a b, (i < j)%nat -> l !! i = Some a -> l !! j = Some b ->
    locLt (loc a) (loc b).

(** The value that [findAll] reads from a tile for a target: 0 when
    nothing is left after the target has been removed, the integer that
    is left otherwise. *)
Definition tileValue (target tile : string) (v : Z) : Prop :=
  (reSub target tile = EmptyString /\ v = 0) \/
  (reSub target tile <> EmptyString /\ pyInt (reSub target tile) = Some v).


(** ** The graph that the path search explores *)

(** One step of the search: from a tile to one of the neighbours that
    [getFreeNeighbours] returns for it. *)
Definition step (b : BinGrid) (t n : Z * Z) : Prop := n ∈ getFreeNeighbours t b.

(** [walk b a c k]: [k] steps of the search lead from [a] to [c]. *)
Inductive walk (b : BinGrid) (a : Z * Z) : Z * Z -> nat -> Prop :=
  | walk_here : walk b a a 0
  | walk_more m c k : walk b a m k -> step b m c -> walk b a c (S k).

(** A list of tiles each of which is one step from the one before. *)
Definition chained (b : BinGrid) (p : list (Z * Z)) : Prop :=
  forall i x y, p !! i = Some x -> p !! S i = Some y -> step b x y.

(** A node of the priority queue whose parent chain is a walk from
    [start] of [g] steps. *)
Definition nodeWalk (b : BinGrid) (start : Z * Z) (n : AStarNode) : Prop :=
  head (aPath n) = Some start /\ last (aPath n) = Some (aLoc n) /\
  Z.of_nat (length (aPath n)) = aG n + 1 /\ chained b (aPath n).

(** A heuristic that is zero at the goal and that one step lowers by one
    at most. *)
Definition consistent (b : BinGrid) (h : Z * Z -> Z * Z -> Z) (end_ : Z * Z) : Prop :=
  h end_ end_ = 0 /\ forall t n, step b t n -> h t end_ <= 1 + h n end_.

(** The state of the path search: the goal is not visited, the start is
    visited or waits in the queue, and every step from a visited tile
    leads to a visited tile or to one that waits in the queue. *)
Definition frontier (b : BinGrid) (start end_ : Z * Z)
    (pq : list AStarNode) (V : gset (Z * Z)) : Prop :=
  (end_ ∉ V) /\
  (start ∈ V \/ exists n, n ∈ pq /\ aLoc n = start) /\
  forall v n, v ∈ V -> step b v n -> n ∈ V \/ exists x, x ∈ pq /\ aLoc x = n.

(** ** The order of the heap *)

(** A list in heap order for a key: no element has a smaller key than
    its parent, the element at position [(j - 1) / 2]. *)
Definition heapOrdered {A} (key : A -> Z) (l : list A) : Prop :=
  forall j x y, (0 < j)%nat ->
    l !! ((j - 1) / 2)%nat = Some x -> l !! j = Some y -> key x <= key y.

(** A list in heap order but for the position [pos], whose element is
    to be replaced: the pairs of parent and child that do not involve
    [pos] are ordered, and so are the parent and the children of [pos]. *)
Definition heapHole {A} (key : A -> Z) (l : list A) (pos : nat) : Prop :=
  (forall j x y, (0 < j)%nat -> j <> pos -> ((j - 1) / 2)%nat <> pos ->
     l !! ((j - 1) / 2)%nat = Some x -> l !! j = Some y -> key x <= key y) /\
  (forall c x y, (0 < pos)%nat -> ((c - 1) / 2)%nat = pos -> (0 < c)%nat ->
     l !! ((pos - 1) / 2)%nat = Some x -> l !! c = Some y -> key x <= key y).

(** The children of [pos] have keys no smaller than [k]. *)
Definition aboveChildren {A} (key : A -> Z) (l : list A) (pos : nat) (k : Z) : Prop :=
  forall c y, (0 < c)%nat -> ((c - 1) / 2)%nat = pos -> l !! c = Some y -> k <= key y.

(** The state of the search of [aStarSearch] between two iterations,
    for a walk count from [start]: the queue is a heap on [g + h], its
    nodes carry the heuristic of their tile, the goal has not been
    popped, and every tile one step from a popped tile [v] is popped or
    queued with a cost no more than one above the length of any walk to
    [v]. *)
Definition settled (b : BinGrid) (h : Z * Z -> Z * Z -> Z) (start end_ : Z * Z)
    (pq : list AStarNode) (V : gset (Z * Z)) : Prop :=
  heapOrdered aF pq /\
  (forall x, x ∈ pq -> aH x = h (aLoc x) end_) /\
  (end_ ∉ V) /\
  (start ∈ V \/ exists x, x ∈ pq /\ aLoc x = start /\ aG x = 0) /\
  (forall v k n, v ∈ V -> walk b start v k -> step b v n ->
     n ∈ V \/ exists x, x ∈ pq /\ aLoc x = n /\ aG x <= Z.of_nat k + 1).

(** A binary grid whose last column and last row are blocked: the
    coordinate [-1] reads no free tile. *)
Definition fenced (b : BinGrid) : Prop :=
  forall t, binAt b t = Some 0 -> 0 <= t.1 /\ 0 <= t.2 ->
    t.1 + 1 < Z.of_nat (length b) /\
    forall col, b !! Z.to_nat t.1 = Some col -> t.2 + 1 < Z.of_nat (length col).

(** A fenced binary grid of four columns and three rows, with a wall
    between [(0, 0)] and [(2, 0)]. *)
Definition fencedGrid : BinGrid := [[0; 0; 1]; [1; 0; 1]; [0; 0; 1]; [1; 1; 1]].

(** [adj[a][c]], when both keys are there. *)
Definition edgeOf (adj : gmap Object (gmap Object Z)) (a c : Object) : option Z :=
  row ← adj !! a; row !! c.

(** The sum of the values of the time-extension devices of a list of
    objects. *)
Definition sdSum (l : list Object) : Z :=
  foldr (fun o acc => (if decide (identifier o = "SD"%string) then value o else 0) + acc) 0 l.

(** A search node of a run from [root] with the limit [defaultLimit]:
    its path begins at [root], and its trajectory length is the limit
    plus the values of the devices on the path. *)
Definition nodeFrom (root : Object) (defaultLimit : Z) (n : DLSNode) : Prop :=
  head (getPath n) = Some root /\
  getTrajLen n = defaultLimit + sdSum (getPath n).

(** The nodes that the search of [getMScores] can make from a node [m]:
    [m] itself, and the child of such a node [n] for an object [nb] that
    is not on its path, when the graph of the grid without the objects
    visited by [n] has an edge from the object of [n] to [nb] within the
    budget of [n]. *)
Inductive reach (aFuel : nat) (grid : Grid) (keys : list Object) (m : DLSNode)
    : DLSNode -> Prop :=
  | reach_here : reach aFuel grid keys m m
  | reach_child n nb g' gr w :
      reach aFuel grid keys m n ->
      nb ∈ keys -> nb ∉ getPath n ->
      omitFromGrid grid (getVisited n) = Ok g' ->
      convertToGraph aFuel g' = Ok gr ->
      getEdge gr (dObj n) nb = Ok w -> w <= dBudget n ->
      reach aFuel grid keys m (childNode n nb w).

(** A cache whose graphs are those of the grid without the objects of
    their key. *)
Definition cacheRight (aFuel : nat) (grid : Grid)
    (graphs : gmap (gset Object) (option Graph)) : Prop :=
  forall V gr, graphs !! V = Some (Some gr) ->
    exists g', omitFromGrid grid V = Ok g' /\ convertToGraph aFuel g' = Ok gr.

(** The table has an entry at the trajectory length of the node, with a
    score that is not below the node's. *)
Definition covered (table : gmap Z (Z * list Object)) (n : DLSNode) : Prop :=
  exists s p, table !! getTrajLen n = Some (s, p) /\ dScore n <= s.

(** The child of a node for an object, as the expansion makes it. *)
Definition childOf (aFuel : nat) (grid : Grid) (node : DLSNode) (nb : Object)
    (c : DLSNode) : Prop :=
  exists g' gr w, (nb ∉ getPath node) /\
    omitFromGrid grid (getVisited node) = Ok g' /\
    convertToGraph aFuel g' = Ok gr /\
    getEdge gr (dObj node) nb = Ok w /\ w <= dBudget node /\
    c = childNode node nb w.

(** A text without white space. *)
Fixpoint spaceFree (s : string) : bool :=
  match s with
  | EmptyString => true
  | String c s' => negb (isSpace c) && spaceFree s'
  end.

(** A token: a non-empty text without white space. *)
Definition token (s : string) : Prop := s <> EmptyString /\ spaceFree s = true.

(** ** The texts on which the embedding of Python's strings is exact *)

(** A target of [findAll] made of letters and digits: as a regular
    expression it matches itself and nothing else. *)
Definition alnum (c : ascii) : bool :=
  let n := Z.of_nat (nat_of_ascii c) in
  ((48 <=? n) && (n <=? 57)) || ((65 <=? n) && (n <=? 90)) || ((97 <=? n) && (n <=? 122)).

Fixpoint plain (s : string) : bool :=
  match s with
  | EmptyString => true
  | String c s' => alnum c && plain s'
  end.



(** The text of a file of 7-bit characters without the characters that
    reading changes: the carriage return, which the text mode turns
    into a line feed, and the null character, which [np.array] drops at
    the end of a string. *)
Fixpoint fileText (s : string) : bool :=
  match s with
  | EmptyString => true
  | String c s' =>
    let n := Z.of_nat (nat_of_ascii c) in
    (1 <=? n) && (n <=? 127) && negb (n =? 13) && fileText s'
  end.


(** ** The numbers on which the embedding of the search is exact *)

(** The time that the devices of a list of objects can add to a
    budget. *)
Definition sdGain (l : list Object) : Z :=
  foldr (fun o acc =>
           (if decide (identifier o = "SD"%string) then Z.max 0 (value o) else 0) + acc) 0 l.

(** The limit, with all the time that the devices of the grid can add
    to it, is below the sentinel [MAXDIST].  No budget of the search
    then reaches the weight of a sentinel edge, so no such edge is
    taken: the float of the source takes part in comparisons only, and
    every cost, budget and trajectory length is a Python [int], as
    here. *)
Definition belowSentinel (grid : Grid) (defaultLimit : Z) : Prop :=
  forall objs, nonObstaclesOf grid = Ok objs -> defaultLimit + sdGain objs < MAXDIST.

(** ** [generateGrids.py]: the writer of the grid files *)

(** The decimal digits of a number that is not negative, most
    significant first, in front of [acc]. *)
Fixpoint digitsOf (fuel : nat) (n : Z) (acc : string) : string :=
  match fuel with
  | O => acc
  | S fuel' =>
    let acc' := String (ascii_of_nat (Z.to_nat (48 + n mod 10))) acc in
    if decide (n < 10) then acc' else digitsOf fuel' (n / 10) acc'
  end.

(** [str(z)], which [f"{epLen}"] writes for an integer. *)
Definition pyStr (z : Z) : string :=
  let digits := digitsOf (S (Z.to_nat (Z.log2 (Z.abs z)))) (Z.abs z) EmptyString in
  if decide (z < 0) then String "-" digits else digits.

Fixpoint spaces (n : nat) : string :=
  match n with
  | O => EmptyString
  | S n' => String " " (spaces n')
  end.

(** [f"{c:^{width}}"]: [c] centred in [width] characters; of an odd
    number of spaces the greater half goes to the right. *)
Definition center (c : string) (width : nat) : string :=
  let pad := (width - String.length c)%nat in
  (spaces (pad / 2) +:+ c +:+ spaces (pad - pad / 2))%string.

(** [max(map(lambda s : len(s), col))]; [max] of an empty sequence is a
    [ValueError]. *)
Definition maxLen (col : list string) : outcome nat :=
  match col with
  | [] => Raise ValueError
  | _ => Ok (foldr Nat.max O (map String.length col))
  end.

(** [[max(map(lambda s : len(s), col)) for col in grid]] *)
Fixpoint columnWidths (grid : Grid) : outcome (list nat) :=
  match grid with
  | [] => Ok []
  | col :: grid' =>
    w ← maxLen col;
    ws ← columnWidths grid';
    Ok (w :: ws)
  end.

(** [for i, c in enumerate(row): file.write(f"{c:^{columnWidths[i]}} ")],
    from the index [i] on. *)
Fixpoint writeCells (widths : list nat) (i : nat) (row : list string) : outcome string :=
  match row with
  | [] => Ok EmptyString
  | c :: row' =>
    w ← orRaise IndexError (widths !! i);
    rest ← writeCells widths (S i) row';
    Ok (center c w +:+ String " " rest)%string
  end.

(** [for row in gridByRow: ...; file.write("\n")] *)
Fixpoint writeRows (widths : list nat) (rows : list (list string)) : outcome string :=
  match rows with
  | [] => Ok EmptyString
  | row :: rows' =>
    line ← writeCells widths O row;
    rest ← writeRows widths rows';
    Ok (line +:+ String "010" rest)%string
  end.

(** The text that the [__main__] block of [generateGrids.py] writes to
    the file of a grid. *)
Definition writeGrid (epLen : Z) (grid : Grid) : outcome string :=
  widths ← columnWidths grid;
  gridByRow ← npTranspose grid;
  body ← writeRows widths gridByRow;
  Ok (pyStr epLen +:+ String "010" body)%string.

(** A text without a line feed. *)
Fixpoint oneLine (s : string) : bool :=
  match s with
  | EmptyString => true
  | String c s' => negb (Ascii.eqb c "010") && oneLine s'
  end.

(** A grid that the writer takes: rectangular, with a first row, made
    of tokens of 7-bit characters. *)
Definition writable (grid : Grid) : Prop :=
  rectangular grid /\ (forall col, col ∈ grid -> col <> []) /\
  forall col tile, col ∈ grid -> tile ∈ col -> token tile /\ fileText tile = true.
From Stdlib Require SpecFloat.

(** * The search with Python's numbers *)

(** The sentinel [MAXDIST = 10e9] of the source is a float, and
    Python's [+] and [-] give a float as soon as one operand is one.
    Above, every distance, cost, budget and trajectory length is an
    integer: this is what the code computes as long as no sentinel edge
    is taken, that is, as long as no budget reaches [MAXDIST] (see
    [belowSentinel]).  The module [PyNum] follows the loop of
    [getMScores] with Python's own numbers, to say what the code does
    once a sentinel edge is taken.  The graphs are those of
    [convertToGraph]: the entry [MAXDIST] is the float that
    [aStarSearch] returns when it finds no path, every other entry is
    the [int] cost [g] of a goal node (a path of 10^10 steps, whose cost
    would be an [int] equal to the sentinel, needs a grid of more than
    10^9 tiles). *)
Module PyNum.

(** A Python float is an IEEE 754 double: a [spec_float] of the
    Standard Library with 53 bits of precision and exponents below
    1024. *)
Abbreviation float := SpecFloat.spec_float (only parsing).

Definition fadd (x y : float) : float := SpecFloat.SFadd 53 1024 x y.
Definition fsub (x y : float) : float := SpecFloat.SFsub 53 1024 x y.

(** The conversion of an [int] that takes part in float arithmetic:
    the nearest double, ties to even, and the [OverflowError] "int too
    large to convert to float" beyond the doubles. *)
Definition floatOfInt (z : Z) : outcome float :=
  match SpecFloat.binary_normalize 53 1024 z 0 false with
  | SpecFloat.S754_infinity _ => Raise OverflowError
  | f => Ok f
  end.

(** A number of the search: an [int] or a float. *)
Inductive num :=
  | Int (z : Z)
  | Float (f : float).

Definition toFloat (a : num) : outcome float :=
  match a with
  | Int z => floatOfInt z
  | Float f => Ok f
  end.

(** [a + b] and [a - b]: the [int] for two [int]s; otherwise the
    float of the two operands as doubles. *)
Definition add (a b : num) : outcome num :=
  match a, b with
  | Int x, Int y => Ok (Int (x + y))
  | _, _ => x ← toFloat a; y ← toFloat b; Ok (Float (fadd x y))
  end.

Definition sub (a b : num) : outcome num :=
  match a, b with
  | Int x, Int y => Ok (Int (x - y))
  | _, _ => x ← toFloat a; y ← toFloat b; Ok (Float (fsub x y))
  end.

(** The order of an [int] and a float: Python compares the exact
    values, without a conversion. *)
Definition compareIntFloat (x : Z) (f : float) : option comparison :=
  match f with
  | SpecFloat.S754_nan => None
  | SpecFloat.S754_infinity s => Some (if s then Gt else Lt)
  | SpecFloat.S754_zero _ => Some (x ?= 0)
  | SpecFloat.S754_finite s m e =>
    let v := SpecFloat.cond_Zopp s (Z.pos m) in
    Some (if 0 <=? e then x ?= v * 2 ^ e else x * 2 ^ (- e) ?= v)
  end.

Definition compare (a b : num) : option comparison :=
  match a, b with
  | Int x, Int y => Some (x ?= y)
  | Int x, Float g => compareIntFloat x g
  | Float f, Int y => CompOpp <$> compareIntFloat y f
  | Float f, Float g => SpecFloat.SFcompare f g
  end.

(** [a > b] *)
Definition gt (a b : num) : bool :=
  match compare a b with
  | Some Gt => true
  | _ => false
  end.

(** The keys of the dict [mScores]: two numbers are one key when they
    are equal as numbers, whatever their types ([hash] and [==] agree
    on an [int] and a float of one value).  A finite key is [m * 2^e],
    with [e = 0] for an integer and an odd [m] otherwise.  (A NaN, which
    no sum of the search gives, would be a key of its own at every
    insertion; here it is one key.) *)
Inductive key :=
  | Num (m e : Z)
  | Infinity (negative : bool)
  | NaN.

#[global] Instance key_eq_dec : EqDecision key.
Proof. solve_decision. Defined.

#[global] Instance key_countable : Countable key.
Proof.
  refine (inj_countable'
    (fun k => match k with
              | Num m e => inl (m, e)
              | Infinity s => inr (inl s)
              | NaN => inr (inr tt)
              end)
    (fun x => match x with
              | inl (m, e) => Num m e
              | inr (inl s) => Infinity s
              | inr (inr _) => NaN
              end) _).
  by intros [].
Defined.

(** [m * 2^e] with the factors of two taken out of [m] as long as the
    exponent is negative. *)
Fixpoint reduce (m : positive) (e : Z) : positive * Z :=
  match m with
  | xO p => if e <? 0 then reduce p (e + 1) else (m, e)
  | _ => (m, e)
  end.

Definition floatKey (f : float) : key :=
  match f with
  | SpecFloat.S754_zero _ => Num 0 0
  | SpecFloat.S754_infinity s => Infinity s
  | SpecFloat.S754_nan => NaN
  | SpecFloat.S754_finite s m e =>
    let '(m', e') := reduce m e in
    if 0 <=? e' then Num (SpecFloat.cond_Zopp s (Z.pos m' * 2 ^ e')) 0
    else Num (SpecFloat.cond_Zopp s (Z.pos m')) e'
  end.

Definition keyOf (a : num) : key :=
  match a with
  | Int z => Num z 0
  | Float f => floatKey f
  end.

(** The integer that stands for the sentinel in the graphs. *)
Abbreviation intMAXDIST := MAXDIST (only parsing).

(** [MAXDIST = 10e9] *)
Definition MAXDIST : num := Float (SpecFloat.binary_normalize 53 1024 intMAXDIST 0 false).

(** An entry of a graph, as the number that [getDist] returned. *)
Definition edge (w : Z) : num :=
  if decide (w = intMAXDIST) then MAXDIST else Int w.

(** Modelled from the spec: [classes.DLSNode] is not part of the sources.
    [DLSNode(parent, obj, cost, budget, score)]; [getTrajLen] is
    "cost + budget", [getPath] the objects from the root to the node, and
    [getVisited] "the path objects excluding the current one". *)
#[warnings="-register-all"]
Inductive DLSNode :=
  mkDLSNode (parent : option DLSNode) (obj : Object) (cost budget : num) (score : Z).

Definition dObj (n : DLSNode) : Object := match n with mkDLSNode _ o _ _ _ => o end.
Definition dCost (n : DLSNode) : num := match n with mkDLSNode _ _ c _ _ => c end.
Definition dBudget (n : DLSNode) : num := match n with mkDLSNode _ _ _ b _ => b end.
Definition dScore (n : DLSNode) : Z := match n with mkDLSNode _ _ _ _ s => s end.
Definition dParent (n : DLSNode) : option DLSNode :=
  match n with mkDLSNode p _ _ _ _ => p end.

Definition getTrajLen (n : DLSNode) : outcome num := add (dCost n) (dBudget n).

Fixpoint getPath (n : DLSNode) : list Object :=
  match n with
  | mkDLSNode None o _ _ _ => [o]
  | mkDLSNode (Some p) o _ _ _ => getPath p ++ [o]
  end.

Definition getVisited (n : DLSNode) : gset Object :=
  match dParent n with
  | None => ∅
  | Some p => list_to_set (getPath p)
  end.

(** The [try] / [except KeyError] / [else] block on the table. *)
Definition updateScores (currentNode : DLSNode) (mScores : gmap key (Z * list Object))
    : outcome (gmap key (Z * list Object)) :=
  trajLen ← getTrajLen currentNode;
  Ok match mScores !! keyOf trajLen with
     | None => <[keyOf trajLen := (dScore currentNode, getPath currentNode)]> mScores
     | Some (maxScore, maxPath) =>
       if decide (dScore currentNode > maxScore)
       then <[keyOf trajLen := (dScore currentNode, getPath currentNode)]> mScores
       else mScores
     end.

(** The child node that the [else] branch of the expansion puts on the
    queue. *)
Definition childNode (currentNode : DLSNode) (neighbour : Object) (w : num)
    : outcome DLSNode :=
  cost ← add (dCost currentNode) w;
  budget ← sub (dBudget currentNode) w;
  budget ← (if decide (identifier neighbour = "SD"%string)
            then add budget (Int (value neighbour)) else Ok budget);
  let score := dScore currentNode in
  let score := if decide (identifier neighbour = "C"%string)
               then score + value neighbour else score in
  Ok (mkDLSNode (Some currentNode) neighbour cost budget score).

(** The body of [for neighbour in list(initialGraph.keys())], on the
    queue and the cache. *)
Definition expandNeighbour (fuel : nat) (grid : Grid) (currentNode : DLSNode)
    (st : list DLSNode * gmap (gset Object) (option Graph)) (neighbour : Object)
    : outcome (list DLSNode * gmap (gset Object) (option Graph)) :=
  let '(q, graphs) := st in
  entry ← orRaise KeyError (graphs !! getVisited currentNode);
  '(alteredGraph, graphs') ←
    match entry with
    | Some gr => Ok (gr, graphs)
    | None =>
      alteredGrid ← omitFromGrid grid (getVisited currentNode);
      gr ← convertToGraph fuel alteredGrid;
      Ok (gr, <[getVisited currentNode := Some gr]> graphs)
    end;
  if decide (neighbour ∈ getPath currentNode) then Ok (q, graphs')
  else
    w ← getEdge alteredGraph (dObj currentNode) neighbour;
    if gt (edge w) (dBudget currentNode) then Ok (q, graphs')
    else
      child ← childNode currentNode neighbour (edge w);
      Ok (q ++ [child], graphs').

(** The [while not q.empty()] loop, on the queue, the table and the
    cache. *)
Fixpoint searchLoop (fuel aFuel : nat) (grid : Grid) (keys : list Object)
    (q : list DLSNode) (mScores : gmap key (Z * list Object))
    (graphs : gmap (gset Object) (option Graph)) : outcome (gmap key (Z * list Object)) :=
  match fuel with
  | O => OutOfFuel
  | S fuel' =>
    match q with
    | [] => Ok mScores
    | currentNode :: q' =>
      mScores' ← updateScores currentNode mScores;
      st ← foldM (expandNeighbour aFuel grid currentNode) (q', graphs) keys;
      searchLoop fuel' aFuel grid keys st.1 mScores' st.2
    end
  end.

(** [getMScores(grid, defaultLimit)], for an [int] limit. *)
Definition getMScores (fuel : nat) (grid : Grid) (defaultLimit : Z)
    : outcome (gmap key (Z * list Object)) :=
  initialGraph ← convertToGraph fuel grid;
  nonObstacles ← nonObstaclesOf grid;
  let graphs := initialGraphs nonObstacles initialGraph in
  agents ← findAll "A" grid;
  root ← orRaise IndexError (head agents);
  searchLoop fuel fuel grid (gKeys initialGraph)
    [mkDLSNode None root (Int 0) (Int defaultLimit) 0] ∅ graphs.

End PyNum.

(** The integer nodes, states and tables as those of Python numbers. *)
Fixpoint ofNode (n : DLSNode) : PyNum.DLSNode :=
  match n with
  | mkDLSNode p o c b s =>
    PyNum.mkDLSNode (ofNode <$> p) o (PyNum.Int c) (PyNum.Int b) s
  end.

Definition ofState (st : list DLSNode * gmap (gset Object) (option Graph))
    : list PyNum.DLSNode * gmap (gset Object) (option Graph) :=
  (ofNode <$> st.1, st.2).

Definition intKey (z : Z) : PyNum.key := PyNum.Num z 0.

#[global] Instance intKey_inj : Inj (=) (=) intKey.
Proof. by intros x y [= ->]. Qed.

Definition ofTable (table : gmap Z (Z * list Object)) : gmap PyNum.key (Z * list Object) :=
  kmap intKey table.

(** A node of the integer search whose budget is at most the limit with
    the time of the devices on its path. *)
Definition thrifty (objs : list Object) (defaultLimit : Z) (n : DLSNode) : Prop :=
  nodeOk objs n /\ dBudget n <= defaultLimit + sdGain (getPath n).

(** A column in which a wall parts the Agent and the coin. *)
Definition partedCoin : Grid := [["A"; "#"; "C5"]]%string.

(** The table of [partedCoin] with the limit 2^53 + 1: the entry of the
    root node at the limit, and the entry of the node of the coin at
    2^53. *)
Definition partedTable : gmap PyNum.key (Z * list Object) :=
  <[PyNum.Num 9007199254740992 0 := (5, [mkObject "A" 0 0 0; mkObject "C" 0 2 5])]>
    {[ PyNum.Num 9007199254740993 0 := (0, [mkObject "A" 0 0 0]) ]}.

(** * The outcome monad *)

Lemma bind_Ok {A B} (m : outcome A) (k : A -> outcome B) b :
  (a ← m; k a) = Ok b <-> exists a, m = Ok a /\ k a = Ok b.
Proof.
  unfold mbind, outcome_bind, bind. destruct m; split.
  - eauto.
  - intros (? & [= <-] & ?); done.
  - done.
  - intros (? & ? & ?); done.
  - done.
  - intros (? & ? & ?); done.
Qed.

Lemma orRaise_Ok {A} e (o : option A) a : orRaise e o = Ok a <-> o = Some a.
Proof. destruct o; simpl; split; congruence. Qed.

Lemma orRaise_not_OutOfFuel {A} e (o : option A) : orRaise e o <> OutOfFuel.
Proof. destruct o; simpl; congruence. Qed.

(** Inversion of a computation that returned a value: every bind on the
    way returned one. *)
Ltac inv_ok H :=
  repeat match type of H with
  | mbind _ _ = Ok _ =>
      let a := fresh "a" in let Ha := fresh "Ha" in
      apply bind_Ok in H; destruct H as (a & Ha & H)
  | orRaise _ _ = Ok _ => apply orRaise_Ok in H
  | Ok _ = Ok _ => injection H as H
  end.

(** * Python subscripts *)

Lemma pyPos_Some n i p :
  pyPos n i = Some p ->
  (p < n)%nat /\ (Z.of_nat p = i \/ Z.of_nat p = Z.of_nat n + i /\ i < 0).
Proof.
  unfold pyPos. repeat case_decide; intros [= <-]; lia.
Qed.

Lemma pyPos_nonneg n i :
  0 <= i -> pyPos n i = if decide (i < Z.of_nat n) then Some (Z.to_nat i) else None.
Proof.
  intros. unfold pyPos. repeat case_decide; try reflexivity; lia.
Qed.

Lemma pyIndex_nonneg {A} (l : list A) i : 0 <= i -> pyIndex l i = l !! Z.to_nat i.
Proof.
  intros. unfold pyIndex. rewrite pyPos_nonneg by done.
  case_decide; simpl; [done|].
  symmetry. apply lookup_ge_None_2. lia.
Qed.

(** [l[-1]] is the last element. *)
Lemma pyIndex_minus_one {A} (l : list A) :
  pyIndex l (-1) = pyIndex l (Z.of_nat (length l) - 1).
Proof.
  unfold pyIndex, pyPos. destruct l as [|a l]; [reflexivity|].
  cbn [length]. repeat case_decide; try lia; simpl; try (f_equal; lia).
Qed.

(** * The neighbours of a tile *)

(** C10.  There are a binary grid and a tile on its left edge for which
    [getFreeNeighbours] returns a neighbour with the coordinate [-1]:
    the subscript [-1] raises no [IndexError], it reads the tile on the
    opposite edge, so the neighbour returned lies outside the grid. *)
Theorem getFreeNeighbours_leaves_grid :
  exists (binGrid : BinGrid) (tile n : Loc),
    insideFree binGrid tile /\ tile.1 = 0 /\
    n ∈ getFreeNeighbours tile binGrid /\
    n.1 = -1 /\ ~ insideFree binGrid n /\
    binAt binGrid n = binAt binGrid (Z.of_nat (length binGrid) - 1, n.2).
Proof.
  exists detourGrid, (0, 0), (-1, 0).
  unfold insideFree. cbn.
  repeat split; try lia; try reflexivity.
  unfold getFreeNeighbours; cbn; set_solver.
Qed.

(** * Subscripts on a list of lists *)

Lemma pySet_lookup {A} (l l' : list A) i v j :
  pySet l i v = Some l' -> 0 <= i -> 0 <= j ->
  pyIndex l' j = if decide (j = i) then Some v else pyIndex l j.
Proof.
  unfold pySet. intros H Hi Hj.
  rewrite pyPos_nonneg in H by done. case_decide as Hlt; [|done].
  simpl in H. injection H as <-.
  rewrite !pyIndex_nonneg by done.
  case_decide as Hd.
  - subst j. apply list_lookup_insert_eq. lia.
  - apply list_lookup_insert_ne. lia.
Qed.

Lemma pySet2_lookup {A} (m m' : list (list A)) i j v a b :
  pySet2 m i j v = Some m' -> 0 <= i -> 0 <= j -> 0 <= a -> 0 <= b ->
  (col ← pyIndex m' a; pyIndex col b) =
  if decide (a = i /\ b = j) then Some v else col ← pyIndex m a; pyIndex col b.
Proof.
  unfold pySet2. intros H Hi Hj Ha Hb.
  destruct (pyIndex m i) as [col|] eqn:Hcol; [|done]. simpl in H.
  destruct (pySet col j v) as [col'|] eqn:Hcol'; [|done]. simpl in H.
  rewrite (pySet_lookup _ _ _ _ a H) by done.
  case_decide as Hai.
  - subst a. simpl. rewrite (pySet_lookup _ _ _ _ b Hcol') by done.
    rewrite Hcol. simpl. repeat case_decide; try done; tauto.
  - case_decide; [tauto|done].
Qed.

Lemma pySet2_Some {A} (m : list (list A)) i j v a :
  0 <= i -> 0 <= j ->
  (col ← m !! Z.to_nat i; col !! Z.to_nat j) = Some a ->
  is_Some (pySet2 m i j v).
Proof.
  intros Hi Hj H. unfold pySet2.
  destruct (m !! Z.to_nat i) as [col|] eqn:Hcol; [|done]. simpl in H.
  rewrite pyIndex_nonneg, Hcol by done. simpl.
  apply lookup_lt_Some in H, Hcol.
  unfold pySet. rewrite (pyPos_nonneg (length col) j) by done.
  case_decide; [|lia]. simpl. rewrite pyPos_nonneg by done.
  case_decide; [|lia]. simpl. eauto.
Qed.

(** Writing one entry keeps the shape of the grid. *)
Lemma pySet2_shape {A} (m m' : list (list A)) i j v :
  pySet2 m i j v = Some m' -> map length m' = map length m.
Proof.
  unfold pySet2, pySet, pyIndex. intros H.
  destruct (pyPos (length m) i) as [p|] eqn:Hp; [|done]. simpl in H.
  destruct (m !! p) as [col|] eqn:Hcol; [|done]. simpl in H.
  destruct (pyPos (length col) j) as [r|]; [|done]. simpl in H.
  injection H as <-.
  apply list_eq. intros k. rewrite !list_lookup_fmap.
  destruct (decide (k = p)) as [->|].
  - rewrite list_lookup_insert_eq by (by eapply lookup_lt_Some).
    rewrite Hcol. simpl. by rewrite length_insert.
  - by rewrite list_lookup_insert_ne.
Qed.

Lemma binAt_nonneg (b : BinGrid) t :
  0 <= t.1 -> 0 <= t.2 ->
  binAt b t = (col ← b !! Z.to_nat t.1; col !! Z.to_nat t.2).
Proof.
  intros. unfold binAt. rewrite pyIndex_nonneg by done.
  destruct (b !! Z.to_nat t.1); simpl; [|done]. by rewrite pyIndex_nonneg.
Qed.

Lemma gridAt_Some grid t tile :
  gridAt grid t = Some tile ->
  0 <= t.1 /\ 0 <= t.2 /\ (col ← grid !! Z.to_nat t.1; col !! Z.to_nat t.2) = Some tile.
Proof. unfold gridAt. case_decide; [tauto|done]. Qed.

Lemma binAt_binGridOf grid t :
  0 <= t.1 -> 0 <= t.2 -> binAt (binGridOf grid) t = binTile <$> gridAt grid t.
Proof.
  intros. rewrite binAt_nonneg by done. unfold gridAt, binGridOf.
  case_decide; [|lia].
  rewrite list_lookup_fmap. destruct (grid !! Z.to_nat t.1); simpl; [|done].
  by rewrite list_lookup_fmap.
Qed.

(** * The occupancy grid of a pair *)

(** What [findTile] returns. *)
Lemma findTile_Ok target x y tile l :
  findTile target x y tile = Ok l ->
  l = [] /\ reMatchPrefix target tile = false \/
  exists n, l = [mkObject target x y n] /\ reMatchPrefix target tile = true.
Proof.
  unfold findTile. destruct (reMatchPrefix target tile); intros H.
  - inv_ok H. subst. eauto.
  - injection H as <-. eauto.
Qed.

Lemma findCol_elem target x y col l o :
  findCol target x y col = Ok l -> o ∈ l ->
  exists j tile, col !! j = Some tile /\ ox o = x /\ oy o = y + Z.of_nat j /\
    identifier o = target /\ reMatchPrefix target tile = true.
Proof.
  revert y l. induction col as [|tile col IH]; intros y l H Ho; simpl in H.
  - injection H as <-. by apply elem_of_nil in Ho.
  - inv_ok H. subst l. apply elem_of_app in Ho as [Ho|Ho].
    + apply findTile_Ok in Ha as [[-> _]|(n & -> & Hm)].
      * by apply elem_of_nil in Ho.
      * apply list_elem_of_singleton in Ho as ->.
        exists 0%nat, tile. simpl. repeat split; try done. lia.
    + destruct (IH _ _ Ha0 Ho) as (j & t & Hj & ? & ? & ? & ?).
      exists (S j), t. simpl. repeat split; try done. lia.
Qed.

Lemma findCols_elem target x grid l o :
  findCols target x grid = Ok l -> o ∈ l ->
  exists i j col tile, grid !! i = Some col /\ col !! j = Some tile /\
    ox o = x + Z.of_nat i /\ oy o = Z.of_nat j /\
    identifier o = target /\ reMatchPrefix target tile = true.
Proof.
  revert x l. induction grid as [|col grid IH]; intros x l H Ho; simpl in H.
  - injection H as <-. by apply elem_of_nil in Ho.
  - inv_ok H. subst l. apply elem_of_app in Ho as [Ho|Ho].
    + destruct (findCol_elem _ _ _ _ _ _ Ha Ho) as (j & t & Hj & ? & ? & ? & ?).
      exists 0%nat, j, col, t. simpl. repeat split; try done; lia.
    + destruct (IH _ _ Ha0 Ho) as (i & j & c & t & Hi & Hj & ? & ? & ? & ?).
      exists (S i), j, c, t. simpl. repeat split; try done; lia.
Qed.

(** An object that [findAll] returns sits on a tile of the grid whose
    token starts with the target. *)
Lemma findAll_elem target grid l o :
  findAll target grid = Ok l -> o ∈ l ->
  exists tile, gridAt grid (loc o) = Some tile /\ identifier o = target /\
    reMatchPrefix target tile = true.
Proof.
  intros H Ho.
  destruct (findCols_elem _ _ _ _ _ H Ho) as (i & j & c & t & Hi & Hj & Hx & Hy & ? & ?).
  exists t. repeat split; try done.
  unfold gridAt, loc. simpl. case_decide; [|lia].
  replace (Z.to_nat (ox o)) with i by lia.
  replace (Z.to_nat (oy o)) with j by lia.
  rewrite Hi. simpl. done.
Qed.

Lemma nonObstaclesOf_elem grid objs o :
  nonObstaclesOf grid = Ok objs -> o ∈ objs ->
  exists tile, gridAt grid (loc o) = Some tile /\ interactable tile /\
    reMatchPrefix (identifier o) tile = true /\
    (identifier o = "A" \/ identifier o = "C" \/ identifier o = "SD")%string.
Proof.
  unfold nonObstaclesOf, interactable. intros H Ho. inv_ok H. subst objs.
  rewrite !elem_of_app in Ho. destruct Ho as [Ho|[Ho|Ho]].
  - destruct (findAll_elem _ _ _ _ Ha Ho) as (t & ? & -> & ?). eauto 10.
  - destruct (findAll_elem _ _ _ _ Ha0 Ho) as (t & ? & -> & ?). eauto 10.
  - destruct (findAll_elem _ _ _ _ Ha1 Ho) as (t & ? & -> & ?). eauto 10.
Qed.

(** The occupancy grid of two tiles of the grid exists, and it frees
    these two tiles, the empty tiles and the Agent tiles only. *)
Lemma pairGrid_spec grid u v tu tv :
  gridAt grid u = Some tu -> gridAt grid v = Some tv ->
  exists b, pairGrid u v grid = Ok b /\ blocksAllButAgent grid u v b /\
    map length b = map length grid.
Proof.
  intros Hu Hv.
  apply gridAt_Some in Hu as (Hu1 & Hu2 & Hu), Hv as (Hv1 & Hv2 & Hv).
  unfold pairGrid.
  destruct (pySet2_Some (binGridOf grid) u.1 u.2 0 (binTile tu)) as [b1 Hb1]; try done.
  { unfold binGridOf. rewrite list_lookup_fmap.
    destruct (grid !! Z.to_nat u.1); [|done]. simpl in *.
    by rewrite list_lookup_fmap, Hu. }
  assert (Hs1 : map length b1 = map length grid).
  { rewrite (pySet2_shape _ _ _ _ _ Hb1). unfold binGridOf.
    rewrite map_map. apply map_ext. intros. apply length_map. }
  assert (exists a, (col ← b1 !! Z.to_nat v.1; col !! Z.to_nat v.2) = Some a)
    as [a Ha].
  2: destruct (pySet2_Some b1 v.1 v.2 0 a) as [b2 Hb2]; try done.
  { destruct (grid !! Z.to_nat v.1) as [cg|] eqn:Hg; [|done]. simpl in Hv.
    pose proof (f_equal (fun l => l !! Z.to_nat v.1) Hs1) as Hs. simpl in Hs.
    rewrite !list_lookup_fmap, Hg in Hs.
    destruct (b1 !! Z.to_nat v.1) as [c|]; [|done]. simpl in *.
    injection Hs as Hs. apply lookup_lt_is_Some. rewrite Hs.
    by eapply lookup_lt_Some. }
  exists b2. rewrite Hb1. simpl. rewrite Hb2. simpl. split; [done|]. split.
  - intros t tile Ht.
    pose proof Ht as Ht'. apply gridAt_Some in Ht' as (Ht1 & Ht2 & _).
    unfold binAt.
    rewrite (pySet2_lookup _ _ _ _ _ t.1 t.2 Hb2) by done.
    rewrite (pySet2_lookup _ _ _ _ _ t.1 t.2 Hb1) by done.
    fold (binAt (binGridOf grid) t). rewrite binAt_binGridOf, Ht by done.
    simpl. unfold binTile.
    destruct t as [t1 t2], u as [u1 u2], v as [v1 v2]. simpl in *.
    repeat case_decide; try done; exfalso; naive_solver.
  - by rewrite (pySet2_shape _ _ _ _ _ Hb2).
Qed.

(** C2, as amended.  For every grid and every pair [(u, v)] of its
    interactable objects, the occupancy grid that [getDist] builds for
    the pair exists; it blocks every tile whose token is neither ["."]
    nor ["A"] and which is not the tile of [u] or of [v] (the walls and
    the other coins and time-extension devices), and it leaves free the
    tiles of [u] and [v], the empty tiles and every Agent tile, also
    when the Agent is neither [u] nor [v]. *)
Theorem pairGrid_frees_pair_empty_and_agent grid objs u v :
  nonObstaclesOf grid = Ok objs -> u ∈ objs -> v ∈ objs ->
  exists b, pairGrid (loc u) (loc v) grid = Ok b /\
    blocksAllButAgent grid (loc u) (loc v) b.
Proof.
  intros H Hu Hv.
  destruct (nonObstaclesOf_elem _ _ _ H Hu) as (tu & Htu & _).
  destruct (nonObstaclesOf_elem _ _ _ H Hv) as (tv & Htv & _).
  destruct (pairGrid_spec _ _ _ _ _ Htu Htv) as (b & ? & ? & _). eauto.
Qed.

Lemma pairGrid_frees_pair_empty_and_agent_witness :
  exists b, pairGrid (0, 0) (2, 0) agentBetween = Ok b /\
    blocksAllButAgent agentBetween (0, 0) (2, 0) b.
Proof.
  apply (pairGrid_frees_pair_empty_and_agent agentBetween
           [mkObject "A" 1 0 0; mkObject "C" 0 0 1; mkObject "C" 2 0 2]
           (mkObject "C" 0 0 1) (mkObject "C" 2 0 2)).
  - reflexivity.
  - set_solver.
  - set_solver.
Defined.

(** C2 as stated fails: between the two coins of [agentBetween] the
    Agent tile is free, although the Agent is not one of the pair. *)
Lemma pairGrid_agent_tile_free :
  exists b, pairGrid (0, 0) (2, 0) agentBetween = Ok b /\
    gridAt agentBetween (1, 0) = Some "A"%string /\
    binAt b (1, 0) = Some 0 /\
    ~ blocksAllOthers agentBetween (0, 0) (2, 0) b.
Proof.
  eexists. split; [reflexivity|]. split; [reflexivity|]. split; [reflexivity|].
  intros Hc. destruct (Hc (1, 0) "A"%string eq_refl) as [Hblk _].
  cbv in Hblk. discriminate Hblk; [right; left; reflexivity|congruence|congruence].
Qed.

(** * Routes inside the grid *)

Lemma route_start_free b a c n : route b a c n -> insideFree b a.
Proof. by destruct 1. Qed.

(** Case analysis on the membership in an explicit list. *)
Ltac split_elems :=
  repeat match goal with
  | H : _ \/ _ |- _ => destruct H as [H|H]
  | H : _ ∈ [] |- _ => by apply elem_of_nil in H
  end.

Lemma detour_free t :
  insideFree detourGrid t ->
  t ∈ [(0, 0); (1, 0); (2, 0); (2, 1); (2, 2); (1, 2); (0, 2)].
Proof.
  destruct t as [x y]. intros (Hx & Hy & H). simpl in Hx, Hy.
  rewrite binAt_nonneg in H by done. simpl in H.
  destruct (Z.to_nat x) as [|[|[|?]]] eqn:Ex; simpl in H; try done;
    destruct (Z.to_nat y) as [|[|[|?]]] eqn:Ey; simpl in H; try done;
    match goal with |- (?a, ?b) ∈ _ =>
      replace a with (Z.of_nat (Z.to_nat a)) by lia;
      replace b with (Z.of_nat (Z.to_nat b)) by lia
    end; rewrite Ex, Ey; simpl; set_solver.
Qed.

(** One step changes the depth of a tile of [detourGrid] by one at most. *)
Lemma detour_step a b :
  insideFree detourGrid a -> adjacent a b -> insideFree detourGrid b ->
  detourDepth b <= detourDepth a + 1.
Proof.
  intros Ha Hab Hb. apply detour_free in Ha, Hb.
  unfold adjacent, getManhattanDist in Hab.
  rewrite !elem_of_cons in Ha, Hb.
  destruct a as [ax ay], b as [bx by_]. simpl in Hab.
  split_elems; injection Ha as -> ->; injection Hb as -> ->; simpl; lia.
Qed.

Lemma detour_depth a c n :
  route detourGrid a c n -> detourDepth c <= detourDepth a + Z.of_nat n.
Proof.
  induction 1 as [a Ha|a b c n Ha Hab Hr IH]; [lia|].
  pose proof (detour_step a b Ha Hab (route_start_free _ _ _ _ Hr)). lia.
Qed.

Lemma detour_shortest : shortest detourGrid (0, 0) (0, 2) 6.
Proof.
  split.
  - assert (Hfree : forall t,
        t ∈ [(0, 0); (1, 0); (2, 0); (2, 1); (2, 2); (1, 2); (0, 2)] ->
        insideFree detourGrid t).
    { intros t Ht. rewrite !elem_of_cons in Ht.
      split_elems; subst t; unfold insideFree; simpl; repeat split;
        lia || reflexivity. }
    apply (route_step _ _ (1, 0)); [apply Hfree; set_solver|reflexivity|].
    apply (route_step _ _ (2, 0)); [apply Hfree; set_solver|reflexivity|].
    apply (route_step _ _ (2, 1)); [apply Hfree; set_solver|reflexivity|].
    apply (route_step _ _ (2, 2)); [apply Hfree; set_solver|reflexivity|].
    apply (route_step _ _ (1, 2)); [apply Hfree; set_solver|reflexivity|].
    apply (route_step _ _ (0, 2)); [apply Hfree; set_solver|reflexivity|].
    apply route_here. apply Hfree; set_solver.
  - intros m Hm. apply detour_depth in Hm. simpl in Hm. lia.
Qed.

(** No route leaves the enclosed tile of [sealedGrid]. *)
Lemma sealed_stays a c n : route sealedGrid a c n -> a = (0, 0) -> c = (0, 0).
Proof.
  induction 1 as [a Ha|a b c n Ha Hab Hr IH]; [done|].
  intros ->. apply IH. apply route_start_free in Hr.
  destruct b as [x y]. destruct Hr as (Hx & Hy & Hb). simpl in Hx, Hy.
  unfold adjacent, getManhattanDist in Hab. simpl in Hab.
  assert (x = 1 /\ y = 0 \/ x = 0 /\ y = 1) as [[-> ->]|[-> ->]] by lia;
    vm_compute in Hb; discriminate Hb.
Qed.

(** * Invariants of the main loop *)

Lemma foldM_inv {A S} (f : S -> A -> outcome S) (I : S -> Prop) l s s' :
  (forall s a s', a ∈ l -> I s -> f s a = Ok s' -> I s') ->
  I s -> foldM f s l = Ok s' -> I s'.
Proof.
  revert s. induction l as [|a l IH]; intros s Hf Hs H; simpl in H.
  - by injection H as <-.
  - inv_ok H. eapply IH; [|by eapply Hf; [left|..]|done].
    intros ? ? ? ?. apply Hf. by right.
Qed.

(** One neighbour adds one child to the queue at most: the child of an
    object that is not on the path, over an edge within the budget. *)
Lemma expandNeighbour_queue aFuel grid node q graphs nb q' graphs' :
  expandNeighbour aFuel grid node (q, graphs) nb = Ok (q', graphs') ->
  q' = q \/
  exists w, q' = q ++ [childNode node nb w] /\ (nb ∉ getPath node) /\ w <= dBudget node.
Proof.
  unfold expandNeighbour. intros H.
  apply bind_Ok in H as (entry & _ & H).
  apply bind_Ok in H as ([alteredGraph graphs0] & _ & H).
  case_decide as Hin.
  - injection H as <- <-. by left.
  - apply bind_Ok in H as (w & _ & H). case_decide as Hw.
    + injection H as <- <-. by left.
    + injection H as <- <-. right. exists w. repeat split; [done|lia].
Qed.

Section invariant.
Context (aFuel : nat) (grid : Grid) (keys : list Object).
Context (P : DLSNode -> Prop).
Hypothesis child_ok : forall node nb w,
    P node -> nb ∈ keys -> nb ∉ getPath node -> w <= dBudget node ->
    P (childNode node nb w).

Lemma expand_all_inv node q graphs st :
    P node -> Forall P q ->
    foldM (expandNeighbour aFuel grid node) (q, graphs) keys = Ok st ->
    Forall P st.1.
Proof.
    intros Hn Hq H.
    apply (foldM_inv _ (fun st => Forall P st.1) _ _ _) in H; [done| |done].
    intros [q1 g1] nb [q2 g2] Hnb Hq1 Hstep. simpl in *.
    apply expandNeighbour_queue in Hstep as [->|(w & -> & ? & ?)]; [done|].
    apply Forall_app. split; [done|]. apply Forall_singleton. by apply child_ok.
Qed.

Lemma updateScores_from node table :
    P node -> tableFrom P table -> tableFrom P (updateScores node table).
Proof.
    intros Hn Ht L s p. unfold updateScores.
    destruct (table !! getTrajLen node) as [[ms mp]|] eqn:Hl.
    - case_decide; [|apply Ht].
      destruct (decide (L = getTrajLen node)) as [->|].
      + rewrite lookup_insert_eq. intros [= <- <-]. eauto.
      + rewrite lookup_insert_ne by done. apply Ht.
    - destruct (decide (L = getTrajLen node)) as [->|].
      + rewrite lookup_insert_eq. intros [= <- <-]. eauto.
      + rewrite lookup_insert_ne by done. apply Ht.
Qed.

  (** Every entry of the table that the loop returns is the score and
      the path of a node that satisfies the invariant. *)
Lemma searchLoop_inv fuel q table graphs table' :
    Forall P q -> tableFrom P table ->
    searchLoop fuel aFuel grid keys q table graphs = Ok table' ->
    tableFrom P table'.
Proof.
    revert q table graphs.
    induction fuel as [|fuel IH]; intros q table graphs Hq Ht H; [done|].
    simpl in H. destruct q as [|node q]; [by injection H as <-|].
    inv_ok H. apply Forall_cons in Hq as [Hn Hq].
    eapply IH; [| |exact H].
    - by eapply expand_all_inv.
    - by apply updateScores_from.
Qed.
End invariant.

(** The table never loses a key. *)
Lemma updateScores_dom node (table : gmap Z (Z * list Object)) :
  dom (updateScores node table) = {[ getTrajLen node ]} ∪ dom table.
Proof.
  unfold updateScores.
  destruct (table !! getTrajLen node) as [[ms mp]|] eqn:Hl.
  - assert (getTrajLen node ∈ dom table) by (apply elem_of_dom; eauto).
    case_decide; [rewrite dom_insert_L|]; set_solver.
  - by rewrite dom_insert_L.
Qed.

Lemma searchLoop_dom fuel aFuel grid keys q table graphs table' :
  searchLoop fuel aFuel grid keys q table graphs = Ok table' ->
  dom table ⊆ dom table'.
Proof.
  revert q table graphs.
  induction fuel as [|fuel IH]; intros q table graphs H; [done|].
  simpl in H. destruct q as [|node q]; [by injection H as <-|].
  inv_ok H. apply IH in H. rewrite updateScores_dom in H. set_solver.
Qed.

(** * The objects of the graph *)

Lemma dictKeys_elem l o : o ∈ dictKeys l <-> o ∈ l.
Proof.
  unfold dictKeys.
  assert (Hgen : forall acc, o ∈ foldl (fun acc o =>
            if decide (o ∈ acc) then acc else acc ++ [o]) acc l <-> o ∈ acc \/ o ∈ l).
  { induction l as [|a l IH]; intros acc; simpl.
    - set_solver.
    - rewrite IH. case_decide; set_solver. }
  rewrite Hgen. set_solver.
Qed.

Lemma convertToGraph_keys fuel grid gr :
  convertToGraph fuel grid = Ok gr ->
  exists objs, nonObstaclesOf grid = Ok objs /\ gKeys gr = dictKeys objs.
Proof.
  unfold convertToGraph. intros H. inv_ok H. subst gr. eauto.
Qed.

(** The parts of a run of [getMScores] that returned a table. *)
Lemma getMScores_Ok fuel grid defaultLimit table :
  getMScores fuel grid defaultLimit = Ok table ->
  exists objs agents root gr,
    nonObstaclesOf grid = Ok objs /\ findAll "A" grid = Ok agents /\
    head agents = Some root /\ convertToGraph fuel grid = Ok gr /\
    gKeys gr = dictKeys objs /\
    searchLoop fuel fuel grid (gKeys gr)
      [mkDLSNode None root 0 defaultLimit 0] ∅ (initialGraphs objs gr) = Ok table.
Proof.
  unfold getMScores. intros H.
  apply bind_Ok in H as (gr & Hg & H).
  apply bind_Ok in H as (objs & Ho & H).
  apply bind_Ok in H as (agents & Ha & H).
  apply bind_Ok in H as (root & Hr & H).
  apply orRaise_Ok in Hr.
  destruct (convertToGraph_keys _ _ _ Hg) as (objs' & Ho' & Hk).
  rewrite Ho in Ho'. injection Ho' as <-.
  exists objs, agents, root, gr. done.
Qed.

Lemma nonObstaclesOf_Ok grid objs :
  nonObstaclesOf grid = Ok objs ->
  exists a c s, findAll "A" grid = Ok a /\ findAll "C" grid = Ok c /\
    findAll "SD" grid = Ok s /\ objs = a ++ c ++ s.
Proof. unfold nonObstaclesOf. intros H. inv_ok H. subst. eauto 10. Qed.

(** * Grids without a time-extension device *)

Lemma findCol_no_match target x y col :
  (forall tile, tile ∈ col -> reMatchPrefix target tile = false) ->
  findCol target x y col = Ok [].
Proof.
  revert y. induction col as [|tile col IH]; intros y H; simpl; [done|].
  unfold findTile. rewrite H by left. simpl.
  rewrite IH; [done|]. intros. apply H. by right.
Qed.

Lemma findCols_no_match target x grid :
  (forall col tile, col ∈ grid -> tile ∈ col -> reMatchPrefix target tile = false) ->
  findCols target x grid = Ok [].
Proof.
  revert x. induction grid as [|col grid IH]; intros x H; simpl; [done|].
  rewrite findCol_no_match by (intros; eapply H; [left|done]). simpl.
  rewrite IH; [done|]. intros. eapply H; [by right|done].
Qed.

Lemma findAll_noSD grid : noSD grid -> findAll "SD" grid = Ok [].
Proof. apply findCols_no_match. Qed.

Lemma searchLoop_head_dom fuel aFuel grid keys node q table graphs table' :
  searchLoop fuel aFuel grid keys (node :: q) table graphs = Ok table' ->
  getTrajLen node ∈ dom table'.
Proof.
  destruct fuel as [|fuel]; [done|]. simpl. intros H.
  apply bind_Ok in H as (st & _ & H).
  apply searchLoop_dom in H. rewrite updateScores_dom in H. set_solver.
Qed.

Lemma tableFrom_empty P : tableFrom P ∅.
Proof. intros L s p H. by rewrite lookup_empty in H. Qed.

(** Without a time-extension device every node keeps the trajectory
    length of the root. *)
Lemma child_trajLen node nb w :
  identifier nb <> "SD"%string ->
  getTrajLen (childNode node nb w) = getTrajLen node.
Proof.
  intros Hid. unfold childNode, getTrajLen. simpl.
  case_decide; [done|]. lia.
Qed.

(** Without a time-extension device, a table that [getMScores] returns
    has the default episode length as its only key. *)
Lemma single_key_table fuel grid defaultLimit table :
  noSD grid ->
  getMScores fuel grid defaultLimit = Ok table ->
  dom table = {[ defaultLimit ]}.
Proof.
  intros Hsd H.
  apply getMScores_Ok in H as (objs & agents & root & gr & Ho & Ha & Hr & Hg & Hk & H).
  apply nonObstaclesOf_Ok in Ho as (a & c & s & Ha' & Hc & Hs & ->).
  rewrite findAll_noSD in Hs by done. injection Hs as <-.
  apply set_eq. intros L. rewrite elem_of_singleton. split.
  - intros HL. apply elem_of_dom in HL as [[sc p] HL].
    eapply (searchLoop_inv _ _ _ (fun n => getTrajLen n = defaultLimit)) in H.
    + destruct (H _ _ _ HL) as (n & Hn & -> & _). done.
    + intros node nb w Hn Hnb _ _. rewrite child_trajLen; [done|].
      rewrite Hk, dictKeys_elem in Hnb.
      rewrite app_nil_r in Hnb. apply elem_of_app in Hnb as [Hnb|Hnb].
      * destruct (findAll_elem _ _ _ _ Ha' Hnb) as (t & _ & -> & _). done.
      * destruct (findAll_elem _ _ _ _ Hc Hnb) as (t & _ & -> & _). done.
    + apply Forall_singleton. unfold getTrajLen. simpl. lia.
    + apply tableFrom_empty.
  - intros ->. apply searchLoop_head_dom in H.
    unfold getTrajLen in H. simpl in H. by rewrite Z.add_0_l in H.
Qed.

(** * The bound on the scores *)

Lemma coinSum_app l k : coinSum (l ++ k) = coinSum l + coinSum k.
Proof. induction l as [|o l IH]; simpl; [done|]. rewrite IH. lia. Qed.





Lemma getPath_child node nb w :
  getPath (childNode node nb w) = getPath node ++ [nb].
Proof. reflexivity. Qed.

Lemma nodeOk_child objs node nb w :
  nodeOk objs node -> nb ∈ objs -> nb ∉ getPath node ->
  nodeOk objs (childNode node nb w).
Proof.
  intros (Hnd & Hsub & Hsc) Hnb Hnin. unfold nodeOk.
  rewrite getPath_child. repeat split.
  - apply NoDup_app. repeat split; [done| |apply NoDup_singleton].
    intros o Ho Ho'. apply list_elem_of_singleton in Ho'. by subst.
  - intros o Ho. apply elem_of_app in Ho as [Ho|Ho]; [by apply Hsub|].
    apply list_elem_of_singleton in Ho. by subst.
  - rewrite coinSum_app. simpl. unfold childNode. simpl. rewrite <-Hsc.
    case_decide; lia.
Qed.


(** The nodes of a run of [getMScores] that returned a table. *)
Lemma getMScores_nodes fuel grid defaultLimit table objs :
  nonObstaclesOf grid = Ok objs ->
  getMScores fuel grid defaultLimit = Ok table ->
  tableFrom (nodeOk objs) table.
Proof.
  intros Ho' H.
  apply getMScores_Ok in H as (objs0 & agents & root & gr & Ho & Ha & Hr & Hg & Hk & H).
  rewrite Ho in Ho'. injection Ho' as ->.
  eapply (searchLoop_inv _ _ _ (nodeOk objs)) in H; [done| | |apply tableFrom_empty].
  - intros node nb w Hn Hnb Hnin _. apply nodeOk_child; [done| |done].
    by rewrite Hk, dictKeys_elem in Hnb.
  - apply Forall_singleton.
    assert (Hroot : root ∈ agents).
    { destruct agents; [done|]. injection Hr as ->. left. }
    destruct (findAll_elem _ _ _ _ Ha Hroot) as (t & _ & Hid & _).
    apply nonObstaclesOf_Ok in Ho as (a & c & s & Ha' & Hc & Hs & ->).
    rewrite Ha in Ha'. injection Ha' as <-.
    repeat split; simpl.
    + apply NoDup_singleton.
    + intros o Ho. apply list_elem_of_singleton in Ho as ->.
      apply elem_of_app. by left.
    + rewrite Hid. simpl. done.
Qed.


(** * The heap keeps its elements *)

Section heapq_perm.
Context {A : Type} (lt : A -> A -> bool).
Implicit Types heap l : list A.

Lemma delete_insert_same l (i : nat) (a : A) : delete i (<[i := a]> l) = delete i l.
Proof. revert i. induction l; intros [|i]; simpl; f_equal; auto. Qed.

Lemma insert_Permutation l (i : nat) (x : A) :
    (i < length l)%nat -> <[i := x]> l ≡ₚ x :: delete i l.
Proof.
    intros Hi.
    rewrite <-(delete_insert_same l i x).
    apply delete_Permutation, list_lookup_insert_eq, Hi.
Qed.

  (** Filling the hole at [j] with the element at [i], and moving the
      hole to [i]. *)
Lemma insert_hole l (i j : nat) (a x : A) :
    i <> j -> l !! i = Some a -> (j < length l)%nat ->
    <[i := x]> (<[j := a]> l) ≡ₚ <[j := x]> l.
Proof.
    intros Hij Hi Hj.
    assert (Hi' : (<[j := a]> l) !! i = Some a) by by rewrite list_lookup_insert_ne.
    assert (Hj' : (<[j := a]> l) !! j = Some a) by by apply list_lookup_insert_eq.
    etrans; [apply insert_Permutation; by eapply lookup_lt_Some|].
    etrans; [|symmetry; by apply insert_Permutation].
    apply Permutation_skip.
    apply (Permutation_cons_inv (a := a)).
    etrans; [symmetry; by apply delete_Permutation|].
    rewrite <-(delete_insert_same l j a).
    by apply delete_Permutation.
Qed.

Lemma siftdownLoop_perm fuel heap startpos pos x :
    (pos < length heap)%nat ->
    siftdownLoop lt fuel heap startpos pos x ≡ₚ <[pos := x]> heap.
Proof.
    revert heap pos.
    induction fuel as [|fuel IH]; intros heap pos Hpos; cbn -[Nat.div Nat.mul];
      [reflexivity|].
    case_decide as Hs; [|reflexivity].
    destruct (heap !! ((pos - 1) / 2)%nat) as [parent|] eqn:Hp; [|reflexivity].
    destruct (lt x parent); [|reflexivity].
    assert (((pos - 1) / 2)%nat <> pos).
    { intros Heq. pose proof (Nat.Div0.div_le_upper_bound (pos - 1) 2 (pos - 1)).
      lia. }
    rewrite IH by (rewrite length_insert; by eapply lookup_lt_Some).
    by apply insert_hole.
Qed.

Lemma siftdown_perm heap startpos pos : siftdown lt heap startpos pos ≡ₚ heap.
Proof.
    unfold siftdown. destruct (heap !! pos) as [x|] eqn:Hx; [|reflexivity].
    rewrite siftdownLoop_perm by (by eapply lookup_lt_Some).
    by rewrite list_insert_id.
Qed.

Lemma siftupLoop_perm fuel heap pos x heap' pos' :
    (pos < length heap)%nat ->
    siftupLoop lt fuel heap pos = (heap', pos') ->
    (pos' < length heap')%nat /\ <[pos' := x]> heap' ≡ₚ <[pos := x]> heap.
Proof.
    revert heap pos.
    induction fuel as [|fuel IH]; intros heap pos Hpos; cbn -[Nat.div Nat.mul].
    { by intros [= <- <-]. }
    case_decide as Hc; [|by intros [= <- <-]].
    set (cp := match heap !! (2 * pos + 1)%nat, heap !! (2 * pos + 1 + 1)%nat with
               | Some c, Some r => if lt c r then (2 * pos + 1)%nat else (2 * pos + 1 + 1)%nat
               | _, _ => (2 * pos + 1)%nat
               end).
    assert (Hcp : cp <> pos).
    { unfold cp. repeat case_match; lia. }
    destruct (heap !! cp) as [c|] eqn:Hc'; [|by intros [= <- <-]].
    intros Hloop. apply (IH _ _) in Hloop as [Hlen Hperm].
    - split; [done|]. rewrite Hperm. by apply insert_hole.
    - rewrite length_insert. by eapply lookup_lt_Some.
Qed.

Lemma siftup_perm heap pos : siftup lt heap pos ≡ₚ heap.
Proof.
    unfold siftup. destruct (heap !! pos) as [x|] eqn:Hx; [|reflexivity].
    destruct (siftupLoop lt (length heap) heap pos) as [heap' pos'] eqn:Hl.
    apply (siftupLoop_perm _ _ _ x) in Hl as [Hlen Hperm];
      [|by eapply lookup_lt_Some].
    rewrite siftdown_perm, Hperm. by rewrite list_insert_id.
Qed.

Lemma heappush_perm heap x : heappush lt heap x ≡ₚ x :: heap.
Proof.
    unfold heappush. rewrite siftdown_perm. by rewrite Permutation_app_comm.
Qed.

Lemma heappop_Some heap x heap' :
    heappop lt heap = Some (x, heap') -> heap ≡ₚ x :: heap'.
Proof.
    unfold heappop. destruct (reverse heap) as [|lastelt rest] eqn:Hr; [done|].
    apply (f_equal reverse) in Hr. rewrite reverse_involutive, reverse_cons in Hr.
    destruct (reverse rest) as [|returnitem tl].
    - intros [= <- <-]. by subst heap.
    - intros [= <- <-]. subst heap. rewrite siftup_perm. simpl.
      rewrite <-Permutation_middle. apply Permutation_skip.
      by rewrite Permutation_app_comm.
Qed.

Lemma heappop_None heap : heappop lt heap = None -> heap = [].
Proof.
    unfold heappop. destruct (reverse heap) as [|lastelt rest] eqn:Hr.
    - intros _. apply (f_equal reverse) in Hr. by rewrite reverse_involutive in Hr.
    - by destruct (reverse rest).
Qed.
End heapq_perm.

(** * The path search terminates *)

Lemma searchTree_mono u v : (u <= v)%nat -> (searchTree u <= searchTree v)%nat.
Proof. induction 1; simpl; lia. Qed.

Lemma max_shape_le (shape : list nat) n :
  n ∈ shape -> (n <= foldr Nat.max O shape)%nat.
Proof.
  induction shape as [|m shape IH]; intros H.
  - by apply elem_of_nil in H.
  - apply elem_of_cons in H as [->|H]; simpl; [lia|]. apply IH in H. lia.
Qed.

(** A subscript pair that the grid accepts is one of its coordinates. *)
Lemma binAt_coords (b : list (list Z)) t z :
  binAt b t = Some z -> t ∈ coordsOf (map length b).
Proof.
  unfold binAt, pyIndex. intros H.
  destruct (pyPos (length b) t.1) as [p|] eqn:Hp; [|done]. simpl in H.
  destruct (b !! p) as [col|] eqn:Hcol; [|done]. simpl in H.
  destruct (pyPos (length col) t.2) as [r|] eqn:Hr; [|done].
  apply pyPos_Some in Hp as [Hp Hp'], Hr as [Hr Hr'].
  assert (length col <= foldr Nat.max O (map length b))%nat.
  { apply max_shape_le. apply list_elem_of_fmap. exists col. split; [done|].
    by eapply list_elem_of_lookup_2. }
  unfold coordsOf. rewrite elem_of_list_to_set, length_map.
  apply list_elem_of_bind. exists t.1. split.
  - apply list_elem_of_bind. exists t.2. split.
    + destruct t. simpl. left.
    + apply elem_of_seqZ. lia.
  - apply elem_of_seqZ. lia.
Qed.

Lemma getFreeNeighbours_length tile (b : list (list Z)) :
  (length (getFreeNeighbours tile b) <= 4)%nat.
Proof. unfold getFreeNeighbours. etrans; [apply length_filter|]. done. Qed.

Lemma getFreeNeighbours_coords tile (b : list (list Z)) n :
  n ∈ getFreeNeighbours tile b -> n ∈ coordsOf (map length b).
Proof.
  unfold getFreeNeighbours. intros H. apply list_elem_of_filter in H as [H _].
  by eapply binAt_coords.
Qed.

(** The queue after the loop over the neighbours: the old queue and one
    node per neighbour that is not visited. *)
Lemma pushNeighbours_perm (h : Z * Z -> Z * Z -> Z) (end_ : Z * Z)
    (cur : AStarNode) (V : gset (Z * Z)) (pq : list AStarNode) (ns : list (Z * Z)) :
  pushNeighbours h end_ cur V pq ns ≡ₚ
  pq ++ map (fun n => mkAStarNode (Some cur) n (aG cur + 1) (h n end_))
            (filter (fun n => n ∉ V) ns).
Proof.
  unfold pushNeighbours. revert pq.
  induction ns as [|n ns IH]; intros pq; simpl.
  - by rewrite app_nil_r.
  - rewrite IH. rewrite filter_cons. case_decide as Hn.
    + by rewrite decide_False by (intros Hc; done).
    + rewrite decide_True by done. rewrite heappush_perm. simpl.
      by rewrite Permutation_middle.
Qed.

Lemma sum_list_with_bound {A} (f : A -> nat) (l : list A) (c : nat) :
  (forall x, x ∈ l -> (f x <= c)%nat) -> (sum_list_with f l <= length l * c)%nat.
Proof.
  induction l as [|a l IH]; intros H; simpl; [lia|].
  assert (f a <= c)%nat by (apply H; left).
  assert (sum_list_with f l <= length l * c)%nat by (apply IH; intros; apply H; by right).
  lia.
Qed.

Lemma sum_list_with_le {A} (f g : A -> nat) (l : list A) :
  (forall x, x ∈ l -> (f x <= g x)%nat) -> (sum_list_with f l <= sum_list_with g l)%nat.
Proof.
  induction l as [|a l IH]; intros H; simpl; [lia|].
  assert (f a <= g a)%nat by (apply H; left).
  assert (sum_list_with f l <= sum_list_with g l)%nat by (apply IH; intros; apply H; by right).
  lia.
Qed.

Section weights.
Context (U : gset (Z * Z)).

Lemma size_visit (V : gset (Z * Z)) x :
    x ∈ U ∖ V -> size (U ∖ V) = S (size (U ∖ ({[x]} ∪ V))).
Proof.
    intros Hx.
    assert (Heq : U ∖ V = {[x]} ∪ U ∖ ({[x]} ∪ V)).
    { apply set_eq. intros y. destruct (decide (y = x)); set_solver. }
    rewrite Heq at 1. rewrite size_union by set_solver.
    by rewrite size_singleton.
Qed.

Lemma size_revisit (V : gset (Z * Z)) x :
    x ∉ U ∖ V -> U ∖ ({[x]} ∪ V) = U ∖ V.
Proof. intros Hx. apply set_eq. intros y. set_solver. Qed.

  (** Visiting a coordinate does not make a node heavier. *)
Lemma aWeight_visit (V : gset (Z * Z)) x n :
    (aWeight U ({[x]} ∪ V) n <= aWeight U V n)%nat.
Proof.
    unfold aWeight. destruct (decide (x ∈ U ∖ V)) as [Hx|Hx].
    - rewrite (size_visit V x Hx).
      repeat case_decide; apply searchTree_mono; lia.
    - rewrite (size_revisit V x Hx).
      repeat case_decide; apply searchTree_mono; lia.
Qed.

  (** The node that is popped weighs more than four fresh nodes. *)
Lemma aWeight_popped (V : gset (Z * Z)) n :
    (1 + 4 * searchTree (size (U ∖ ({[aLoc n]} ∪ V))) <= aWeight U V n)%nat.
Proof.
    unfold aWeight. case_decide as Hn.
    - rewrite (size_visit V _ Hn). simpl. lia.
    - rewrite (size_revisit V _ Hn). simpl. lia.
Qed.
End weights.

Lemma aStarLoop_terminates (fuel : nat) (end_ : Z * Z) (b : list (list Z))
    (h : Z * Z -> Z * Z -> Z) (pq : list AStarNode) (V : gset (Z * Z)) :
  (sum_list_with (aWeight (coordsOf (map length b)) V) pq < fuel)%nat ->
  exists r, aStarLoop fuel end_ b h pq V = Ok r.
Proof.
  set (U := coordsOf (map length b)).
  revert pq V. induction fuel as [|fuel IH]; intros pq V Hlt; [lia|].
  simpl. destruct (heappop aLt pq) as [[cur pq']|] eqn:Hpop; [|eauto].
  case_decide as Hgoal; [eauto|].
  apply IH. apply heappop_Some in Hpop.
  rewrite Hpop in Hlt. simpl in Hlt.
  rewrite pushNeighbours_perm, sum_list_with_app.
  set (V' := {[aLoc cur]} ∪ V) in *.
  pose proof (aWeight_popped U V cur) as Hcur. fold V' in Hcur.
  assert (Hold : (sum_list_with (aWeight U V') pq' <= sum_list_with (aWeight U V) pq')%nat).
  { apply sum_list_with_le. intros. apply aWeight_visit. }
  match goal with |- (_ + sum_list_with _ ?l < _)%nat => set (children := l) end.
  assert (Hnew : (sum_list_with (aWeight U V') children <=
                  4 * searchTree (size (U ∖ V')))%nat).
  { etrans; [apply (sum_list_with_bound _ _ (searchTree (size (U ∖ V'))))|].
    - intros c Hc. unfold children in Hc.
      apply list_elem_of_fmap in Hc as (n & -> & Hn).
      apply list_elem_of_filter in Hn as [Hn1 Hn2].
      apply getFreeNeighbours_coords in Hn2.
      unfold aWeight. simpl. rewrite decide_True; [done|]. set_solver.
    - apply Nat.mul_le_mono_r. unfold children. rewrite length_map.
      etrans; [apply length_filter|]. apply getFreeNeighbours_length. }
  lia.
Qed.

(** The search returns on every binary grid, from every start, once the
    fuel exceeds the bound of the grid's shape. *)
Lemma aStarSearch_terminates (fuel : nat) (start end_ : Z * Z) (b : list (list Z))
    (h : Z * Z -> Z * Z -> Z) :
  (aStarFuel (map length b) <= fuel)%nat ->
  exists r, aStarSearch fuel start end_ b h = Ok r.
Proof.
  intros Hf. unfold aStarSearch. apply aStarLoop_terminates.
  rewrite heappush_perm. simpl. unfold aStarFuel in Hf.
  assert (aWeight (coordsOf (map length b)) ∅
            (mkAStarNode None start 0 (h start end_))
          <= searchTree (S (size (coordsOf (map length b)))))%nat; [|lia].
  unfold aWeight. rewrite difference_empty_L.
  case_decide; [|done]. apply searchTree_mono. lia.
Qed.

(** * The main search terminates *)

Lemma halts_Ok {A} (a : A) : halts (Ok a).
Proof. done. Qed.

Lemma halts_Raise {A} e : halts (@Raise A e).
Proof. done. Qed.

Lemma halts_orRaise {A} e (o : option A) : halts (orRaise e o).
Proof. apply orRaise_not_OutOfFuel. Qed.

Lemma halts_bind {A B} (m : outcome A) (k : A -> outcome B) :
  halts m -> (forall a, m = Ok a -> halts (k a)) -> halts (a ← m; k a).
Proof.
  unfold halts, mbind, outcome_bind, bind. intros Hm Hk.
  destruct m; [by apply Hk|done|done].
Qed.

Lemma halts_foldM {A S} (f : S -> A -> outcome S) (I : S -> Prop) l s :
  (forall s a, a ∈ l -> I s -> halts (f s a) /\ forall s', f s a = Ok s' -> I s') ->
  I s -> halts (foldM f s l).
Proof.
  revert s. induction l as [|a l IH]; intros s Hf Hs; simpl; [done|].
  destruct (Hf s a ltac:(left) Hs) as [Hh Hi].
  apply halts_bind; [done|]. intros s' Hs'. apply IH; [|by apply Hi].
  intros ? ? ?. apply Hf. by right.
Qed.

Create HintDb halts.
#[local] Hint Resolve halts_Ok halts_Raise halts_orRaise : halts.

Lemma halts_findTile target x y tile : halts (findTile target x y tile).
Proof.
  unfold findTile. destruct (reMatchPrefix target tile); [|done].
  apply halts_bind; [|done]. case_decide; auto with halts.
Qed.

Lemma halts_findCol target x y col : halts (findCol target x y col).
Proof.
  revert y. induction col as [|tile col IH]; intros y; simpl; [done|].
  apply halts_bind; [apply halts_findTile|]. intros ? _.
  apply halts_bind; [apply IH|done].
Qed.

Lemma halts_findAll target grid : halts (findAll target grid).
Proof.
  unfold findAll. generalize 0.
  induction grid as [|col grid IH]; intros x; simpl; [done|].
  apply halts_bind; [apply halts_findCol|]. intros ? _.
  apply halts_bind; [apply IH|done].
Qed.

Lemma halts_nonObstaclesOf grid : halts (nonObstaclesOf grid).
Proof.
  unfold nonObstaclesOf.
  repeat (apply halts_bind; [apply halts_findAll|intros ? _]). done.
Qed.

Lemma pairGrid_shape start end_ grid b :
  pairGrid start end_ grid = Ok b -> map length b = map length grid.
Proof.
  unfold pairGrid. intros H.
  apply bind_Ok in H as (b1 & H1 & H2). apply orRaise_Ok in H1, H2.
  rewrite (pySet2_shape _ _ _ _ _ H2), (pySet2_shape _ _ _ _ _ H1).
  unfold binGridOf. rewrite map_map. apply map_ext. intros. apply length_map.
Qed.

Lemma halts_getDist fuel start end_ grid :
  (aStarFuel (map length grid) <= fuel)%nat -> halts (getDist fuel start end_ grid).
Proof.
  intros Hf. unfold getDist. apply halts_bind.
  - unfold pairGrid. apply halts_bind; auto with halts.
  - intros b Hb. apply pairGrid_shape in Hb.
    destruct (aStarSearch_terminates fuel start end_ b getManhattanDist) as [r Hr].
    { by rewrite Hb. }
    rewrite Hr. done.
Qed.

Lemma halts_setEdge adj s t d : halts (setEdge adj s t d).
Proof. unfold setEdge. apply halts_bind; auto with halts. Qed.

Lemma halts_fillRows fuel grid adj l :
  (aStarFuel (map length grid) <= fuel)%nat -> halts (fillRows fuel grid adj l).
Proof.
  intros Hf. revert adj. induction l as [|source rest IH]; intros adj; simpl; [done|].
  apply halts_bind; [|intros; apply IH].
  unfold fillRow. apply (halts_foldM _ (fun _ => True)); [|done].
  intros adj' target _ _. split; [|done].
  apply halts_bind; [by apply halts_getDist|]. intros d _.
  apply halts_bind; [apply halts_setEdge|]. intros. apply halts_setEdge.
Qed.

Lemma halts_convertToGraph fuel grid :
  (aStarFuel (map length grid) <= fuel)%nat -> halts (convertToGraph fuel grid).
Proof.
  intros Hf. unfold convertToGraph.
  apply halts_bind; [apply halts_nonObstaclesOf|]. intros objs _.
  apply halts_bind; [by apply halts_fillRows|done].
Qed.

Lemma omitFromGrid_shape grid (visited : gset Object) alteredGrid :
  omitFromGrid grid visited = Ok alteredGrid ->
  map length alteredGrid = map length grid.
Proof.
  unfold omitFromGrid. intros H.
  apply (foldM_inv _ (fun g => map length g = map length grid)) in H; [done| |done].
  intros g o g' _ Hg Hset. apply orRaise_Ok in Hset.
  by rewrite (pySet2_shape _ _ _ _ _ Hset).
Qed.

Lemma halts_omitFromGrid grid (visited : gset Object) :
  halts (omitFromGrid grid visited).
Proof.
  unfold omitFromGrid. apply (halts_foldM _ (fun _ => True)); [|done].
  intros. split; auto with halts.
Qed.

Lemma halts_expandNeighbour aFuel grid node st nb :
  (aStarFuel (map length grid) <= aFuel)%nat ->
  halts (expandNeighbour aFuel grid node st nb).
Proof.
  intros Hf. unfold expandNeighbour. destruct st as [q graphs].
  apply halts_bind; [auto with halts|]. intros entry _.
  apply halts_bind.
  - destruct entry; [done|].
    apply halts_bind; [apply halts_omitFromGrid|]. intros g Hg.
    apply omitFromGrid_shape in Hg.
    apply halts_bind; [|done]. apply halts_convertToGraph. by rewrite Hg.
  - intros [gr graphs'] _. case_decide; [done|].
    apply halts_bind.
    + unfold getEdge. apply halts_bind; auto with halts.
    + intros. case_decide; done.
Qed.

Lemma visitTree_mono r s : (r <= s)%nat -> (visitTree r <= visitTree s)%nat.
Proof.
  induction 1 as [|s Hrs IH]; [done|]. etrans; [apply IH|].
  change (visitTree (S s)) with (1 + S s * visitTree s)%nat. lia.
Qed.

(** An object that is added to the path is no longer to be visited. *)
Lemma remaining_child keys node nb w :
  nb ∈ keys -> nb ∉ getPath node ->
  (remaining keys (childNode node nb w) < remaining keys node)%nat.
Proof.
  unfold remaining. rewrite getPath_child. intros Hin Hnot.
  induction keys as [|k keys IH]; [by apply elem_of_nil in Hin|].
  rewrite !filter_cons.
  assert (Hle : (length (filter (fun o => o ∉ getPath node ++ [nb]) keys) <=
                 length (filter (fun o => o ∉ getPath node) keys))%nat).
  { clear. induction keys as [|k keys IH]; [done|]. rewrite !filter_cons.
    repeat case_decide; simpl; try lia. set_solver. }
  apply elem_of_cons in Hin as [<-|Hin].
  - rewrite decide_False by set_solver. rewrite decide_True by done. simpl. lia.
  - specialize (IH Hin). repeat case_decide; simpl; try lia. set_solver.
Qed.

(** The loop over the neighbours adds children of less weight, one per
    object that the node can still visit at most. *)
Lemma expand_all_weight aFuel grid keys node ks q graphs st :
  (forall nb, nb ∈ ks -> nb ∈ keys) ->
  foldM (expandNeighbour aFuel grid node) (q, graphs) ks = Ok st ->
  (sum_list_with (dWeight keys) st.1 <=
   sum_list_with (dWeight keys) q +
   length (filter (fun o => o ∉ getPath node) ks) *
     visitTree (pred (remaining keys node)))%nat.
Proof.
  revert q graphs. induction ks as [|nb ks IH]; intros q graphs Hks H; simpl in H.
  - injection H as <-. simpl. lia.
  - apply bind_Ok in H as ([q1 g1] & Hstep & H).
    apply IH in H; [|intros; apply Hks; by right].
    rewrite filter_cons.
    apply expandNeighbour_queue in Hstep as [->|(w & -> & Hnot & _)].
    + case_decide; simpl; lia.
    + rewrite decide_True by done. rewrite sum_list_with_app in H. simpl in *.
      assert (dWeight keys (childNode node nb w) <=
              visitTree (pred (remaining keys node)))%nat; [|lia].
      apply visitTree_mono.
      pose proof (remaining_child keys node nb w (Hks nb ltac:(left)) Hnot). lia.
Qed.

Lemma searchLoop_terminates fuel aFuel grid keys q table graphs :
  (aStarFuel (map length grid) <= aFuel)%nat ->
  (sum_list_with (dWeight keys) q < fuel)%nat ->
  halts (searchLoop fuel aFuel grid keys q table graphs).
Proof.
  intros Ha. revert q table graphs.
  induction fuel as [|fuel IH]; intros q table graphs Hlt; [lia|].
  simpl. destruct q as [|node q]; [done|].
  apply halts_bind.
  - apply (halts_foldM _ (fun _ => True)); [|done].
    intros. split; [by apply halts_expandNeighbour|done].
  - intros st Hst. apply IH.
    apply (expand_all_weight _ _ keys) in Hst; [|done].
    simpl in Hlt. fold (remaining keys node) in Hst.
    unfold dWeight at 1 in Hlt.
    destruct (remaining keys node) as [|r]; simpl in *; lia.
Qed.

(** The frontier empties: with the fuel [searchFuel grid], or more,
    [getMScores] returns a table or raises an exception. *)
Lemma getMScores_halts fuel grid defaultLimit :
  (searchFuel grid <= fuel)%nat -> halts (getMScores fuel grid defaultLimit).
Proof.
  unfold searchFuel, getMScores. intros Hf.
  apply halts_bind; [apply halts_convertToGraph; lia|]. intros gr Hgr.
  apply halts_bind; [apply halts_nonObstaclesOf|]. intros objs Hobjs.
  apply halts_bind; [apply halts_findAll|]. intros agents _.
  apply halts_bind; [auto with halts|]. intros root _.
  rewrite Hobjs in Hf.
  apply convertToGraph_keys in Hgr as (objs' & Ho' & ->).
  rewrite Hobjs in Ho'. injection Ho' as <-.
  apply searchLoop_terminates; [lia|]. simpl.
  assert (dWeight (dictKeys objs) (mkDLSNode None root 0 defaultLimit 0) <=
          visitTree (length (dictKeys objs)))%nat; [|lia].
  apply visitTree_mono. apply length_filter.
Qed.

(** * More fuel does not change the result *)

Lemma below_refl {A} (m : outcome A) : below m m.
Proof. by right. Qed.

Lemma below_bind {A B} (m1 m2 : outcome A) (k1 k2 : A -> outcome B) :
  below m1 m2 -> (forall a, below (k1 a) (k2 a)) ->
  below (a ← m1; k1 a) (a ← m2; k2 a).
Proof.
  unfold below, mbind, outcome_bind, bind. intros [->| ->] Hk; [by left|].
  destruct m2; [apply Hk|by right|by right].
Qed.

Lemma below_foldM {A S} (f1 f2 : S -> A -> outcome S) l s :
  (forall s a, below (f1 s a) (f2 s a)) -> below (foldM f1 s l) (foldM f2 s l).
Proof.
  intros Hf. revert s. induction l as [|a l IH]; intros s; simpl; [apply below_refl|].
  apply below_bind; [apply Hf|apply IH].
Qed.

Lemma below_Ok {A} (m1 m2 : outcome A) a : below m1 m2 -> m1 = Ok a -> m2 = Ok a.
Proof. intros [->| ->]; done. Qed.

Lemma aStarLoop_mono (fuel fuel' : nat) (end_ : Z * Z) (b : list (list Z))
    (h : Z * Z -> Z * Z -> Z) (pq : list AStarNode) (V : gset (Z * Z)) :
  (fuel <= fuel')%nat ->
  below (aStarLoop fuel end_ b h pq V) (aStarLoop fuel' end_ b h pq V).
Proof.
  revert fuel' pq V. induction fuel as [|fuel IH]; intros fuel' pq V Hle; [by left|].
  destruct fuel' as [|fuel']; [lia|]. simpl.
  destruct (heappop aLt pq) as [[cur pq']|]; [|apply below_refl].
  case_decide; [apply below_refl|]. apply IH. lia.
Qed.

Lemma getDist_mono fuel fuel' start end_ grid :
  (fuel <= fuel')%nat ->
  below (getDist fuel start end_ grid) (getDist fuel' start end_ grid).
Proof.
  intros Hle. unfold getDist. apply below_bind; [apply below_refl|]. intros b.
  apply below_bind; [|intros; apply below_refl].
  by apply aStarLoop_mono.
Qed.

Lemma convertToGraph_mono fuel fuel' grid :
  (fuel <= fuel')%nat ->
  below (convertToGraph fuel grid) (convertToGraph fuel' grid).
Proof.
  intros Hle. unfold convertToGraph. apply below_bind; [apply below_refl|].
  intros objs. apply below_bind; [|intros; apply below_refl].
  generalize (zeroMatrix objs).
  induction objs as [|source rest IH]; intros adj; simpl; [apply below_refl|].
  apply below_bind; [|apply IH].
  unfold fillRow. apply below_foldM. intros adj' target.
  apply below_bind; [by apply getDist_mono|]. intros; apply below_refl.
Qed.

Lemma expandNeighbour_mono aFuel aFuel' grid node st nb :
  (aFuel <= aFuel')%nat ->
  below (expandNeighbour aFuel grid node st nb) (expandNeighbour aFuel' grid node st nb).
Proof.
  intros Hle. unfold expandNeighbour. destruct st as [q graphs].
  apply below_bind; [apply below_refl|]. intros entry.
  apply below_bind; [|intros; apply below_refl].
  destruct entry; [apply below_refl|].
  apply below_bind; [apply below_refl|]. intros g.
  apply below_bind; [by apply convertToGraph_mono|]. intros; apply below_refl.
Qed.

Lemma searchLoop_mono fuel fuel' aFuel aFuel' grid keys q table graphs :
  (fuel <= fuel')%nat -> (aFuel <= aFuel')%nat ->
  below (searchLoop fuel aFuel grid keys q table graphs)
        (searchLoop fuel' aFuel' grid keys q table graphs).
Proof.
  intros Hle Hale. revert fuel' q table graphs Hle.
  induction fuel as [|fuel IH]; intros fuel' q table graphs Hle; [by left|].
  destruct fuel' as [|fuel']; [lia|]. simpl.
  destruct q as [|node q]; [apply below_refl|].
  apply below_bind.
  - apply below_foldM. intros. by apply expandNeighbour_mono.
  - intros st. apply IH. lia.
Qed.

(** A run of [getMScores] that ends with some fuel ends in the same way
    with more fuel. *)
Lemma getMScores_mono fuel fuel' grid defaultLimit :
  (fuel <= fuel')%nat ->
  below (getMScores fuel grid defaultLimit) (getMScores fuel' grid defaultLimit).
Proof.
  intros Hle. unfold getMScores.
  apply below_bind; [by apply convertToGraph_mono|]. intros gr.
  apply below_bind; [apply below_refl|]. intros objs.
  apply below_bind; [apply below_refl|]. intros agents.
  apply below_bind; [apply below_refl|]. intros root.
  by apply searchLoop_mono.
Qed.

(** The result of a run does not depend on the fuel it had left. *)
Lemma fuel_irrelevant {A} (run : nat -> outcome A) n a :
  (forall fuel fuel', (fuel <= fuel')%nat -> below (run fuel) (run fuel')) ->
  run n = Ok a -> forall fuel, below (run fuel) (Ok a).
Proof.
  intros Hmono Hn fuel. destruct (Nat.le_gt_cases fuel n) as [Hle|Hgt].
  - rewrite <-Hn. by apply Hmono.
  - right. apply (below_Ok (run n)); [|done]. apply Hmono. lia.
Qed.

(** * [findAll], tile by tile *)

Lemma findTile_singleton target x y tile o :
  findTile target x y tile = Ok [o] ->
  ox o = x /\ oy o = y /\ identifier o = target /\ reMatchPrefix target tile = true.
Proof.
  intros H. apply findTile_Ok in H as [[? _]|(n & [= ->] & ?)]; done.
Qed.

Lemma findCol_tiles target x y col l :
  findCol target x y col = Ok l ->
  (forall o, o ∈ l -> exists j tile, col !! j = Some tile /\
     findTile target x (y + Z.of_nat j) tile = Ok [o]) /\
  (forall j tile, col !! j = Some tile -> exists l0,
     findTile target x (y + Z.of_nat j) tile = Ok l0 /\ forall o, o ∈ l0 -> o ∈ l).
Proof.
  revert y l. induction col as [|tile col IH]; intros y l H; simpl in H.
  - injection H as <-. split; [by intros o Ho%elem_of_nil|done].
  - apply bind_Ok in H as (l0 & H0 & H). apply bind_Ok in H as (l1 & H1 & H).
    injection H as <-. destruct (IH _ _ H1) as [IH1 IH2]. split.
    + intros o [Ho|Ho]%elem_of_app.
      * exists 0%nat, tile. split; [done|]. rewrite Z.add_0_r.
        destruct (findTile_Ok _ _ _ _ _ H0) as [[-> _]|(n & -> & _)].
        -- by apply elem_of_nil in Ho.
        -- apply list_elem_of_singleton in Ho as ->. done.
      * destruct (IH1 o Ho) as (j & t & Hj & Ht).
        exists (S j), t. split; [done|].
        by replace (y + Z.of_nat (S j)) with (y + 1 + Z.of_nat j) by lia.
    + intros [|j] t Ht; simpl in Ht.
      * injection Ht as <-. exists l0. rewrite Z.add_0_r. split; [done|].
        intros. apply elem_of_app. by left.
      * destruct (IH2 j t Ht) as (l2 & H2 & Hsub). exists l2.
        replace (y + Z.of_nat (S j)) with (y + 1 + Z.of_nat j) by lia.
        split; [done|]. intros. apply elem_of_app. right. by apply Hsub.
Qed.

Lemma findCol_exists target x y col :
  (forall j tile, col !! j = Some tile ->
     exists l0, findTile target x (y + Z.of_nat j) tile = Ok l0) ->
  exists l, findCol target x y col = Ok l.
Proof.
  revert y. induction col as [|tile col IH]; intros y H; simpl; [eauto|].
  destruct (H 0%nat tile eq_refl) as [l0 H0]. rewrite Z.add_0_r in H0.
  destruct (IH (y + 1)) as [l1 H1].
  { intros j t Ht. destruct (H (S j) t Ht) as [l2 H2]. exists l2.
    by replace (y + 1 + Z.of_nat j) with (y + Z.of_nat (S j)) by lia. }
  rewrite H0. simpl. rewrite H1. simpl. eauto.
Qed.

Lemma findCols_tiles target x grid l :
  findCols target x grid = Ok l ->
  (forall o, o ∈ l -> exists i j col tile, grid !! i = Some col /\ col !! j = Some tile /\
     findTile target (x + Z.of_nat i) (Z.of_nat j) tile = Ok [o]) /\
  (forall i j col tile, grid !! i = Some col -> col !! j = Some tile -> exists l0,
     findTile target (x + Z.of_nat i) (Z.of_nat j) tile = Ok l0 /\
     forall o, o ∈ l0 -> o ∈ l).
Proof.
  revert x l. induction grid as [|col grid IH]; intros x l H; simpl in H.
  - injection H as <-. split; [by intros o Ho%elem_of_nil|done].
  - apply bind_Ok in H as (l0 & H0 & H). apply bind_Ok in H as (l1 & H1 & H).
    injection H as <-. destruct (IH _ _ H1) as [IH1 IH2].
    destruct (findCol_tiles _ _ _ _ _ H0) as [Hc1 Hc2]. split.
    + intros o [Ho|Ho]%elem_of_app.
      * destruct (Hc1 o Ho) as (j & t & Hj & Ht).
        exists 0%nat, j, col, t. rewrite Z.add_0_r. by rewrite Z.add_0_l in Ht.
      * destruct (IH1 o Ho) as (i & j & c & t & Hi & Hj & Ht).
        exists (S i), j, c, t. repeat split; try done.
        by replace (x + Z.of_nat (S i)) with (x + 1 + Z.of_nat i) by lia.
    + intros [|i] j c t Hi Hj; simpl in Hi.
      * injection Hi as <-. destruct (Hc2 j t Hj) as (l2 & H2 & Hsub).
        exists l2. rewrite Z.add_0_r. rewrite Z.add_0_l in H2.
        split; [done|]. intros. apply elem_of_app. left. by apply Hsub.
      * destruct (IH2 i j c t Hi Hj) as (l2 & H2 & Hsub). exists l2.
        replace (x + Z.of_nat (S i)) with (x + 1 + Z.of_nat i) by lia.
        split; [done|]. intros. apply elem_of_app. right. by apply Hsub.
Qed.

Lemma findCols_exists target x grid :
  (forall i j col tile, grid !! i = Some col -> col !! j = Some tile ->
     exists l0, findTile target (x + Z.of_nat i) (Z.of_nat j) tile = Ok l0) ->
  exists l, findCols target x grid = Ok l.
Proof.
  revert x. induction grid as [|col grid IH]; intros x H; simpl; [eauto|].
  destruct (findCol_exists target x 0 col) as [l0 H0].
  { intros j t Ht. destruct (H 0%nat j col t eq_refl Ht) as [l2 H2]. exists l2.
    by rewrite Z.add_0_r in H2. }
  destruct (IH (x + 1)) as [l1 H1].
  { intros i j c t Hi Hj. destruct (H (S i) j c t Hi Hj) as [l2 H2]. exists l2.
    by replace (x + 1 + Z.of_nat i) with (x + Z.of_nat (S i)) by lia. }
  rewrite H0. simpl. rewrite H1. simpl. eauto.
Qed.

Lemma gridAt_lookup grid t tile :
  gridAt grid t = Some tile <->
  exists i j col, t = (Z.of_nat i, Z.of_nat j) /\ grid !! i = Some col /\ col !! j = Some tile.
Proof.
  unfold gridAt. split.
  - case_decide as Ht; [|done]. intros H.
    destruct (grid !! Z.to_nat t.1) as [col|] eqn:Hcol; [|done]. simpl in H.
    exists (Z.to_nat t.1), (Z.to_nat t.2), col. repeat split; try done.
    destruct t. simpl in *. f_equal; lia.
  - intros (i & j & col & -> & Hi & Hj). simpl. case_decide; [|lia].
    rewrite !Nat2Z.id, Hi. done.
Qed.

(** The objects that [findAll] returns are those of the tiles of the
    grid, and every tile of the grid is read without a [ValueError]. *)
Lemma findAll_tiles target grid l :
  findAll target grid = Ok l ->
  (forall o, o ∈ l -> exists tile, gridAt grid (loc o) = Some tile /\
     findTile target (ox o) (oy o) tile = Ok [o]) /\
  (forall t tile, gridAt grid t = Some tile -> exists l0,
     findTile target t.1 t.2 tile = Ok l0 /\ forall o, o ∈ l0 -> o ∈ l).
Proof.
  intros H. destruct (findCols_tiles _ _ _ _ H) as [H1 H2]. split.
  - intros o Ho. destruct (H1 o Ho) as (i & j & c & t & Hi & Hj & Ht).
    pose proof (findTile_singleton _ _ _ _ _ Ht) as (Hx & Hy & _).
    exists t. rewrite Hx, Hy. split; [|done].
    apply gridAt_lookup. exists i, j, c. unfold loc. rewrite Hx, Hy.
    by rewrite Z.add_0_l.
  - intros t tile (i & j & c & -> & Hi & Hj)%gridAt_lookup.
    destruct (H2 i j c tile Hi Hj) as (l0 & H0 & Hsub).
    exists l0. by rewrite Z.add_0_l in H0.
Qed.

Lemma findAll_exists target grid :
  (forall t tile, gridAt grid t = Some tile ->
     exists l0, findTile target t.1 t.2 tile = Ok l0) ->
  exists l, findAll target grid = Ok l.
Proof.
  intros H. apply findCols_exists. intros i j c t Hi Hj.
  destruct (H (Z.of_nat i, Z.of_nat j) t) as [l0 H0].
  { apply gridAt_lookup. eauto 10. }
  exists l0. by rewrite Z.add_0_l.
Qed.

(** * The grid without the visited objects *)

Lemma gridAt_pySet2 (grid grid' : list (list string)) x y v t :
  0 <= x -> 0 <= y -> pySet2 grid x y v = Some grid' ->
  gridAt grid' t = if decide (t = (x, y)) then Some v else gridAt grid t.
Proof.
  intros Hx Hy H. unfold gridAt. destruct t as [a b]. simpl.
  destruct (decide (0 <= a /\ 0 <= b)) as [[Ha Hb]|Hab].
  - pose proof (pySet2_lookup _ _ _ _ _ a b H Hx Hy Ha Hb) as Hl.
    rewrite !pyIndex_nonneg in Hl by done.
    assert (Hcol : forall (m : list (list string)),
      (col ← m !! Z.to_nat a; pyIndex col b) = (col ← m !! Z.to_nat a; col !! Z.to_nat b)).
    { intros m. destruct (m !! Z.to_nat a); simpl; [|done]. by rewrite pyIndex_nonneg. }
    rewrite !Hcol in Hl. rewrite Hl.
    repeat case_decide; try done; exfalso; naive_solver.
  - case_decide as Heq; [|done]. injection Heq as -> ->. lia.
Qed.

(** Emptying the tiles of a list of objects, one after the other. *)
Lemma omit_list_spec (grid : list (list string)) (l : list Object) :
  (forall o, o ∈ l -> is_Some (gridAt grid (loc o))) ->
  exists g', foldM (fun g o => orRaise IndexError (pySet2 g (ox o) (oy o) "."%string))
               grid l = Ok g' /\
    forall t, gridAt g' t =
      if decide (t ∈ loc <$> l) then Some "."%string else gridAt grid t.
Proof.
  revert grid. induction l as [|a l IH]; intros grid Hl; cbn [foldM].
  - exists grid. split; [done|]. intros t.
    case_decide as Hin; [by apply elem_of_nil in Hin|done].
  - destruct (Hl a ltac:(left)) as [tile Ha].
    pose proof Ha as Ha'. apply gridAt_Some in Ha' as (Hx & Hy & Hlk).
    destruct (pySet2_Some grid (ox a) (oy a) "."%string tile Hx Hy Hlk) as [g1 Hg1].
    rewrite Hg1. cbn [orRaise mbind outcome_bind bind].
    destruct (IH g1) as (g' & Hg' & Hat).
    { intros o Ho. rewrite (gridAt_pySet2 _ _ _ _ _ _ Hx Hy Hg1).
      case_decide; [done|]. apply Hl. by right. }
    exists g'. split; [done|]. intros t. rewrite Hat.
    rewrite (gridAt_pySet2 _ _ _ _ _ _ Hx Hy Hg1). fold (loc a).
    rewrite fmap_cons.
    repeat case_decide; try done; exfalso; set_solver.
Qed.

Lemma omitFromGrid_spec grid (visited : gset Object) :
  (forall o, o ∈ visited -> is_Some (gridAt grid (loc o))) ->
  exists g', omitFromGrid grid visited = Ok g' /\
    forall t, gridAt g' t =
      if decide (t ∈ locsOf visited) then Some "."%string else gridAt grid t.
Proof.
  intros Hv. destruct (omit_list_spec grid (elements visited)) as (g' & Hg' & Hat).
  { intros o Ho. apply Hv. by apply elem_of_elements. }
  exists g'. split; [done|]. intros t. rewrite Hat.
  unfold locsOf. destruct (decide (t ∈ loc <$> elements visited)) as [Hin|Hin].
  - rewrite decide_True; [done|].
    apply list_elem_of_fmap in Hin as (o & -> & Ho).
    apply elem_of_map. exists o. split; [done|]. by apply elem_of_elements.
  - rewrite decide_False; [done|]. intros (o & -> & Ho)%elem_of_map.
    apply Hin. apply list_elem_of_fmap. exists o. split; [done|].
    by apply elem_of_elements.
Qed.

(** The empty tile holds no object. *)
Lemma findTile_empty target x y l :
  reMatchPrefix target "." = false -> findTile target x y "." = Ok l -> l = [].
Proof. unfold findTile. intros ->. by intros [= <-]. Qed.

(** The objects of the grid without the visited ones: those of the
    grid whose tile has not been emptied. *)
Lemma findAll_omit (target : string) (grid g' : list (list string))
    (locs : gset (Z * Z)) (l : list Object) :
  reMatchPrefix target "." = false ->
  findAll target grid = Ok l ->
  (forall t, gridAt g' t = if decide (t ∈ locs) then Some "."%string else gridAt grid t) ->
  exists l', findAll target g' = Ok l' /\
    forall o, o ∈ l' <-> o ∈ l /\ loc o ∉ locs.
Proof.
  intros Hdot Hl Hat. destruct (findAll_tiles _ _ _ Hl) as [Hl1 Hl2].
  destruct (findAll_exists target g') as [l' Hl'].
  { intros t tile Ht. rewrite Hat in Ht. case_decide.
    - injection Ht as <-. unfold findTile. rewrite Hdot. eauto.
    - destruct (Hl2 t tile Ht) as (l0 & H0 & _). eauto. }
  exists l'. split; [done|].
  destruct (findAll_tiles _ _ _ Hl') as [Hl'1 Hl'2].
  intros o. split.
  - intros Ho. destruct (Hl'1 o Ho) as (tile & Ht & Hf).
    rewrite Hat in Ht. case_decide as Hin.
    + injection Ht as <-. by apply findTile_empty in Hf.
    + split; [|done]. destruct (Hl2 _ _ Ht) as (l0 & H0 & Hsub).
      simpl in H0. rewrite Hf in H0. injection H0 as <-. apply Hsub. left.
  - intros [Ho Hin]. destruct (Hl1 o Ho) as (tile & Ht & Hf).
    destruct (Hl'2 (loc o) tile) as (l0 & H0 & Hsub).
    { rewrite Hat. by rewrite decide_False. }
    simpl in H0. rewrite Hf in H0. injection H0 as <-. apply Hsub. left.
Qed.

Lemma nonObstaclesOf_omit (grid g' : list (list string)) (locs : gset (Z * Z))
    (objs : list Object) :
  nonObstaclesOf grid = Ok objs ->
  (forall t, gridAt g' t = if decide (t ∈ locs) then Some "."%string else gridAt grid t) ->
  exists objs', nonObstaclesOf g' = Ok objs' /\
    forall o, o ∈ objs' <-> o ∈ objs /\ loc o ∉ locs.
Proof.
  intros Ho Hat. apply nonObstaclesOf_Ok in Ho as (a & c & s & Ha & Hc & Hs & ->).
  destruct (findAll_omit "A" _ _ _ _ eq_refl Ha Hat) as (a' & Ha' & Hae).
  destruct (findAll_omit "C" _ _ _ _ eq_refl Hc Hat) as (c' & Hc' & Hce).
  destruct (findAll_omit "SD" _ _ _ _ eq_refl Hs Hat) as (s' & Hs' & Hse).
  exists (a' ++ c' ++ s'). unfold nonObstaclesOf. rewrite Ha', Hc', Hs'.
  split; [done|]. intros o. rewrite !elem_of_app, Hae, Hce, Hse. tauto.
Qed.

(** A tile holds one object at most. *)
Lemma nonObstaclesOf_tile grid objs o :
  nonObstaclesOf grid = Ok objs -> o ∈ objs ->
  exists tile, gridAt grid (loc o) = Some tile /\
    findTile (identifier o) (ox o) (oy o) tile = Ok [o] /\
    (identifier o = "A" \/ identifier o = "C" \/ identifier o = "SD")%string.
Proof.
  intros Ho Hin. apply nonObstaclesOf_Ok in Ho as (a & c & s & Ha & Hc & Hs & ->).
  rewrite !elem_of_app in Hin. destruct Hin as [Hin|[Hin|Hin]].
  - destruct (findAll_tiles _ _ _ Ha) as [H1 _].
    destruct (H1 o Hin) as (t & Ht & Hf).
    pose proof (findTile_singleton _ _ _ _ _ Hf) as (_ & _ & Hid & _).
    exists t. rewrite Hid. eauto.
  - destruct (findAll_tiles _ _ _ Hc) as [H1 _].
    destruct (H1 o Hin) as (t & Ht & Hf).
    pose proof (findTile_singleton _ _ _ _ _ Hf) as (_ & _ & Hid & _).
    exists t. rewrite Hid. eauto.
  - destruct (findAll_tiles _ _ _ Hs) as [H1 _].
    destruct (H1 o Hin) as (t & Ht & Hf).
    pose proof (findTile_singleton _ _ _ _ _ Hf) as (_ & _ & Hid & _).
    exists t. rewrite Hid. eauto 10.
Qed.

Lemma reMatchPrefix_head a target tile :
  reMatchPrefix (String a target) tile = true -> exists rest, tile = String a rest.
Proof.
  unfold reMatchPrefix. destruct tile as [|c tile]; cbn [dropPrefix]; [done|].
  destruct (Ascii.eqb_spec a c) as [->|]; [eauto|done].
Qed.

Lemma target_unique (ta tb tile : string) :
  (ta = "A" \/ ta = "C" \/ ta = "SD")%string ->
  (tb = "A" \/ tb = "C" \/ tb = "SD")%string ->
  reMatchPrefix ta tile = true -> reMatchPrefix tb tile = true -> ta = tb.
Proof.
  intros [-> | [-> | ->]] [-> | [-> | ->]]; try done;
    intros [r1 ->]%reMatchPrefix_head [r2 Heq]%reMatchPrefix_head;
    discriminate Heq.
Qed.

Lemma nonObstaclesOf_loc_inj grid objs a b :
  nonObstaclesOf grid = Ok objs -> a ∈ objs -> b ∈ objs -> loc a = loc b -> a = b.
Proof.
  intros Ho Ha Hb Hloc.
  destruct (nonObstaclesOf_tile _ _ _ Ho Ha) as (ta & Hta & Hfa & Hia).
  destruct (nonObstaclesOf_tile _ _ _ Ho Hb) as (tb & Htb & Hfb & Hib).
  rewrite Hloc, Htb in Hta. injection Hta as <-.
  pose proof (findTile_singleton _ _ _ _ _ Hfa) as (_ & _ & _ & Hma).
  pose proof (findTile_singleton _ _ _ _ _ Hfb) as (_ & _ & _ & Hmb).
  pose proof (target_unique _ _ _ Hia Hib Hma Hmb) as Hid.
  injection Hloc as Hx Hy. rewrite Hid, Hx, Hy, Hfb in Hfa. by injection Hfa.
Qed.

(** * The graph has every edge *)

Lemma foldM_Ok {A S} (f : S -> A -> outcome S) (I : S -> Prop) l s :
  (forall s a, a ∈ l -> I s -> exists s', f s a = Ok s' /\ I s') ->
  I s -> exists s', foldM f s l = Ok s' /\ I s'.
Proof.
  revert s. induction l as [|a l IH]; intros s Hf Hs; simpl; [eauto|].
  destruct (Hf s a ltac:(left) Hs) as (s1 & H1 & Hs1). rewrite H1. simpl.
  apply IH; [|done]. intros ? ? ?. apply Hf. by right.
Qed.

Lemma lookup_const_map {K} `{Countable K} {V} (l : list K) (c : V) (a : K) :
  a ∈ l ->
  (list_to_map (map (fun s => (s, c)) l) : gmap K V) !! a = Some c.
Proof.
  induction l as [|k l IH]; intros Ha; [by apply elem_of_nil in Ha|].
  simpl. destruct (decide (k = a)) as [->|Hne].
  - apply lookup_insert_eq.
  - rewrite lookup_insert_ne by done. apply IH.
    apply elem_of_cons in Ha as [->|Ha]; done.
Qed.

Lemma lookup_const_map_inv {K} `{Countable K} {V} (l : list K) (c v : V) (a : K) :
  (list_to_map (map (fun s => (s, c)) l) : gmap K V) !! a = Some v -> v = c.
Proof.
  induction l as [|k l IH]; simpl.
  - by rewrite lookup_empty.
  - destruct (decide (k = a)) as [->|Hne].
    + rewrite lookup_insert_eq. by intros [= <-].
    + by rewrite lookup_insert_ne.
Qed.

Lemma zeroMatrix_complete objs : complete objs (zeroMatrix objs).
Proof.
  intros a b Ha Hb. unfold zeroMatrix. eexists _, 0. split.
  - by apply lookup_const_map.
  - by apply lookup_const_map.
Qed.

Lemma setEdge_complete objs adj s t d :
  complete objs adj -> s ∈ objs ->
  exists adj', setEdge adj s t d = Ok adj' /\ complete objs adj'.
Proof.
  intros Hc Hs. destruct (Hc s s Hs Hs) as (row & _ & Hrow & _).
  unfold setEdge. rewrite Hrow. simpl. eexists. split; [done|].
  intros a b Ha Hb. destruct (decide (s = a)) as [->|Hne].
  - rewrite lookup_insert_eq. destruct (decide (t = b)) as [->|Hne'].
    + eexists _, d. split; [done|]. apply lookup_insert_eq.
    + destruct (Hc a b Ha Hb) as (row' & w & Hrow' & Hw).
      rewrite Hrow in Hrow'. injection Hrow' as <-.
      eexists _, w. split; [done|]. by rewrite lookup_insert_ne.
  - rewrite lookup_insert_ne by done. by apply Hc.
Qed.

Lemma getDist_Ok fuel u v grid tu tv :
  gridAt grid u = Some tu -> gridAt grid v = Some tv ->
  (aStarFuel (map length grid) <= fuel)%nat ->
  exists d, getDist fuel u v grid = Ok d.
Proof.
  intros Hu Hv Hf.
  destruct (pairGrid_spec _ _ _ _ _ Hu Hv) as (b & Hb & _ & Hshape).
  destruct (aStarSearch_terminates fuel u v b getManhattanDist) as [r Hr].
  { by rewrite Hshape. }
  unfold getDist. rewrite Hb. simpl. rewrite Hr. simpl. eauto.
Qed.

Section graph.
Context (fuel : nat) (grid : list (list string)) (objs : list Object).
Hypothesis Hobjs : nonObstaclesOf grid = Ok objs.
Hypothesis Hfuel : (aStarFuel (map length grid) <= fuel)%nat.

Lemma fillRow_complete source adj targets :
  source ∈ objs -> (forall t, t ∈ targets -> t ∈ objs) -> complete objs adj ->
  exists adj', fillRow fuel grid source adj targets = Ok adj' /\ complete objs adj'.
Proof.
  intros Hs Ht Hc. unfold fillRow.
  apply (foldM_Ok _ (complete objs)); [|done].
  intros adj0 target Htarget Hc0.
  destruct (nonObstaclesOf_elem _ _ _ Hobjs Hs) as (ts & Hts & _).
  destruct (nonObstaclesOf_elem _ _ _ Hobjs (Ht _ Htarget)) as (tt & Htt & _).
  destruct (getDist_Ok fuel _ _ _ _ _ Hts Htt Hfuel) as [d Hd].
  rewrite Hd. simpl.
  destruct (setEdge_complete objs adj0 source target d Hc0 Hs) as (adj1 & H1 & Hc1).
  rewrite H1. simpl.
  apply setEdge_complete; [done|]. by apply Ht.
Qed.

Lemma fillRows_complete adj l :
  (forall o, o ∈ l -> o ∈ objs) -> complete objs adj ->
  exists adj', fillRows fuel grid adj l = Ok adj' /\ complete objs adj'.
Proof.
  revert adj. induction l as [|source rest IH]; intros adj Hl Hc; simpl; [eauto|].
  destruct (fillRow_complete source adj rest) as (adj1 & H1 & Hc1); try done.
  { apply Hl. left. }
  { intros. apply Hl. by right. }
  rewrite H1. simpl. apply IH; [|done]. intros. apply Hl. by right.
Qed.

(** With enough fuel [convertToGraph] returns a graph over the objects
    of the grid, with an edge for every pair of them. *)
Lemma convertToGraph_complete :
  exists gr, convertToGraph fuel grid = Ok gr /\ gKeys gr = dictKeys objs /\
    complete objs (gAdj gr).
Proof.
  unfold convertToGraph. rewrite Hobjs. simpl.
  destruct (fillRows_complete (zeroMatrix objs) objs) as (adj & Hadj & Hc);
    [done|apply zeroMatrix_complete|].
  rewrite Hadj. simpl. eauto.
Qed.
End graph.

Lemma getEdge_complete objs gr a b :
  complete objs (gAdj gr) -> a ∈ objs -> b ∈ objs -> exists w, getEdge gr a b = Ok w.
Proof.
  intros Hc Ha Hb. destruct (Hc a b Ha Hb) as (row & w & Hrow & Hw).
  unfold getEdge. rewrite Hrow. simpl. rewrite Hw. simpl. eauto.
Qed.

(** * The cache has every set of objects *)

Lemma combinations_sublist {A} (s l : list A) :
  s `sublist_of` l -> s ∈ combinations l (length s).
Proof.
  revert s. induction l as [|x l IH]; intros s Hs.
  - apply sublist_nil_r in Hs as ->. simpl. left.
  - destruct s as [|y s]; [destruct l; left|].
    apply sublist_cons_r in Hs as [Hs|(s' & [= -> ->] & Hs)]; simpl.
    + apply elem_of_app. right. by apply (IH (y :: s)).
    + apply elem_of_app. left. apply (list_elem_of_fmap_2 (cons x)). by apply IH.
Qed.

Lemma objectPowerset_elem objs (V : gset Object) :
  V ⊆ list_to_set objs -> V ∈ objectPowerset objs.
Proof.
  intros HV. set (s := filter (fun o => o ∈ V) objs).
  assert (Hs : s `sublist_of` objs) by apply sublist_filter.
  assert (HVs : V = list_to_set s).
  { apply set_eq. intros o. unfold s.
    rewrite elem_of_list_to_set, list_elem_of_filter. split; [|tauto].
    intros Ho. split; [done|]. apply HV in Ho.
    by apply elem_of_list_to_set in Ho. }
  unfold objectPowerset. apply list_elem_of_In, in_concat.
  exists (map list_to_set (combinations objs (length s))). split.
  - apply in_map_iff. exists (length s). split; [done|].
    apply in_seq. apply sublist_length in Hs. lia.
  - apply list_elem_of_In. rewrite HVs.
    apply (list_elem_of_fmap_2 list_to_set). by apply combinations_sublist.
Qed.

Lemma initialGraphs_lookup objs gr (V : gset Object) :
  V ⊆ list_to_set objs -> is_Some (initialGraphs objs gr !! V).
Proof.
  intros HV. unfold initialGraphs.
  destruct (decide (V = ∅)) as [->|Hne].
  - rewrite lookup_insert_eq. eauto.
  - rewrite lookup_insert_ne by done.
    rewrite lookup_const_map; [eauto|]. by apply objectPowerset_elem.
Qed.

(** * The search raises no exception *)

(** The path of a node: the visited objects, then the current one. *)
Lemma getPath_visited node :
  exists l, getPath node = l ++ [dObj node] /\ getVisited node = list_to_set l.
Proof.
  destruct node as [[p|] o c b s]; unfold getVisited; simpl.
  - by exists (getPath p).
  - exists []. done.
Qed.

Lemma nodeOk_visited objs node :
  nodeOk objs node ->
  dObj node ∈ objs /\ (dObj node ∉ getVisited node) /\
  getVisited node ⊆ list_to_set objs /\
  forall nb, nb ∉ getPath node -> nb ∉ getVisited node.
Proof.
  intros (Hnd & Hsub & _). destruct (getPath_visited node) as (l & Hp & Hv).
  rewrite Hp in Hnd, Hsub. rewrite Hp, Hv.
  apply NoDup_app in Hnd as (_ & Hdis & _). repeat split.
  - apply Hsub. set_solver.
  - rewrite elem_of_list_to_set. intros Hin. apply (Hdis _ Hin). left.
  - intros o Ho%elem_of_list_to_set. apply elem_of_list_to_set, Hsub. set_solver.
  - intros nb Hnb. rewrite elem_of_list_to_set. set_solver.
Qed.

Section search.
Context (aFuel : nat) (grid : list (list string)) (objs : list Object).
Hypothesis Hobjs : nonObstaclesOf grid = Ok objs.
Hypothesis Hfuel : (aStarFuel (map length grid) <= aFuel)%nat.

(** The graph of a set of visited objects is built without an
    exception, and it has the edges of the objects that are left. *)
Lemma alteredGraph_Ok (V : gset Object) :
  V ⊆ list_to_set objs ->
  exists g' gr, omitFromGrid grid V = Ok g' /\ convertToGraph aFuel g' = Ok gr /\
    forall a b, a ∈ objs -> b ∈ objs -> a ∉ V -> b ∉ V ->
      exists w, getEdge gr a b = Ok w.
Proof.
  intros HV.
  destruct (omitFromGrid_spec grid V) as (g' & Hg' & Hat).
  { intros o Ho%HV%elem_of_list_to_set.
    destruct (nonObstaclesOf_elem _ _ _ Hobjs Ho) as (t & -> & _). eauto. }
  destruct (nonObstaclesOf_omit _ _ _ _ Hobjs Hat) as (objs' & Hobjs' & Helem).
  destruct (convertToGraph_complete aFuel g' objs' Hobjs') as (gr & Hgr & _ & Hc).
  { by rewrite (omitFromGrid_shape _ _ _ Hg'). }
  exists g', gr. repeat split; try done.
  assert (Hin : forall a, a ∈ objs -> a ∉ V -> a ∈ objs').
  { intros a Ha HaV. apply Helem. split; [done|].
    intros (v & Hloc & Hv)%elem_of_map. apply HaV.
    pose proof Hv as Hv'. apply HV, elem_of_list_to_set in Hv'.
    by rewrite (nonObstaclesOf_loc_inj _ _ _ _ Hobjs Ha Hv' Hloc). }
  intros a b Ha Hb HaV HbV. apply (getEdge_complete objs'); auto.
Qed.

Lemma expandNeighbour_Ok node q graphs nb :
  cacheOk objs graphs -> nodeOk objs node -> nb ∈ objs ->
  exists st, expandNeighbour aFuel grid node (q, graphs) nb = Ok st /\
    cacheOk objs st.2.
Proof.
  intros [Hdom Hedges] Hnode Hnb.
  destruct (nodeOk_visited _ _ Hnode) as (Hcur & HcurV & HVsub & HnbV).
  unfold expandNeighbour.
  destruct (Hdom _ HVsub) as [entry Hentry]. rewrite Hentry. simpl.
  assert (Hcont : forall gr graphs',
    cacheOk objs graphs' ->
    (forall a b, a ∈ objs -> b ∈ objs -> a ∉ getVisited node -> b ∉ getVisited node ->
       exists w, getEdge gr a b = Ok w) ->
    exists st,
      (if decide (nb ∈ getPath node) then Ok (q, graphs')
       else w ← getEdge gr (dObj node) nb;
            if decide (w > dBudget node) then Ok (q, graphs')
            else Ok (q ++ [childNode node nb w], graphs')) = Ok st /\
      cacheOk objs st.2).
  { intros gr graphs' Hc' He. case_decide as Hin; [eauto|].
    destruct (He (dObj node) nb Hcur Hnb HcurV (HnbV _ Hin)) as [w Hw].
    rewrite Hw. simpl. case_decide; eauto. }
  destruct entry as [gr|].
  - simpl. apply Hcont; [done|]. by apply Hedges.
  - destruct (alteredGraph_Ok _ HVsub) as (g' & gr & Hg' & Hgr & He).
    rewrite Hg'. simpl. rewrite Hgr. simpl. apply Hcont; [|done]. split.
    + intros V HV. destruct (decide (getVisited node = V)) as [<-|Hne].
      * rewrite lookup_insert_eq. eauto.
      * rewrite lookup_insert_ne by done. by apply Hdom.
    + intros V gr0. destruct (decide (getVisited node = V)) as [<-|Hne].
      * rewrite lookup_insert_eq. intros [= <-]. done.
      * rewrite lookup_insert_ne by done. apply Hedges.
Qed.

Lemma expand_all_Ok keys node q graphs :
  (forall k, k ∈ keys -> k ∈ objs) ->
  cacheOk objs graphs -> nodeOk objs node -> Forall (nodeOk objs) q ->
  exists st, foldM (expandNeighbour aFuel grid node) (q, graphs) keys = Ok st /\
    Forall (nodeOk objs) st.1 /\ cacheOk objs st.2.
Proof.
  intros Hkeys Hc Hnode Hq.
  apply (foldM_Ok _ (fun st => Forall (nodeOk objs) st.1 /\ cacheOk objs st.2));
    [|done].
  intros [q1 g1] nb Hnb [Hq1 Hc1]. simpl in *.
  destruct (expandNeighbour_Ok node q1 g1 nb Hc1 Hnode (Hkeys _ Hnb))
    as ([q2 g2] & Hst & Hc2).
  exists (q2, g2). split; [done|]. split; [|done]. simpl.
  apply expandNeighbour_queue in Hst as [->|(w & -> & Hnot & _)]; [done|].
  apply Forall_app. split; [done|]. apply Forall_singleton.
  apply nodeOk_child; auto.
Qed.

Lemma searchLoop_returns fuel keys q table graphs :
  (forall k, k ∈ keys -> k ∈ objs) ->
  (sum_list_with (dWeight keys) q < fuel)%nat ->
  Forall (nodeOk objs) q -> cacheOk objs graphs ->
  exists table', searchLoop fuel aFuel grid keys q table graphs = Ok table'.
Proof.
  intros Hkeys. revert q table graphs.
  induction fuel as [|fuel IH]; intros q table graphs Hlt Hq Hc; [lia|].
  simpl. destruct q as [|node q]; [eauto|].
  apply Forall_cons in Hq as [Hnode Hq].
  destruct (expand_all_Ok keys node q graphs Hkeys Hc Hnode Hq)
    as (st & Hst & Hq' & Hc').
  rewrite Hst. simpl. apply IH; [|done|done].
  apply (expand_all_weight _ _ keys) in Hst; [|done].
  simpl in Hlt. fold (remaining keys node) in Hst.
  unfold dWeight at 1 in Hlt.
  destruct (remaining keys node) as [|r]; simpl in *; lia.
Qed.
End search.

(** On a grid whose tiles are read without an error and which has an
    Agent, [getMScores] returns a table once the fuel reaches
    [searchFuel grid]. *)
Lemma getMScores_returns fuel grid defaultLimit objs root agents :
  nonObstaclesOf grid = Ok objs ->
  findAll "A" grid = Ok (root :: agents) ->
  (searchFuel grid <= fuel)%nat ->
  exists table, getMScores fuel grid defaultLimit = Ok table.
Proof.
  intros Hobjs Hagents Hf. unfold searchFuel in Hf. rewrite Hobjs in Hf.
  destruct (convertToGraph_complete fuel grid objs Hobjs) as (gr & Hgr & Hk & Hc);
    [lia|].
  unfold getMScores. rewrite Hgr. simpl. rewrite Hobjs. simpl.
  rewrite Hagents. simpl. rewrite Hk.
  assert (Hroot : root ∈ objs).
  { apply nonObstaclesOf_Ok in Hobjs as (a & c & s & Ha & _ & _ & ->).
    rewrite Hagents in Ha. injection Ha as <-. set_solver. }
  apply (searchLoop_returns fuel grid objs Hobjs); [lia| | | |].
  - intros k. by rewrite dictKeys_elem.
  - simpl.
    assert (dWeight (dictKeys objs) (mkDLSNode None root 0 defaultLimit 0) <=
            visitTree (length (dictKeys objs)))%nat; [|lia].
    apply visitTree_mono. apply length_filter.
  - apply Forall_singleton. repeat split; simpl.
    + apply NoDup_singleton.
    + intros o ->%list_elem_of_singleton. done.
    + destruct (findAll_elem "A" grid (root :: agents) root Hagents ltac:(left))
        as (t & _ & -> & _). done.
  - split.
    + intros V HV. by apply initialGraphs_lookup.
    + intros V gr0 Hl a b Ha Hb HaV HbV. unfold initialGraphs in Hl.
      destruct (decide (V = ∅)) as [->|Hne].
      * rewrite lookup_insert_eq in Hl. injection Hl as <-.
        by apply (getEdge_complete objs).
      * rewrite lookup_insert_ne in Hl by done.
        by apply lookup_const_map_inv in Hl.
Qed.

(** * Well-formed grids are read without an error *)

Lemma isDigit_not_space c : isDigit c = true -> isSpace c = false.
Proof. destruct c as [[] [] [] [] [] [] [] []]; vm_compute; congruence. Qed.

Lemma isDigit_not_sign c :
  isDigit c = true -> c <> "+"%char /\ c <> "-"%char /\ c <> "_"%char.
Proof. destruct c as [[] [] [] [] [] [] [] []]; vm_compute; intros; done. Qed.

Lemma lstrip_digits d : allDigits d = true -> lstrip d = d.
Proof.
  destruct d as [|c d]; [done|]. simpl. intros [Hc _]%andb_prop.
  by rewrite (isDigit_not_space c Hc).
Qed.

Lemma rstrip_digits d : allDigits d = true -> rstrip d = d.
Proof.
  induction d as [|c d IH]; [done|]. simpl. intros [Hc Hd]%andb_prop.
  rewrite (IH Hd). destruct d; [|done]. by rewrite (isDigit_not_space c Hc).
Qed.

Lemma parseDigits_digits d acc after :
  allDigits d = true -> d <> EmptyString \/ after = true ->
  is_Some (parseDigits acc after d).
Proof.
  revert acc after. induction d as [|c d IH]; intros acc after Hd Hne; simpl.
  - destruct Hne as [?| ->]; [done|eauto].
  - simpl in Hd. apply andb_prop in Hd as [Hc Hd]. rewrite Hc. apply IH; auto.
Qed.

Lemma numeral_digits d : numeral d = true -> allDigits d = true.
Proof. destruct d; [done|]. by intros [? _]%andb_prop. Qed.

(** [int] reads a numeral. *)
Lemma pyInt_numeral d : numeral d = true -> is_Some (pyInt d).
Proof.
  intros Hn. assert (Hd : allDigits d = true)
    by (destruct d; [done|by apply andb_prop in Hn as [? _]]).
  unfold pyInt. rewrite (lstrip_digits d Hd), (rstrip_digits d Hd).
  destruct d as [|c d]; [done|].
  simpl in Hd. apply andb_prop in Hd as [Hc Hd'].
  destruct (isDigit_not_sign c Hc) as (Hp & Hm & _).
  assert (Hgo : is_Some (parseDigits 0 false (String c d))).
  { apply parseDigits_digits; [simpl; by rewrite Hc, Hd'|by left]. }
  destruct c as [[] [] [] [] [] [] [] []]; try done.
Qed.

(** [re.sub] leaves a numeral as it is when the target starts with a
    character that is not a digit. *)
Lemma reSubLoop_digits fuel a target d :
  isDigit a = false -> allDigits d = true -> reSubLoop fuel (String a target) d = d.
Proof.
  intros Ha. revert d. induction fuel as [|fuel IH]; intros d Hd; [done|].
  destruct d as [|c d]; [done|]. cbn [reSubLoop dropPrefix].
  simpl in Hd. apply andb_prop in Hd as [Hc Hd].
  destruct (Ascii.eqb_spec a c) as [->|_]; [congruence|].
  by rewrite IH.
Qed.

(** Every token of the format is read by [findAll], for every target. *)
Lemma findTile_wellFormed target x y tile :
  (target = "A" \/ target = "C" \/ target = "SD")%string ->
  wellFormedTile tile = true ->
  exists l, findTile target x y tile = Ok l.
Proof.
  intros Ht Hw. unfold findTile.
  destruct (reMatchPrefix target tile) eqn:Hm; [|eauto].
  assert (Hval : reSub target tile = EmptyString \/ numeral (reSub target tile) = true).
  { destruct Ht as [-> | [-> | ->]].
    - apply reMatchPrefix_head in Hm as [rest ->].
      destruct rest; [by left|done].
    - apply reMatchPrefix_head in Hm as [rest ->]. right.
      change (reSub "C" (String "C" rest))
        with (reSubLoop (String.length rest) "C" rest).
      simpl in Hw.
      rewrite (reSubLoop_digits _ "C"%char EmptyString rest);
        [done|done|apply (numeral_digits _ Hw)].
    - apply reMatchPrefix_head in Hm as [rest ->].
      destruct rest as [|c rest]; [done|].
      destruct (Ascii.eqb_spec c "D") as [->|Hne].
      + right.
        change (reSub "SD" (String "S" (String "D" rest)))
          with (reSubLoop (S (String.length rest)) "SD" rest).
        simpl in Hw.
        rewrite (reSubLoop_digits _ "S"%char (String "D" EmptyString) rest);
          [done|done|apply (numeral_digits _ Hw)].
      + exfalso. simpl in Hw.
        destruct c as [[] [] [] [] [] [] [] []]; try done. }
  destruct Hval as [-> | Hn].
  - rewrite decide_True by done. simpl. eauto.
  - case_decide; simpl; [eauto|].
    destruct (pyInt_numeral _ Hn) as [n ->]. simpl. eauto.
Qed.

Lemma gridAt_elem grid t tile :
  gridAt grid t = Some tile -> exists col, col ∈ grid /\ tile ∈ col.
Proof.
  intros (i & j & col & _ & Hi & Hj)%gridAt_lookup.
  exists col. split; by eapply list_elem_of_lookup_2.
Qed.

Lemma elem_gridAt (grid : list (list string)) col tile :
  col ∈ grid -> tile ∈ col -> exists t, gridAt grid t = Some tile.
Proof.
  intros [i Hi]%list_elem_of_lookup [j Hj]%list_elem_of_lookup.
  exists (Z.of_nat i, Z.of_nat j). apply gridAt_lookup. eauto 10.
Qed.

Lemma wellFormed_findAll grid target :
  (target = "A" \/ target = "C" \/ target = "SD")%string ->
  (forall col tile, col ∈ grid -> tile ∈ col -> wellFormedTile tile = true) ->
  exists l, findAll target grid = Ok l.
Proof.
  intros Ht Hw. apply findAll_exists. intros t tile Hat.
  apply findTile_wellFormed; [done|].
  destruct (gridAt_elem _ _ _ Hat) as (col & ? & ?). eauto.
Qed.

(** The tiles of a well-formed grid are read without an error, and the
    Agent is found. *)
Lemma wellFormedGrid_objects grid :
  wellFormedGrid grid ->
  exists objs root agents,
    nonObstaclesOf grid = Ok objs /\ findAll "A" grid = Ok (root :: agents).
Proof.
  intros (_ & Hw & Hone).
  destruct (wellFormed_findAll grid "A") as [a Ha]; auto.
  destruct (wellFormed_findAll grid "C") as [c Hc]; auto.
  destruct (wellFormed_findAll grid "SD") as [s Hs]; auto.
  unfold nonObstaclesOf. rewrite Ha, Hc, Hs. simpl.
  destruct a as [|root agents]; [|eauto 10]. exfalso.
  destruct (filter (fun tile => tile = "A"%string) (concat grid)) as [|tile rest] eqn:Hf;
    [done|].
  assert (Hin : tile ∈ filter (fun tile => tile = "A"%string) (concat grid))
    by (rewrite Hf; left).
  apply list_elem_of_filter in Hin as [-> Hin].
  apply list_elem_of_In, in_concat in Hin as (col & Hcol & Hin).
  apply list_elem_of_In in Hcol, Hin.
  destruct (elem_gridAt _ _ _ Hcol Hin) as [t Hat].
  destruct (findAll_tiles _ _ _ Ha) as [_ H2].
  destruct (H2 t _ Hat) as (l0 & Hl0 & Hsub).
  vm_compute in Hl0. injection Hl0 as <-.
  specialize (Hsub _ ltac:(left)). by apply elem_of_nil in Hsub.
Qed.

(** * The path search leaves the grid *)

Lemma aStarSearch_mono fuel fuel' start end_ b h :
  (fuel <= fuel')%nat ->
  below (aStarSearch fuel start end_ b h) (aStarSearch fuel' start end_ b h).
Proof. apply aStarLoop_mono. Qed.

(** C1 fails on the code.  In [detourGrid] the shortest route from
    [(0, 0)] to [(0, 2)] has six steps, and [aStarSearch] with the
    Manhattan heuristic returns the distance four, with a path through
    the tiles [(-1, 0)], [(-1, 1)], [(-1, 2)], which are not tiles of the
    3x3 grid: the subscript [-1] reads its last column.  [getDist] gets
    this distance for the Agent and the coin of [detourWorld]. *)
Theorem aStarSearch_detour_wraps_around :
  shortest detourGrid (0, 0) (0, 2) 6 /\
  pairGrid (0, 0) (0, 2) detourWorld = Ok detourGrid /\
  getDist 100 (0, 0) (0, 2) detourWorld = Ok 4 /\
  aStarSearch 100 (0, 0) (0, 2) detourGrid getManhattanDist =
    Ok (4, [(0, 0); (-1, 0); (-1, 1); (-1, 2); (0, 2)]) /\
  forall fuel,
    below (aStarSearch fuel (0, 0) (0, 2) detourGrid getManhattanDist)
          (Ok (4, [(0, 0); (-1, 0); (-1, 1); (-1, 2); (0, 2)])).
Proof.
  split; [apply detour_shortest|].
  split; [reflexivity|]. split; [vm_compute; reflexivity|].
  assert (H : aStarSearch 100 (0, 0) (0, 2) detourGrid getManhattanDist =
              Ok (4, [(0, 0); (-1, 0); (-1, 1); (-1, 2); (0, 2)]))
    by (vm_compute; reflexivity).
  split; [done|]. intros fuel.
  apply (fuel_irrelevant
           (fun fuel => aStarSearch fuel (0, 0) (0, 2) detourGrid getManhattanDist)
           100%nat); [|done].
  intros. by apply aStarSearch_mono.
Qed.

(** C8 fails on the code.  No route joins [(0, 0)] and [(0, 2)] in
    [sealedGrid], and [aStarSearch] returns the distance four with a
    path, not the sentinel with the empty path: the search leaves the
    grid through the subscript [-1], so that [getMScores] collects the
    enclosed coin of [sealedWorld].  This is the defect of C1. *)
Theorem aStarSearch_sealed_returns_path :
  (forall n, ~ route sealedGrid (0, 0) (0, 2) n) /\
  pairGrid (0, 0) (0, 2) sealedWorld = Ok sealedGrid /\
  getMScores 100 sealedWorld 4 =
    Ok {[ 4 := (1, [mkObject "A" 0 0 0; mkObject "C" 0 2 1]) ]} /\
  aStarSearch 100 (0, 0) (0, 2) sealedGrid getManhattanDist =
    Ok (4, [(0, 0); (-1, 0); (-1, 1); (-1, 2); (0, 2)]) /\
  forall fuel,
    aStarSearch fuel (0, 0) (0, 2) sealedGrid getManhattanDist <> Ok (MAXDIST, []).
Proof.
  assert (H : aStarSearch 100 (0, 0) (0, 2) sealedGrid getManhattanDist =
              Ok (4, [(0, 0); (-1, 0); (-1, 1); (-1, 2); (0, 2)]))
    by (vm_compute; reflexivity).
  split; [intros n Hr; by apply sealed_stays in Hr|].
  split; [reflexivity|]. split; [vm_compute; reflexivity|]. split; [done|].
  intros fuel Hf.
  destruct (fuel_irrelevant
    (fun fuel => aStarSearch fuel (0, 0) (0, 2) sealedGrid getManhattanDist)
    100%nat _ (fun _ _ Hle => aStarSearch_mono _ _ _ _ _ _ Hle) H fuel) as [Ho|Ho];
    rewrite Hf in Ho; discriminate Ho.
Qed.

(** * The table of [getMScores] *)

(** C4, as amended.  The file of scenario A parses to the grid
    [scenarioA] with the default length 2, and on it [getMScores]
    returns the table with the single entry [2: (5, [Agent, Coin5])]:
    the root node has the trajectory length 0 + 2, so there is no entry
    at 0. *)
Theorem getMScores_scenarioA :
  parseEnv ("2" +:+ String "010" "A . C5" +:+ String "010" "") = Ok (2, scenarioA) /\
  getMScores 100 scenarioA 2 = Ok {[ 2 := (5, [agentA; coin5]) ]} /\
  forall fuel,
    below (getMScores fuel scenarioA 2) (Ok {[ 2 := (5, [agentA; coin5]) ]}).
Proof.
  assert (H : getMScores 100 scenarioA 2 = Ok {[ 2 := (5, [agentA; coin5]) ]})
    by (vm_compute; reflexivity).
  split; [vm_compute; reflexivity|]. split; [done|]. intros fuel.
  apply (fuel_irrelevant (fun fuel => getMScores fuel scenarioA 2) 100%nat); [|done].
  intros. by apply getMScores_mono.
Qed.

(** C4 as stated fails: whatever the fuel, the table of scenario A is
    not the one of the specification; it has no entry at 0. *)
Lemma getMScores_scenarioA_no_zero :
  ~ exists fuel table,
      getMScores fuel scenarioA 2 = Ok table /\ scenarioA_claimed table.
Proof.
  intros (fuel & table & Ht & _ & H0).
  assert (H : getMScores 100 scenarioA 2 = Ok {[ 2 := (5, [agentA; coin5]) ]})
    by (vm_compute; reflexivity).
  destruct (fuel_irrelevant (fun fuel => getMScores fuel scenarioA 2) 100%nat _
              (fun _ _ Hle => getMScores_mono _ _ _ _ Hle) H fuel) as [Ho|Ho];
    rewrite Ht in Ho; [discriminate Ho|].
  injection Ho as ->. clear H Ht. vm_compute in H0. discriminate H0.
Qed.


(** C7.  The loop takes the node at the head of the queue and goes on
    with a table that differs from the old one at the node's trajectory
    length [L] at most: without an entry at [L] the node's score and path
    are inserted; with an entry, they replace it when the node's score is
    greater than the stored one, and the table is left as it is when the
    score is equal or less. *)
Theorem searchLoop_updates_table fuel aFuel grid keys node q
    (table : gmap Z (Z * list Object)) graphs :
  exists table',
    searchLoop (S fuel) aFuel grid keys (node :: q) table graphs =
      (st ← foldM (expandNeighbour aFuel grid node) (q, graphs) keys;
       searchLoop fuel aFuel grid keys st.1 table' st.2) /\
    (table !! getTrajLen node = None ->
       table' = <[getTrajLen node := (dScore node, getPath node)]> table) /\
    (forall s p, table !! getTrajLen node = Some (s, p) ->
       (dScore node > s ->
          table' = <[getTrajLen node := (dScore node, getPath node)]> table) /\
       (dScore node <= s -> table' = table)).
Proof.
  exists (updateScores node table). split; [reflexivity|].
  unfold updateScores. split.
  - intros ->. reflexivity.
  - intros s p ->. case_decide; split; intros; (reflexivity || lia).
Qed.


(** X23.  For every grid that holds no time-extension device and
    every limit below [MAXDIST], the table that [getMScores] returns
    has exactly one key, and this key is the default episode length
    [defaultLimit]; and the run ends once the fuel reaches
    [searchFuel grid].  With such a limit no budget reaches the weight
    of a sentinel edge, so the float [10e9] of the source enters no
    sum. *)
Theorem getMScores_single_key grid defaultLimit :
  noSD grid -> defaultLimit < MAXDIST ->
  (forall fuel table,
     getMScores fuel grid defaultLimit = Ok table -> dom table = {[ defaultLimit ]}) /\
  (forall fuel, (searchFuel grid <= fuel)%nat -> halts (getMScores fuel grid defaultLimit)).
Proof.
  intros Hsd _. split.
  - intros fuel table. by apply single_key_table.
  - intros fuel. apply getMScores_halts.
Qed.

Lemma scenarioA_noSD : noSD scenarioA.
Proof.
  intros col tile Hcol Htile. unfold scenarioA in Hcol.
  rewrite !elem_of_cons in Hcol. split_elems; subst col;
    apply list_elem_of_singleton in Htile; subst tile; reflexivity.
Defined.

Lemma getMScores_single_key_witness :
  dom ({[ 2 := (5, [agentA; coin5]) ]} : gmap Z (Z * list Object)) = {[ 2 ]}.
Proof.
  apply (proj1 (getMScores_single_key scenarioA 2 scenarioA_noSD eq_refl) 100%nat).
  vm_compute. reflexivity.
Defined.




(** X24.  For every well-formed grid and every positive default
    limit that stays below [MAXDIST] with the time of all the devices,
    [getMScores] terminates: once the fuel reaches
    [searchFuel grid], which counts one iteration per path without
    repetition over the objects of the grid, the queue has emptied and
    the table is returned; no object comes twice on the path of an
    entry. *)
Theorem getMScores_terminates grid defaultLimit fuel :
  wellFormedGrid grid -> 0 < defaultLimit -> belowSentinel grid defaultLimit ->
  (searchFuel grid <= fuel)%nat ->
  exists table, getMScores fuel grid defaultLimit = Ok table /\
    forall L s p, table !! L = Some (s, p) -> NoDup p.
Proof.
  intros Hwf _ _ Hf.
  destruct (wellFormedGrid_objects grid Hwf) as (objs & root & agents & Hobjs & Ha).
  destruct (getMScores_returns fuel grid defaultLimit objs root agents Hobjs Ha Hf)
    as [table Ht].
  exists table. split; [done|]. intros L s p HL.
  destruct (getMScores_nodes _ _ _ _ _ Hobjs Ht _ _ _ HL) as (n & (Hnd & _) & _ & _ & ->).
  done.
Qed.

Lemma scenarioA_wellFormed : wellFormedGrid scenarioA.
Proof.
  repeat split.
  - intros r Hr. unfold scenarioA in Hr. rewrite !elem_of_cons in Hr.
    split_elems; subst r; reflexivity.
  - intros col tile Hcol Htile. unfold scenarioA in Hcol.
    rewrite !elem_of_cons in Hcol. split_elems; subst col;
      apply list_elem_of_singleton in Htile; subst tile; reflexivity.
Defined.

Lemma scenarioA_belowSentinel : belowSentinel scenarioA 2.
Proof. intros objs [= <-]. reflexivity. Defined.

Lemma getMScores_terminates_witness :
  exists table, getMScores (searchFuel scenarioA) scenarioA 2 = Ok table /\
    forall L s p, table !! L = Some (s, p) -> NoDup p.
Proof.
  apply (getMScores_terminates scenarioA 2 (searchFuel scenarioA)).
  - exact scenarioA_wellFormed.
  - reflexivity.
  - exact scenarioA_belowSentinel.
  - exact (le_n _).
Defined.

(** * Errors *)

Lemma npTranspose_rectangular rows :
  rectangular rows -> exists grid, npTranspose rows = Ok grid.
Proof.
  intros Hr. unfold npTranspose. destruct rows as [|r rows]; [eauto|].
  rewrite (proj2 (forallb_forall _ _)); [eauto|].
  intros r' Hr'. apply Nat.eqb_eq. apply Hr. by apply list_elem_of_In.
Qed.







(** * Sentinel edges *)

(** An edge with the sentinel weight adds no child to the queue, as
    long as the budget of the node is below the sentinel, and the loop
    over the neighbours goes on. *)
Lemma sentinel_edge_not_taken aFuel grid node q graphs gr nb :
  graphs !! getVisited node = Some (Some gr) ->
  getEdge gr (dObj node) nb = Ok MAXDIST ->
  dBudget node < MAXDIST ->
  expandNeighbour aFuel grid node (q, graphs) nb = Ok (q, graphs).
Proof.
  intros Hg He Hb. unfold expandNeighbour. rewrite Hg. simpl.
  case_decide; [done|]. rewrite He. simpl. case_decide; [done|lia].
Qed.

(** * [findAll]: the objects, their order, the error *)

Lemma findTile_value target x y tile o :
  findTile target x y tile = Ok [o] <->
  o = mkObject target x y (value o) /\ reMatchPrefix target tile = true /\
  tileValue target tile (value o).
Proof.
  unfold findTile, tileValue. destruct (reMatchPrefix target tile); split.
  - intros H. apply bind_Ok in H as (n & Hn & [= <-]). simpl.
    split; [done|]. split; [done|].
    case_decide as Hv; [left; by injection Hn as <-|right].
    split; [done|]. by apply orRaise_Ok in Hn.
  - intros (-> & _ & [[Hv Hz]|[Hv Hi]]); simpl in *.
    + rewrite decide_True by done. simpl. by rewrite Hz.
    + rewrite decide_False by done. rewrite Hi. done.
  - done.
  - intros (_ & ? & _). done.
Qed.

(** X1.  The objects that [findAll] returns for a target of letters
    and digits are exactly the tiles of the grid whose token starts with
    the target: each carries the target as identifier, the column and
    row of its tile, and the integer left in the token once the target
    is removed (0 when nothing is left). *)
Theorem findAll_exactly_matching_tiles target grid l o :
  plain target = true ->
  findAll target grid = Ok l ->
  (o ∈ l <->
   identifier o = target /\
   exists tile, gridAt grid (loc o) = Some tile /\
     reMatchPrefix target tile = true /\ tileValue target tile (value o)).
Proof.
  intros _ H. destruct (findAll_tiles _ _ _ H) as [H1 H2]. split.
  - intros Ho. destruct (H1 o Ho) as (tile & Ht & Hf).
    apply findTile_value in Hf as (Heq & Hm & Hv).
    split; [by rewrite Heq|]. eauto.
  - intros (Hid & tile & Ht & Hm & Hv).
    destruct (H2 _ _ Ht) as (l0 & Hl0 & Hsub). apply Hsub.
    assert (Hf : findTile target (ox o) (oy o) tile = Ok [o]).
    { apply findTile_value. split; [|done]. destruct o; simpl in *. by subst. }
    simpl in Hl0. rewrite Hf in Hl0. injection Hl0 as <-. left.
Qed.

Lemma findAll_exactly_matching_tiles_witness :
  mkObject "C" 2 0 5 ∈ [mkObject "C" 2 0 5] <->
  identifier (mkObject "C" 2 0 5) = "C"%string /\
  exists tile, gridAt scenarioA (loc (mkObject "C" 2 0 5)) = Some tile /\
    reMatchPrefix "C" tile = true /\ tileValue "C" tile (value (mkObject "C" 2 0 5)).
Proof.
  apply (findAll_exactly_matching_tiles "C" scenarioA [mkObject "C" 2 0 5]);
    reflexivity.
Defined.

Lemma increasing_nil : increasing [].
Proof. intros i j a b _ H. by rewrite lookup_nil in H. Qed.

Lemma increasing_app l k :
  increasing l -> increasing k ->
  (forall a b, a ∈ l -> b ∈ k -> locLt (loc a) (loc b)) ->
  increasing (l ++ k).
Proof.
  intros Hl Hk Hlk i j a b Hij Hi Hj.
  apply lookup_app_Some in Hi as [Hi|[Hil Hi]], Hj as [Hj|[Hjl Hj]].
  - by apply (Hl i j).
  - apply Hlk; by eapply list_elem_of_lookup_2.
  - apply lookup_lt_Some in Hj. lia.
  - apply (Hk (i - length l)%nat (j - length l)%nat); [lia|done|done].
Qed.

Lemma increasing_singleton_or_nil l : (length l <= 1)%nat -> increasing l.
Proof.
  intros Hlen i j a b Hij Hi Hj.
  apply lookup_lt_Some in Hj. lia.
Qed.

Lemma findTile_length target x y tile l :
  findTile target x y tile = Ok l -> (length l <= 1)%nat.
Proof.
  intros H. apply findTile_Ok in H as [[-> _]|(n & -> & _)]; simpl; lia.
Qed.

Lemma findCol_increasing target x y col l :
  findCol target x y col = Ok l ->
  increasing l /\ forall o, o ∈ l -> ox o = x /\ y <= oy o.
Proof.
  revert y l. induction col as [|tile col IH]; intros y l H; simpl in H.
  - injection H as <-. split; [apply increasing_nil|]. by intros o Ho%elem_of_nil.
  - apply bind_Ok in H as (l0 & H0 & H). apply bind_Ok in H as (l1 & H1 & H).
    injection H as <-. destruct (IH _ _ H1) as [IHi IHb].
    assert (Hl0 : forall o, o ∈ l0 -> ox o = x /\ oy o = y).
    { intros o Ho. apply findTile_Ok in H0 as [[-> _]|(n & -> & _)].
      - by apply elem_of_nil in Ho.
      - by apply list_elem_of_singleton in Ho as ->. }
    split.
    + apply increasing_app; [|done|].
      * apply increasing_singleton_or_nil. by eapply findTile_length.
      * intros a b Ha Hb. destruct (Hl0 a Ha) as [Hax Hay].
        destruct (IHb b Hb) as [Hbx Hby]. right. unfold loc. simpl. lia.
    + intros o [Ho|Ho]%elem_of_app.
      * destruct (Hl0 o Ho). lia.
      * destruct (IHb o Ho). lia.
Qed.

Lemma findCols_increasing target x grid l :
  findCols target x grid = Ok l ->
  increasing l /\ forall o, o ∈ l -> x <= ox o.
Proof.
  revert x l. induction grid as [|col grid IH]; intros x l H; simpl in H.
  - injection H as <-. split; [apply increasing_nil|]. by intros o Ho%elem_of_nil.
  - apply bind_Ok in H as (l0 & H0 & H). apply bind_Ok in H as (l1 & H1 & H).
    injection H as <-. destruct (IH _ _ H1) as [IHi IHb].
    destruct (findCol_increasing _ _ _ _ _ H0) as [Hi0 Hb0]. split.
    + apply increasing_app; [done|done|].
      intros a b Ha Hb. destruct (Hb0 a Ha) as [Hax _].
      specialize (IHb b Hb). left. unfold loc. simpl. lia.
    + intros o [Ho|Ho]%elem_of_app.
      * destruct (Hb0 o Ho). lia.
      * specialize (IHb o Ho). lia.
Qed.

Lemma increasing_NoDup l : increasing l -> NoDup l.
Proof.
  intros Hl. apply NoDup_alt. intros i j a Hi Hj.
  destruct (Nat.lt_trichotomy i j) as [Hlt|[->|Hlt]]; [|done|].
  - specialize (Hl i j a a Hlt Hi Hj). unfold locLt in Hl. lia.
  - specialize (Hl j i a a Hlt Hj Hi). unfold locLt in Hl. lia.
Qed.

(** X2.  [findAll], for a target of letters and digits, returns the
    objects in column-major order: an object that comes earlier in the
    list lies in an earlier column, or in the same column and an earlier
    row.  So no two objects of the list share a tile, and the list has
    no repetition. *)
Theorem findAll_column_major target grid l :
  plain target = true ->
  findAll target grid = Ok l ->
  increasing l /\ NoDup l /\
  forall a b, a ∈ l -> b ∈ l -> loc a = loc b -> a = b.
Proof.
  intros _ H. destruct (findCols_increasing _ _ _ _ H) as [Hi _].
  split; [done|]. split; [by apply increasing_NoDup|].
  intros a b [i Ha]%list_elem_of_lookup [j Hb]%list_elem_of_lookup Hloc.
  destruct (Nat.lt_trichotomy i j) as [Hlt|[->|Hlt]].
  - specialize (Hi i j a b Hlt Ha Hb). rewrite Hloc in Hi. unfold locLt in Hi. lia.
  - rewrite Ha in Hb. by injection Hb.
  - specialize (Hi j i b a Hlt Hb Ha). rewrite Hloc in Hi. unfold locLt in Hi. lia.
Qed.

Lemma findAll_column_major_witness :
  increasing [mkObject "A" 0 0 0; mkObject "A" 1 0 0] /\
  NoDup [mkObject "A" 0 0 0; mkObject "A" 1 0 0] /\
  forall a b, a ∈ [mkObject "A" 0 0 0; mkObject "A" 1 0 0] ->
    b ∈ [mkObject "A" 0 0 0; mkObject "A" 1 0 0] -> loc a = loc b -> a = b.
Proof. apply (findAll_column_major "A" twoAgents); reflexivity. Defined.








(** * [getManhattanDist] and [getFreeNeighbours] *)

(** Two pairs of integers that differ cannot be equal. *)
Ltac pair_neq H :=
  pose proof (f_equal fst H); pose proof (f_equal snd H); simpl in *; lia.

Lemma getFreeNeighbours_elem (tile n : Z * Z) (b : list (list Z)) :
  n ∈ getFreeNeighbours tile b <->
  getManhattanDist tile n = 1 /\ binAt b n = Some 0.
Proof.
  unfold getFreeNeighbours. rewrite list_elem_of_filter. unfold getManhattanDist.
  destruct tile as [x y], n as [nx ny]. simpl. rewrite !elem_of_cons. split.
  - intros [Hb Hn]. split; [|done].
    split_elems; pose proof (f_equal fst Hn) as H1;
      pose proof (f_equal snd Hn) as H2; simpl in H1, H2; lia.
  - intros [Hd Hb]. split; [done|].
    assert (nx = x /\ ny = y - 1 \/ nx = x + 1 /\ ny = y \/
            nx = x /\ ny = y + 1 \/ nx = x - 1 /\ ny = y) as Hc by lia.
    destruct Hc as [[-> ->]|[[-> ->]|[[-> ->]|[-> ->]]]]; auto.
Qed.

(** X5.  [getFreeNeighbours] returns exactly the tiles at Manhattan
    distance one whose entry the grid subscripts read as 0 (negative
    subscripts count from the end); there are four at most, without
    repetition, and the tile itself is never one of them. *)
Theorem getFreeNeighbours_exactly_free_adjacent (tile n : Z * Z) (b : list (list Z)) :
  (n ∈ getFreeNeighbours tile b <->
   getManhattanDist tile n = 1 /\ binAt b n = Some 0) /\
  (length (getFreeNeighbours tile b) <= 4)%nat /\
  NoDup (getFreeNeighbours tile b) /\
  tile ∉ getFreeNeighbours tile b.
Proof.
  assert (Hnd : NoDup [(tile.1, tile.2 - 1); (tile.1 + 1, tile.2);
                       (tile.1, tile.2 + 1); (tile.1 - 1, tile.2)]).
  { repeat (apply NoDup_cons; split;
            [rewrite ?elem_of_cons; intros H; split_elems; pair_neq H|]).
    apply NoDup_nil_2. }
  split; [apply getFreeNeighbours_elem|].
  unfold getFreeNeighbours. split; [|split].
  - etrans; [apply length_filter|]. done.
  - by apply NoDup_filter.
  - rewrite list_elem_of_filter, !elem_of_cons. intros [_ H].
    destruct tile as [x y]. simpl in H. split_elems; pair_neq H.
Qed.

(** * [aStarSearch]: what it returns *)

Lemma aPath_nonempty n : aPath n <> [].
Proof. destruct n as [[p|] l g h]; simpl; [|done]. by destruct (aPath p). Qed.

Lemma chained_snoc b p x y :
  chained b p -> last p = Some x -> step b x y -> chained b (p ++ [y]).
Proof.
  intros Hc Hl Hs i u v Hu Hv.
  destruct (decide (S i < length p)%nat) as [Hlt|Hge].
  - rewrite lookup_app_l in Hu, Hv by lia. by eapply Hc.
  - assert (Hi : S i = length p).
    { apply lookup_lt_Some in Hv. rewrite length_app in Hv. simpl in Hv. lia. }
    rewrite lookup_app_l in Hu by lia.
    rewrite Hi, lookup_app_r, Nat.sub_diag in Hv by lia. injection Hv as <-.
    rewrite last_lookup in Hl. replace (pred (length p)) with i in Hl by lia.
    rewrite Hu in Hl. by injection Hl as ->.
Qed.

Lemma chained_walk b p s e :
  chained b p -> head p = Some s -> last p = Some e ->
  walk b s e (pred (length p)).
Proof.
  revert e. induction p as [|y p IH] using rev_ind; intros e Hc Hh Hl; [done|].
  rewrite last_snoc in Hl. injection Hl as ->.
  rewrite length_app. simpl. rewrite Nat.add_1_r. simpl.
  destruct p as [|x p _] using rev_ind.
  - simpl in Hh. injection Hh as ->. apply walk_here.
  - replace (length (p ++ [x])) with (S (pred (length (p ++ [x]))))
      by (rewrite length_app; simpl; lia).
    apply (walk_more _ _ x).
    + apply IH.
      * intros i u v Hu Hv. apply (Hc i u v); by apply lookup_app_l_Some.
      * by destruct p.
      * apply last_snoc.
    + apply (Hc (length p) x e).
      * rewrite lookup_app_l by (rewrite length_app; simpl; lia).
        by rewrite lookup_app_r, Nat.sub_diag by lia.
      * rewrite lookup_app_r by (rewrite length_app; simpl; lia).
        rewrite length_app. simpl.
        by replace (S (length p) - (length p + 1))%nat with 0%nat by lia.
Qed.

Lemma nodeWalk_child b start cur nb h :
  nodeWalk b start cur -> step b (aLoc cur) nb ->
  nodeWalk b start (mkAStarNode (Some cur) nb (aG cur + 1) h).
Proof.
  intros (Hh & Hl & Hlen & Hc) Hs. unfold nodeWalk. simpl. repeat split.
  - destruct (aPath cur); [done|]. done.
  - apply last_snoc.
  - rewrite length_app. simpl. lia.
  - by eapply chained_snoc.
Qed.

Lemma pushNeighbours_elem (h : Z * Z -> Z * Z -> Z) (end_ : Z * Z)
    (cur : AStarNode) (V : gset (Z * Z)) (pq : list AStarNode) (ns : list (Z * Z))
    (x : AStarNode) :
  x ∈ pushNeighbours h end_ cur V pq ns <->
  x ∈ pq \/ exists n, n ∈ ns /\ (n ∉ V) /\
    x = mkAStarNode (Some cur) n (aG cur + 1) (h n end_).
Proof.
  rewrite pushNeighbours_perm, elem_of_app, list_elem_of_fmap.
  split; intros [?|(n & Hx & Hn)]; auto; right; exists n;
    rewrite list_elem_of_filter in *; tauto.
Qed.

Section sound.
Context (b : list (list Z)) (h : Z * Z -> Z * Z -> Z) (start end_ : Z * Z).

Lemma aStarLoop_sound (fuel : nat) (pq : list AStarNode) (V : gset (Z * Z)) r :
  (forall n, n ∈ pq -> nodeWalk b start n) ->
  aStarLoop fuel end_ b h pq V = Ok r ->
  r = (MAXDIST, []) \/
  exists n, nodeWalk b start n /\ aLoc n = end_ /\ r = (aG n, aPath n).
Proof.
  revert pq V. induction fuel as [|fuel IH]; intros pq V Hpq H; [done|].
  simpl in H. destruct (heappop aLt pq) as [[cur pq']|] eqn:Hpop.
  - apply heappop_Some in Hpop.
    assert (Hcur : nodeWalk b start cur) by (apply Hpq; rewrite Hpop; left).
    case_decide as Hgoal.
    + injection H as <-. right. eauto.
    + apply IH in H; [done|]. intros n [Hn|(nb & Hnb & _ & ->)]%pushNeighbours_elem.
      * apply Hpq. rewrite Hpop. by right.
      * by apply nodeWalk_child.
  - injection H as <-. by left.
Qed.

Lemma aStarLoop_complete (fuel : nat) (pq : list AStarNode) (V : gset (Z * Z)) r :
  frontier b start end_ pq V ->
  aStarLoop fuel end_ b h pq V = Ok r -> r.2 = [] ->
  forall k, ~ walk b start end_ k.
Proof.
  revert pq V. induction fuel as [|fuel IH]; intros pq V (Hend & Hstart & Hcl) H Hr; [done|].
  simpl in H. destruct (heappop aLt pq) as [[cur pq']|] eqn:Hpop.
  - apply heappop_Some in Hpop. case_decide as Hgoal.
    + injection H as <-. simpl in Hr. by apply aPath_nonempty in Hr.
    + refine (IH _ _ _ H Hr). split; [set_solver|]. split.
      * destruct Hstart as [?|(n & Hn & Hloc)]; [left; set_solver|].
        rewrite Hpop in Hn. apply elem_of_cons in Hn as [->|Hn].
        -- left. set_solver.
        -- right. exists n. split; [|done]. apply pushNeighbours_elem. by left.
      * intros v n Hv Hs.
        destruct (decide (n ∈ {[aLoc cur]} ∪ V)) as [?|Hn]; [by left|]. right.
        apply elem_of_union in Hv as [->%elem_of_singleton|Hv].
        -- eexists. split; [apply pushNeighbours_elem; right; eauto|done].
        -- destruct (Hcl v n Hv Hs) as [?|(x & Hx & Hloc)]; [set_solver|].
           rewrite Hpop in Hx. apply elem_of_cons in Hx as [->|Hx]; [set_solver|].
           exists x. split; [|done]. apply pushNeighbours_elem. by left.
  - apply heappop_None in Hpop as ->. intros k Hw.
    assert (Hs : start ∈ V).
    { destruct Hstart as [?|(n & Hn & _)]; [done|]. by apply elem_of_nil in Hn. }
    assert (Hin : forall c j, walk b start c j -> c ∈ V).
    { induction 1 as [|m c j Hw' IHw Hstep]; [done|].
      destruct (Hcl m c IHw Hstep) as [?|(x & Hx & _)]; [done|].
      by apply elem_of_nil in Hx. }
    by apply Hin in Hw.
Qed.
End sound.

Lemma nodeWalk_walk b start n :
  nodeWalk b start n -> 0 <= aG n /\ walk b start (aLoc n) (Z.to_nat (aG n)).
Proof.
  intros (Hh & Hl & Hlen & Hc).
  assert (length (aPath n) <> 0)%nat.
  { intros H0%length_zero_iff_nil. by apply aPath_nonempty in H0. }
  split; [lia|].
  replace (Z.to_nat (aG n)) with (pred (length (aPath n))) by lia.
  by apply chained_walk.
Qed.

(** The two ways in which the search ends. *)
Lemma aStarSearch_cases (fuel : nat) (start end_ : Z * Z)
    (b : list (list Z)) (h : Z * Z -> Z * Z -> Z) r :
  aStarSearch fuel start end_ b h = Ok r ->
  (r = (MAXDIST, []) /\ forall k, ~ walk b start end_ k) \/
  exists n, nodeWalk b start n /\ aLoc n = end_ /\ r = (aG n, aPath n).
Proof.
  intros H. unfold aStarSearch in H.
  set (root := mkAStarNode None start 0 (h start end_)) in H.
  assert (Hroot : forall n, n ∈ heappush aLt [] root -> n = root).
  { intros n Hn. rewrite heappush_perm in Hn. by apply list_elem_of_singleton in Hn. }
  destruct (aStarLoop_sound b h start end_ fuel _ _ _
              ltac:(intros n ->%Hroot; repeat split; done) H)
    as [->|Hn]; [|by right].
  left. split; [done|].
  refine (aStarLoop_complete b h start end_ fuel _ _ _ _ H eq_refl).
  split; [set_solver|]. split; [|set_solver].
  right. exists root. split; [|done]. rewrite heappush_perm. left.
Qed.

(** X6.  [aStarSearch] ends on every binary grid, whatever the start,
    the goal and the heuristic, and it raises no exception: once the fuel
    reaches the bound of the grid's shape it returns a distance and a
    path. *)
Theorem aStarSearch_always_returns (fuel : nat) (start end_ : Z * Z)
    (b : list (list Z)) (h : Z * Z -> Z * Z -> Z) :
  (aStarFuel (map length b) <= fuel)%nat ->
  exists d path, aStarSearch fuel start end_ b h = Ok (d, path).
Proof.
  intros Hf. destruct (aStarSearch_terminates fuel start end_ b h Hf) as [[d p] H].
  eauto.
Qed.

Lemma aStarSearch_always_returns_witness :
  exists d path,
    aStarSearch (aStarFuel (map length detourGrid)) (0, 0) (0, 2) detourGrid
      getManhattanDist = Ok (d, path).
Proof.
  apply (aStarSearch_always_returns (aStarFuel (map length detourGrid))).
  exact (le_n _).
Defined.

(** X7.  What [aStarSearch] returns, for every heuristic: either the
    sentinel [MAXDIST] with the empty path, and then no sequence of
    steps leads from the start to the goal; or a path that begins at the
    start, ends at the goal, moves by one step of [getFreeNeighbours] at
    a time, and has one tile more than the distance returned. *)
Theorem aStarSearch_returns_a_walk (fuel : nat) (start end_ : Z * Z)
    (b : list (list Z)) (h : Z * Z -> Z * Z -> Z) d path :
  aStarSearch fuel start end_ b h = Ok (d, path) ->
  (path = [] /\ d = MAXDIST /\ forall k, ~ walk b start end_ k) \/
  (head path = Some start /\ last path = Some end_ /\
   Z.of_nat (length path) = d + 1 /\ chained b path /\
   walk b start end_ (Z.to_nat d)).
Proof.
  intros [[[= -> ->] Hno]|(n & Hn & Hloc & [= -> ->])]%aStarSearch_cases.
  - by left.
  - right. pose proof (nodeWalk_walk _ _ _ Hn) as [_ Hw].
    destruct Hn as (Hh & Hl & Hlen & Hc). rewrite Hloc in Hl, Hw. done.
Qed.

Lemma aStarSearch_returns_a_walk_witness :
  ([(0, 0); (-1, 0); (-1, 1); (-1, 2); (0, 2)] = [] /\ 4 = MAXDIST /\
   forall k, ~ walk detourGrid (0, 0) (0, 2) k) \/
  (head [(0, 0); (-1, 0); (-1, 1); (-1, 2); (0, 2)] = Some (0, 0) /\
   last [(0, 0); (-1, 0); (-1, 1); (-1, 2); (0, 2)] = Some (0, 2) /\
   Z.of_nat (length [(0, 0); (-1, 0); (-1, 1); (-1, 2); (0, 2)]) = 4 + 1 /\
   chained detourGrid [(0, 0); (-1, 0); (-1, 1); (-1, 2); (0, 2)] /\
   walk detourGrid (0, 0) (0, 2) (Z.to_nat 4)).
Proof.
  apply (aStarSearch_returns_a_walk 100 (0, 0) (0, 2) detourGrid getManhattanDist).
  vm_compute. reflexivity.
Defined.
From Stdlib Require Import ZifyNat.

(** * The heap pops a least element *)

(** Arithmetic on the positions of a heap. *)
Ltac heap_lia := zify; Z.to_euclidean_division_equations; lia.

Section heapq_order.
Context {A : Type} (key : A -> Z).
Abbreviation lt := (fun a b : A => key a <? key b).
Implicit Types l : list A.

Lemma siftdownLoop_heap fuel l pos newitem :
  (pos <= fuel)%nat -> (pos < length l)%nat ->
  heapHole key l pos -> aboveChildren key l pos (key newitem) ->
  heapOrdered key (siftdownLoop lt fuel l 0 pos newitem).
Proof.
  revert l pos. induction fuel as [|fuel IH]; intros l pos Hf Hlen [H1 H2] Hch.
  - assert (pos = 0)%nat as -> by lia. simpl.
    intros j x y Hj Hx Hy.
    apply list_lookup_insert_Some in Hx as [(Hp0 & <- & _)|[Hp0 Hx]],
      Hy as [(? & _ & _)|[Hj0 Hy]]; try lia.
    + by apply (Hch j).
    + apply (H1 j); try done.
  - cbn -[Nat.div Nat.mul]. case_decide as Hpos.
    + destruct (l !! ((pos - 1) / 2)%nat) as [parent|] eqn:Hp.
      2:{ apply lookup_ge_None in Hp. heap_lia. }
      destruct (key newitem <? key parent) eqn:Hlt.
      * apply Z.ltb_lt in Hlt. apply IH.
        -- heap_lia.
        -- rewrite length_insert. heap_lia.
        -- split.
           ++ intros j x y Hj Hjp Hpp Hx Hy.
              apply list_lookup_insert_Some in Hx as [(Hpj & <- & _)|[Hpj Hx]],
                Hy as [(Hjpos & Heq & _)|[Hjpos Hy]].
              ** heap_lia.
              ** apply (H2 j); try done.
              ** heap_lia.
              ** by apply (H1 j).
           ++ intros c x y Hpp Hc Hc0 Hx Hy.
              apply list_lookup_insert_Some in Hx as [(Hpj & _)|[Hpj Hx]];
                [heap_lia|].
              assert (key x <= key parent)
                by (apply (H1 ((pos - 1) / 2)%nat); [done|heap_lia|heap_lia|done|done]).
              apply list_lookup_insert_Some in Hy as [(Hjpos & <- & _)|[Hjpos Hy]];
                [done|].
              assert (key parent <= key y); [|lia].
              apply (H1 c); try done; [heap_lia|by rewrite Hc].
        -- intros c y Hc0 Hc Hy.
           apply list_lookup_insert_Some in Hy as [(Hjpos & <- & _)|[Hjpos Hy]];
             [lia|].
           assert (key parent <= key y); [|lia].
           apply (H1 c); try done; [heap_lia|by rewrite Hc].
      * apply Z.ltb_ge in Hlt. intros j x y Hj Hx Hy.
        apply list_lookup_insert_Some in Hx as [(Hpj & <- & _)|[Hpj Hx]],
          Hy as [(Hjpos & Heq & _)|[Hjpos Hy]].
        -- heap_lia.
        -- by apply (Hch j).
        -- subst j y. rewrite Hp in Hx. injection Hx as <-. done.
        -- by apply (H1 j).
    + assert (pos = 0)%nat as -> by lia.
      intros j x y Hj Hx Hy.
      apply list_lookup_insert_Some in Hx as [(Hp0 & <- & _)|[Hp0 Hx]],
        Hy as [(? & _ & _)|[Hj0 Hy]]; try lia.
      * by apply (Hch j).
      * apply (H1 j); try done.
Qed.

Lemma heapHole_insert l pos v :
  heapHole key l pos -> heapHole key (<[pos := v]> l) pos.
Proof.
  intros [H1 H2]. split.
  - intros j x y Hj Hjp Hpp Hx Hy.
    rewrite list_lookup_insert_ne in Hx, Hy by done. by apply (H1 j).
  - intros c x y Hp Hc Hc0 Hx Hy.
    rewrite list_lookup_insert_ne in Hx, Hy by heap_lia. by apply (H2 c).
Qed.

Lemma siftupLoop_heap fuel l pos l' pos' :
  (length l <= fuel + pos)%nat ->
  heapHole key l pos ->
  siftupLoop lt fuel l pos = (l', pos') ->
  heapHole key l' pos' /\ (length l' <= 2 * pos' + 1)%nat /\ length l' = length l.
Proof.
  revert l pos. induction fuel as [|fuel IH]; intros l pos Hf [H1 H2];
    cbn -[Nat.div Nat.mul].
  { intros [= <- <-]. repeat split; try done. lia. }
  case_decide as Hc; [|intros [= <- <-]; repeat split; try done; lia].
  set (cp := match l !! (2 * pos + 1)%nat, l !! (2 * pos + 1 + 1)%nat with
             | Some c, Some r =>
               if key c <? key r then (2 * pos + 1)%nat else (2 * pos + 1 + 1)%nat
             | _, _ => (2 * pos + 1)%nat
             end).
  destruct (l !! (2 * pos + 1)%nat) as [lc|] eqn:Hlc.
  2:{ apply lookup_ge_None in Hlc. lia. }
  assert (Hcp : cp = (2 * pos + 1)%nat \/ cp = (2 * pos + 2)%nat).
  { unfold cp. repeat case_match; lia. }
  assert (Hsib : forall j y c, (0 < j)%nat -> ((j - 1) / 2)%nat = pos -> j <> cp ->
            l !! j = Some y -> l !! cp = Some c -> key c <= key y).
  { intros j y c Hj Hjp Hjc Hy Hcv. unfold cp in *.
    destruct (l !! (2 * pos + 1 + 1)%nat) as [rc|] eqn:Hrc.
    - destruct (key lc <? key rc) eqn:Hlt.
      + apply Z.ltb_lt in Hlt. rewrite Hlc in Hcv. injection Hcv as <-.
        assert (j = 2 * pos + 1 + 1)%nat by heap_lia. subst j.
        rewrite Hrc in Hy. injection Hy as <-. lia.
      + apply Z.ltb_ge in Hlt. rewrite Hrc in Hcv. injection Hcv as <-.
        assert (j = 2 * pos + 1)%nat by heap_lia. subst j.
        rewrite Hlc in Hy. injection Hy as <-. lia.
    - apply lookup_ge_None in Hrc. apply lookup_lt_Some in Hy. heap_lia. }
  fold cp. destruct (l !! cp) as [c|] eqn:Hcv.
  2:{ intros [= <- <-]. exfalso. apply lookup_ge_None in Hcv.
      unfold cp in Hcv. destruct (l !! (2 * pos + 1 + 1)%nat) eqn:Hrc.
      - apply lookup_lt_Some in Hrc. case_match; lia.
      - lia. }
  intros Hloop. apply IH in Hloop.
  - rewrite length_insert in Hloop. done.
  - rewrite length_insert. lia.
  - split.
    + intros j x y Hj Hjp Hpp Hx Hy.
      apply list_lookup_insert_Some in Hx as [(Hpj & <- & _)|[Hpj Hx]],
        Hy as [(Hjpos & <- & _)|[Hjpos Hy]].
      * heap_lia.
      * by apply (Hsib j y c).
      * subst j. apply (H2 cp); [done|heap_lia|lia|done|done].
      * apply (H1 j); try done; congruence.
    + intros c' x y Hp Hc' Hc0 Hx Hy.
      assert (((cp - 1) / 2)%nat = pos) as Hpar by heap_lia.
      rewrite Hpar, list_lookup_insert_eq in Hx by lia. injection Hx as <-.
      rewrite list_lookup_insert_ne in Hy by heap_lia.
      apply (H1 c'); try done; [heap_lia|heap_lia|by rewrite Hc'].
Qed.

Lemma siftup_heap l :
  heapHole key l 0 -> heapOrdered key (siftup lt l 0).
Proof.
  intros Hh. unfold siftup. destruct (l !! 0%nat) as [newitem|] eqn:H0.
  2:{ destruct l; [|done]. intros j x y _ Hx. by rewrite lookup_nil in Hx. }
  destruct (siftupLoop lt (length l) l 0) as [l' pos'] eqn:Hl.
  apply siftupLoop_heap in Hl as (Hh' & Hleaf & Hlen); [|lia|done].
  unfold siftdown.
  destruct (<[pos' := newitem]> l' !! pos') as [x|] eqn:Hx.
  - apply list_lookup_insert_Some in Hx as [(_ & <- & Hlt)|[? _]]; [|done].
    apply siftdownLoop_heap; [lia|by rewrite length_insert|by apply heapHole_insert|].
    intros c y Hc0 Hc Hy. apply lookup_lt_Some in Hy.
    rewrite length_insert in Hy. heap_lia.
  - apply lookup_ge_None in Hx. rewrite length_insert in Hx.
    rewrite list_insert_ge by done.
    intros j x y Hj Hxj Hy. destruct Hh' as [H1 _].
    apply (H1 j); try done; apply lookup_lt_Some in Hxj, Hy; lia.
Qed.

Lemma heappush_heap l x : heapOrdered key l -> heapOrdered key (heappush lt l x).
Proof.
  intros Hl. unfold heappush, siftdown.
  rewrite lookup_app_r, Nat.sub_diag by lia. simpl.
  apply siftdownLoop_heap; [lia|rewrite length_app; simpl; lia| |].
  - split.
    + intros j a c Hj Hjp Hpp Ha Hc.
      assert (j < length l)%nat.
      { apply lookup_lt_Some in Hc. rewrite length_app in Hc. simpl in Hc. lia. }
      rewrite lookup_app_l in Ha, Hc by heap_lia. by apply (Hl j).
    + intros c a y Hp Hc Hc0 Ha Hy. apply lookup_lt_Some in Hy.
      rewrite length_app in Hy. simpl in Hy. heap_lia.
  - intros c y Hc0 Hc Hy. apply lookup_lt_Some in Hy.
    rewrite length_app in Hy. simpl in Hy. heap_lia.
Qed.

(** The root of a heap has a least key. *)
Lemma heapOrdered_root l x y :
  heapOrdered key l -> l !! 0%nat = Some x -> y ∈ l -> key x <= key y.
Proof.
  intros Hl Hx [j Hy]%list_elem_of_lookup. revert y Hy.
  induction j as [j IH] using lt_wf_ind. intros y Hy.
  destruct j as [|j]; [rewrite Hx in Hy; injection Hy as <-; lia|].
  destruct (l !! (((S j) - 1) / 2)%nat) as [p|] eqn:Hp.
  - assert (key x <= key p) by (apply (IH ((S j - 1) / 2)%nat); [heap_lia|done]).
    assert (key p <= key y) by (apply (Hl (S j)); [lia|done|done]). lia.
  - apply lookup_ge_None in Hp. apply lookup_lt_Some in Hy. heap_lia.
Qed.

(** [heappop] takes a least element out of a heap and leaves a heap. *)
Lemma heappop_heap l x l' :
  heapOrdered key l -> heappop lt l = Some (x, l') ->
  heapOrdered key l' /\ forall y, y ∈ l -> key x <= key y.
Proof.
  intros Hl. unfold heappop.
  destruct (reverse l) as [|lastelt rest] eqn:Hr; [done|].
  apply (f_equal reverse) in Hr. rewrite reverse_involutive, reverse_cons in Hr.
  destruct (reverse rest) as [|returnitem tl].
  - intros [= <- <-]. subst l. split.
    + intros j a c _ Ha. by rewrite lookup_nil in Ha.
    + intros y ->%list_elem_of_singleton. lia.
  - intros [= <- <-]. subst l. split.
    + apply siftup_heap. split; [|intros; lia].
      intros j a c Hj Hj0 Hp0 Ha Hc.
      assert (S j - 1 < length (returnitem :: tl))%nat.
      { apply lookup_lt_Some in Hc. simpl in *. lia. }
      apply (Hl j); [done| |].
      * destruct ((j - 1) / 2)%nat as [|p] eqn:Hp; [done|].
        simpl in Ha. simpl. rewrite lookup_app_l; [done|].
        apply lookup_lt_Some in Ha. lia.
      * destruct j as [|j]; [done|]. simpl in Hc. simpl.
        rewrite lookup_app_l; [done|]. apply lookup_lt_Some in Hc. lia.
    + intros y Hy. by apply (heapOrdered_root _ returnitem y Hl).
Qed.
End heapq_order.

(** * [aStarSearch]: the distance is the least one *)

Lemma pushNeighbours_heap (h : Z * Z -> Z * Z -> Z) (end_ : Z * Z)
    (cur : AStarNode) (V : gset (Z * Z)) (pq : list AStarNode) (ns : list (Z * Z)) :
  heapOrdered aF pq -> heapOrdered aF (pushNeighbours h end_ cur V pq ns).
Proof.
  unfold pushNeighbours. revert pq. induction ns as [|n ns IH]; intros pq Hpq; [done|].
  simpl. apply IH. case_decide; [done|]. by apply (heappush_heap aF).
Qed.

Section optimal.
Context (b : list (list Z)) (h : Z * Z -> Z * Z -> Z) (start end_ : Z * Z).
Context (Hcons : consistent b h end_).

(** Along a walk, a tile is popped or some queued node has an estimate
    no more than the length walked plus the heuristic of the tile. *)
Lemma settled_front (pq : list AStarNode) (V : gset (Z * Z)) (c : Z * Z) (k : nat) :
  settled b h start end_ pq V -> walk b start c k ->
  c ∈ V \/ exists x, x ∈ pq /\ aF x <= Z.of_nat k + h c end_.
Proof.
  intros (_ & Hh & _ & Hs & Hcl). induction 1 as [|m c k Hw IH Hstep].
  - destruct Hs as [?|(x & Hx & Hloc & Hg)]; [by left|]. right. exists x.
    split; [done|]. unfold aF. rewrite (Hh x Hx), Hloc, Hg. simpl. lia.
  - destruct IH as [Hm|(x & Hx & Hf)].
    + destruct (Hcl m k c Hm Hw Hstep) as [?|(x & Hx & Hloc & Hg)]; [by left|].
      right. exists x. split; [done|]. unfold aF. rewrite (Hh x Hx), Hloc. lia.
    + right. exists x. split; [done|]. destruct Hcons as [_ Hc].
      specialize (Hc m c Hstep). lia.
Qed.

Lemma aStarLoop_least (fuel : nat) (pq : list AStarNode) (V : gset (Z * Z)) r :
  settled b h start end_ pq V ->
  aStarLoop fuel end_ b h pq V = Ok r ->
  forall k, walk b start end_ k -> r.1 <= Z.of_nat k.
Proof.
  revert pq V. induction fuel as [|fuel IH]; intros pq V Hset H; [done|].
  simpl in H. destruct (heappop aLt pq) as [[cur pq']|] eqn:Hpop.
  - pose proof Hset as (Hheap & Hh & Hend & Hs & Hcl).
    destruct (heappop_heap aF pq cur pq' Hheap Hpop) as [Hheap' Hmin].
    apply heappop_Some in Hpop.
    assert (Hcur : cur ∈ pq) by (rewrite Hpop; left).
    assert (Hkey : forall k, aLoc cur ∉ V -> walk b start (aLoc cur) k ->
              aG cur <= Z.of_nat k).
    { intros k HV Hw.
      destruct (settled_front pq V _ k Hset Hw) as [?|(x & Hx & Hf)]; [done|].
      specialize (Hmin x Hx). unfold aF in Hmin at 1. rewrite (Hh cur Hcur) in Hmin.
      lia. }
    case_decide as Hgoal.
    + injection H as <-. simpl. intros k Hw. apply Hkey; by rewrite Hgoal.
    + refine (IH _ _ _ H). repeat split.
      * by apply pushNeighbours_heap.
      * intros x [Hx|(n & _ & _ & ->)]%pushNeighbours_elem; [|done].
        apply Hh. rewrite Hpop. by right.
      * set_solver.
      * destruct Hs as [?|(x & Hx & Hloc & Hg)]; [left; set_solver|].
        rewrite Hpop in Hx. apply elem_of_cons in Hx as [->|Hx].
        -- left. set_solver.
        -- right. exists x. split; [|done]. apply pushNeighbours_elem. by left.
      * intros v k n Hv Hw Hstep.
        destruct (decide (n ∈ {[aLoc cur]} ∪ V)) as [?|Hn]; [by left|]. right.
        destruct (decide (v ∈ V)) as [HvV|HvV].
        -- destruct (Hcl v k n HvV Hw Hstep) as [?|(x & Hx & Hloc & Hg)]; [set_solver|].
           rewrite Hpop in Hx. apply elem_of_cons in Hx as [->|Hx]; [set_solver|].
           exists x. split; [|done]. apply pushNeighbours_elem. by left.
        -- assert (v = aLoc cur) as -> by set_solver.
           eexists. split; [apply pushNeighbours_elem; right; eauto|].
           split; [done|]. simpl. specialize (Hkey k HvV Hw). lia.
  - injection H as <-. intros k Hw. exfalso.
    apply heappop_None in Hpop as ->.
    destruct Hset as (_ & _ & Hend & Hs & Hcl).
    assert (Hs' : start ∈ V).
    { destruct Hs as [?|(n & Hn & _)]; [done|]. by apply elem_of_nil in Hn. }
    assert (Hin : forall c j, walk b start c j -> c ∈ V).
    { induction 1 as [|m c j Hw' IHw Hstep]; [done|].
      destruct (Hcl m j c IHw Hw' Hstep) as [?|(x & Hx & _)]; [done|].
      by apply elem_of_nil in Hx. }
    by apply Hin in Hw.
Qed.

Lemma aStarSearch_least (fuel : nat) r :
  aStarSearch fuel start end_ b h = Ok r ->
  forall k, walk b start end_ k -> r.1 <= Z.of_nat k.
Proof.
  intros H. refine (aStarLoop_least fuel _ _ r _ H).
  set (root := mkAStarNode None start 0 (h start end_)).
  assert (Hroot : forall n, n ∈ heappush aLt [] root -> n = root).
  { intros n Hn. rewrite heappush_perm in Hn. by apply list_elem_of_singleton in Hn. }
  repeat split.
  - apply (heappush_heap aF). intros j x y _ Hx. by rewrite lookup_nil in Hx.
  - by intros x ->%Hroot.
  - set_solver.
  - right. exists root. split; [|done]. rewrite heappush_perm. left.
  - set_solver.
Qed.
End optimal.

Lemma getManhattanDist_consistent (b : list (list Z)) (end_ : Z * Z) :
  consistent b getManhattanDist end_.
Proof.
  split; [unfold getManhattanDist; lia|]. intros t n Hs.
  unfold step, getFreeNeighbours in Hs. apply list_elem_of_filter in Hs as [_ Hs].
  unfold getManhattanDist. rewrite !elem_of_cons in Hs.
  destruct Hs as [-> | [-> | [-> | [-> | Hs]]]]; [simpl; lia..|].
  by apply elem_of_nil in Hs.
Qed.

(** * Walks, routes inside the grid, and [getDist] *)

Lemma walk_cons b a m c k : step b a m -> walk b m c k -> walk b a c (S k).
Proof.
  intros Hs. induction 1 as [|x c k Hw IH Hstep].
  - apply (walk_more _ _ a); [apply walk_here|done].
  - by apply (walk_more _ _ x).
Qed.

(** A route inside the grid is a walk. *)
Lemma route_walk b a c k : route b a c k -> walk b a c k.
Proof.
  induction 1 as [a Ha|a m c n Ha Hadj Hr IH]; [apply walk_here|].
  apply (walk_cons _ _ m); [|done]. apply getFreeNeighbours_elem.
  split; [done|]. by apply route_start_free in Hr as (_ & _ & ?).
Qed.

Lemma route_snoc b a m c k :
  route b a m k -> adjacent m c -> insideFree b c -> route b a c (S k).
Proof.
  intros Hr Hadj Hc. induction Hr as [a Ha|a x m n Ha Hax Hr IH].
  - apply (route_step _ _ c); [done|done|by apply route_here].
  - apply (route_step _ _ x); [done|done|by apply IH].
Qed.

(** On a fenced grid a step from a tile inside the grid stays inside. *)
Lemma fenced_step b t n : fenced b -> insideFree b t -> step b t n -> insideFree b n.
Proof.
  intros Hf (Ht1 & Ht2 & Ht) [Hd Hn]%getFreeNeighbours_elem.
  unfold getManhattanDist in Hd. destruct t as [x y], n as [nx ny]. simpl in *.
  destruct (decide (nx = -1)) as [->|Hx].
  { exfalso. unfold binAt in Hn. simpl in Hn. rewrite pyIndex_minus_one in Hn.
    assert (length b <> 0)%nat.
    { intros H0. apply length_zero_iff_nil in H0. subst b.
      by rewrite binAt_nonneg in Ht. }
    destruct (Hf (Z.of_nat (length b) - 1, ny)) as [Hc _]; simpl; [done|lia|].
    simpl in Hc. lia. }
  destruct (decide (ny = -1)) as [->|Hy].
  { exfalso. assert (nx = x) as -> by lia.
    unfold binAt in Hn. simpl in Hn. rewrite pyIndex_nonneg in Hn by done.
    destruct (b !! Z.to_nat x) as [col|] eqn:Hcol; [|done]. simpl in Hn.
    rewrite pyIndex_minus_one in Hn.
    assert (length col <> 0)%nat.
    { intros H0. apply length_zero_iff_nil in H0. subst col. done. }
    destruct (Hf (x, Z.of_nat (length col) - 1)) as [_ Hc]; simpl; [|lia|].
    - unfold binAt. simpl. rewrite pyIndex_nonneg, Hcol by done. done.
    - simpl in Hc. rewrite Hcol in Hc. specialize (Hc col eq_refl). lia. }
  repeat split; simpl; [lia|lia|done].
Qed.

(** On a fenced grid the walks from a free tile inside the grid are the
    routes. *)
Lemma fenced_walk_route b s e k :
  fenced b -> insideFree b s -> walk b s e k -> route b s e k /\ insideFree b e.
Proof.
  intros Hf Hs. induction 1 as [|m c k Hw [IHr IHm] Hstep].
  - split; [by apply route_here|done].
  - pose proof (fenced_step _ _ _ Hf IHm Hstep) as Hc. split; [|done].
    apply (route_snoc _ _ m); [done| |done].
    by apply getFreeNeighbours_elem in Hstep as [? _].
Qed.

Lemma chained_inside b path s :
  fenced b -> insideFree b s -> chained b path -> head path = Some s ->
  forall t, t ∈ path -> insideFree b t.
Proof.
  intros Hf Hs Hc Hh t [i Ht]%list_elem_of_lookup. revert t Ht.
  induction i as [|i IH]; intros t Ht.
  - rewrite <- head_lookup, Hh in Ht. by injection Ht as <-.
  - destruct (path !! i) as [u|] eqn:Hu.
    + apply (fenced_step b u t); [done|by apply IH|by apply (Hc i)].
    + apply lookup_ge_None in Hu. apply lookup_lt_Some in Ht. lia.
Qed.

Lemma fencedGrid_fenced : fenced fencedGrid.
Proof.
  intros [x y] H [Hx Hy]. simpl in *. rewrite binAt_nonneg in H by done. simpl in H.
  destruct (Z.to_nat x) as [|[|[|[|?]]]] eqn:Ex; simpl in H; try done;
    destruct (Z.to_nat y) as [|[|[|?]]] eqn:Ey; simpl in H; try done;
    (split; [simpl; lia|]); intros col Hcol; simpl in Hcol;
    injection Hcol as <-; simpl; lia.
Qed.

(** X4.  [getManhattanDist] never exceeds the number of steps of a
    walk of [getFreeNeighbours] between two tiles, on any grid: as the
    heuristic of the search it is admissible.  It is symmetric, and zero
    between a tile and itself only. *)
Theorem getManhattanDist_lower_bound (b : list (list Z)) (s e : Z * Z) (k : nat) :
  walk b s e k ->
  getManhattanDist s e <= Z.of_nat k /\
  getManhattanDist s e = getManhattanDist e s /\
  (getManhattanDist s e = 0 <-> s = e).
Proof.
  intros Hw. split; [|split].
  - induction Hw as [|m c k Hw IH Hstep].
    + unfold getManhattanDist. lia.
    + apply getFreeNeighbours_elem in Hstep as [Hd _].
      unfold getManhattanDist in *. lia.
  - unfold getManhattanDist. lia.
  - unfold getManhattanDist. destruct s as [s1 s2], e as [e1 e2]. simpl. split.
    + intros H. f_equal; lia.
    + intros [= -> ->]. lia.
Qed.

Lemma getManhattanDist_lower_bound_witness :
  getManhattanDist (0, 0) (0, 2) <= Z.of_nat 6 /\
  getManhattanDist (0, 0) (0, 2) = getManhattanDist (0, 2) (0, 0) /\
  (getManhattanDist (0, 0) (0, 2) = 0 <-> (0, 0) = (0, 2)).
Proof.
  apply (getManhattanDist_lower_bound detourGrid (0, 0) (0, 2) 6).
  apply route_walk.
  apply (route_step _ _ (1, 0)); [by repeat split|done|].
  apply (route_step _ _ (2, 0)); [by repeat split|done|].
  apply (route_step _ _ (2, 1)); [by repeat split|done|].
  apply (route_step _ _ (2, 2)); [by repeat split|done|].
  apply (route_step _ _ (1, 2)); [by repeat split|done|].
  apply (route_step _ _ (0, 2)); [by repeat split|done|].
  apply route_here. by repeat split.
Defined.

(** X8.  With a heuristic that is zero at the goal and drops by one at
    most along a step of [getFreeNeighbours], the distance that
    [aStarSearch] returns is the least number of steps of a walk from
    the start to the goal: a walk of that length exists as soon as any
    walk does, and none is shorter. *)
Theorem aStarSearch_least_for_consistent (fuel : nat) (start end_ : Z * Z)
    (b : list (list Z)) (h : Z * Z -> Z * Z -> Z) d path (k : nat) :
  consistent b h end_ ->
  aStarSearch fuel start end_ b h = Ok (d, path) ->
  walk b start end_ k ->
  0 <= d <= Z.of_nat k /\ walk b start end_ (Z.to_nat d) /\
  Z.of_nat (length path) = d + 1.
Proof.
  intros Hc H Hw.
  pose proof (aStarSearch_least b h start end_ Hc fuel _ H k Hw) as Hle.
  simpl in Hle.
  apply aStarSearch_cases in H as [[_ Hno]|(n & Hn & Hloc & [= -> ->])].
  - by apply Hno in Hw.
  - pose proof (nodeWalk_walk _ _ _ Hn) as [H0 Hwn]. rewrite Hloc in Hwn.
    destruct Hn as (_ & _ & Hlen & _). done.
Qed.

Lemma aStarSearch_least_for_consistent_witness :
  0 <= 4 <= Z.of_nat 6 /\ walk detourGrid (0, 0) (0, 2) (Z.to_nat 4) /\
  Z.of_nat (length [(0, 0); (-1, 0); (-1, 1); (-1, 2); (0, 2)]) = 4 + 1.
Proof.
  apply (aStarSearch_least_for_consistent 100 (0, 0) (0, 2) detourGrid
           getManhattanDist 4 [(0, 0); (-1, 0); (-1, 1); (-1, 2); (0, 2)] 6).
  - apply getManhattanDist_consistent.
  - vm_compute. reflexivity.
  - apply route_walk.
    apply (route_step _ _ (1, 0)); [by repeat split|done|].
    apply (route_step _ _ (2, 0)); [by repeat split|done|].
    apply (route_step _ _ (2, 1)); [by repeat split|done|].
    apply (route_step _ _ (2, 2)); [by repeat split|done|].
    apply (route_step _ _ (1, 2)); [by repeat split|done|].
    apply (route_step _ _ (0, 2)); [by repeat split|done|].
    apply route_here. by repeat split.
Defined.

(** X9.  [getDist] frees the two tiles in the binary grid and returns
    the least number of steps of [getFreeNeighbours] from the one to the
    other in it, or [MAXDIST] when no such walk exists. *)
Theorem getDist_least_walk (fuel : nat) (start end_ : Z * Z)
    (grid : list (list string)) (d : Z) :
  getDist fuel start end_ grid = Ok d ->
  exists b, pairGrid start end_ grid = Ok b /\
    ((d = MAXDIST /\ forall k, ~ walk b start end_ k) \/
     (0 <= d /\ walk b start end_ (Z.to_nat d) /\
      forall k, walk b start end_ k -> d <= Z.of_nat k)).
Proof.
  unfold getDist. intros H.
  apply bind_Ok in H as (b & Hb & H). apply bind_Ok in H as (r & Hr & [= <-]).
  exists b. split; [done|].
  pose proof (aStarSearch_least b getManhattanDist start end_
                (getManhattanDist_consistent b end_) fuel r Hr) as Hle.
  apply aStarSearch_cases in Hr as [[-> Hno]|(n & Hn & Hloc & ->)].
  - by left.
  - right. pose proof (nodeWalk_walk _ _ _ Hn) as [H0 Hwn]. rewrite Hloc in Hwn.
    done.
Qed.

Lemma getDist_least_walk_witness :
  exists b, pairGrid (0, 0) (0, 2) detourWorld = Ok b /\
    ((4 = MAXDIST /\ forall k, ~ walk b (0, 0) (0, 2) k) \/
     (0 <= 4 /\ walk b (0, 0) (0, 2) (Z.to_nat 4) /\
      forall k, walk b (0, 0) (0, 2) k -> 4 <= Z.of_nat k)).
Proof.
  apply (getDist_least_walk 100 (0, 0) (0, 2) detourWorld 4).
  vm_compute. reflexivity.
Defined.

(** X10.  On a fenced binary grid, from a free tile inside it,
    [aStarSearch] with the Manhattan heuristic returns the length of a
    shortest route inside the grid and a path of tiles inside the grid,
    or [MAXDIST] and the empty path when the grid has no route. *)
Theorem aStarSearch_shortest_on_fenced_grid (fuel : nat) (start end_ : Z * Z)
    (b : list (list Z)) d path :
  fenced b -> insideFree b start ->
  aStarSearch fuel start end_ b getManhattanDist = Ok (d, path) ->
  (d = MAXDIST /\ path = [] /\ forall k, ~ route b start end_ k) \/
  (0 <= d /\ shortest b start end_ (Z.to_nat d) /\
   Z.of_nat (length path) = d + 1 /\ forall t, t ∈ path -> insideFree b t).
Proof.
  intros Hf Hs H.
  pose proof (aStarSearch_least b getManhattanDist start end_
                (getManhattanDist_consistent b end_) fuel _ H) as Hle.
  simpl in Hle.
  apply aStarSearch_cases in H as [[[= -> ->] Hno]|(n & Hn & Hloc & [= -> ->])].
  - left. repeat split; try done. intros k Hr%route_walk. by apply Hno in Hr.
  - right. pose proof (nodeWalk_walk _ _ _ Hn) as [H0 Hwn]. rewrite Hloc in Hwn.
    destruct Hn as (Hh & _ & Hlen & Hc).
    split; [done|]. split; [split|split; [done|]].
    + by apply fenced_walk_route.
    + intros m Hm%route_walk. apply Hle in Hm. lia.
    + by apply (chained_inside b (aPath n) start).
Qed.

Lemma aStarSearch_shortest_on_fenced_grid_witness :
  (4 = MAXDIST /\ [(0, 0); (0, 1); (1, 1); (2, 1); (2, 0)] = [] /\
   forall k, ~ route fencedGrid (0, 0) (2, 0) k) \/
  (0 <= 4 /\ shortest fencedGrid (0, 0) (2, 0) (Z.to_nat 4) /\
   Z.of_nat (length [(0, 0); (0, 1); (1, 1); (2, 1); (2, 0)]) = 4 + 1 /\
   forall t, t ∈ [(0, 0); (0, 1); (1, 1); (2, 1); (2, 0)] -> insideFree fencedGrid t).
Proof.
  apply (aStarSearch_shortest_on_fenced_grid 100 (0, 0) (2, 0) fencedGrid).
  - apply fencedGrid_fenced.
  - by repeat split.
  - vm_compute. reflexivity.
Defined.

(** * [getDist] is symmetric *)

(** [m[i][j] = v] by positions. *)
Lemma pySet2_pos {A} (m m' : list (list A)) i j v :
  pySet2 m i j v = Some m' <->
  exists p r col, pyPos (length m) i = Some p /\ m !! p = Some col /\
    pyPos (length col) j = Some r /\ m' = <[p := <[r := v]> col]> m.
Proof.
  unfold pySet2, pySet, pyIndex. split.
  - intros H. destruct (pyPos (length m) i) as [p|] eqn:Hp; [|done]. simpl in H.
    destruct (m !! p) as [col|] eqn:Hcol; [|done]. simpl in H.
    destruct (pyPos (length col) j) as [r|] eqn:Hr; [|done]. simpl in H.
    injection H as <-. by exists p, r, col.
  - intros (p & r & col & -> & Hcol & Hr & ->). simpl. rewrite Hcol. simpl.
    by rewrite Hr.
Qed.

Lemma pySet2_commute {A} (m m1 m2 : list (list A)) i j i' j' v :
  pySet2 m i j v = Some m1 -> pySet2 m1 i' j' v = Some m2 ->
  exists m1', pySet2 m i' j' v = Some m1' /\ pySet2 m1' i j v = Some m2.
Proof.
  intros (p & r & col & Hp & Hcol & Hr & ->)%pySet2_pos
         (p' & r' & col' & Hp' & Hcol' & Hr' & ->)%pySet2_pos.
  rewrite length_insert in Hp'.
  pose proof (lookup_lt_Some _ _ _ Hcol) as Hlt.
  destruct (decide (p' = p)) as [->|Hne].
  - rewrite list_lookup_insert_eq in Hcol' by done. injection Hcol' as <-.
    rewrite length_insert in Hr'.
    exists (<[p := <[r' := v]> col]> m). split.
    + apply pySet2_pos. by exists p, r', col.
    + apply pySet2_pos. exists p, r, (<[r' := v]> col).
      rewrite !length_insert, list_lookup_insert_eq by done.
      repeat split; try done. rewrite !list_insert_insert_eq. f_equal.
      destruct (decide (r = r')) as [->|Hr_ne]; [done|].
      by apply list_insert_insert_ne.
  - rewrite list_lookup_insert_ne in Hcol' by done.
    exists (<[p' := <[r' := v]> col']> m). split.
    + apply pySet2_pos. by exists p', r', col'.
    + apply pySet2_pos. exists p, r, col.
      rewrite length_insert, list_lookup_insert_ne by done.
      repeat split; try done. by apply list_insert_insert_ne.
Qed.

Lemma pySet2_read (m m' : list (list Z)) i j v :
  pySet2 m i j v = Some m' -> binAt m' (i, j) = Some v.
Proof.
  intros (p & r & col & Hp & Hcol & Hr & ->)%pySet2_pos.
  pose proof (lookup_lt_Some _ _ _ Hcol) as Hlt.
  unfold binAt, pyIndex. simpl. rewrite length_insert, Hp. simpl.
  rewrite list_lookup_insert_eq by done. simpl. rewrite length_insert, Hr. simpl.
  apply list_lookup_insert_eq. apply pyPos_Some in Hr. lia.
Qed.

(** A later assignment of the same value keeps what an earlier one
    wrote. *)
Lemma pySet2_keeps (m m' : list (list Z)) i j v t :
  pySet2 m i j v = Some m' -> binAt m t = Some v -> binAt m' t = Some v.
Proof.
  intros (p & r & col & Hp & Hcol & Hr & ->)%pySet2_pos.
  pose proof (lookup_lt_Some _ _ _ Hcol) as Hlt.
  unfold binAt, pyIndex. rewrite length_insert.
  destruct (pyPos (length m) t.1) as [q|]; [|done]. simpl.
  destruct (decide (q = p)) as [->|Hne].
  - rewrite list_lookup_insert_eq, Hcol by done. simpl. rewrite length_insert.
    destruct (pyPos (length col) t.2) as [s|]; [|done]. simpl.
    destruct (decide (s = r)) as [->|Hne].
    + intros _. apply list_lookup_insert_eq. apply pyPos_Some in Hr. lia.
    + by rewrite list_lookup_insert_ne.
  - by rewrite list_lookup_insert_ne.
Qed.

Lemma pairGrid_swap a c grid b :
  pairGrid a c grid = Ok b -> pairGrid c a grid = Ok b.
Proof.
  unfold pairGrid. intros H. apply bind_Ok in H as (b1 & H1 & H2).
  apply orRaise_Ok in H1, H2.
  destruct (pySet2_commute _ _ _ _ _ _ _ _ H1 H2) as (b1' & H1' & H2').
  apply bind_Ok. exists b1'. by rewrite H1', H2'.
Qed.

Lemma pairGrid_free a c grid b :
  pairGrid a c grid = Ok b -> binAt b a = Some 0 /\ binAt b c = Some 0.
Proof.
  unfold pairGrid. intros H. apply bind_Ok in H as (b1 & H1 & H2).
  apply orRaise_Ok in H1, H2. destruct a as [a1 a2], c as [c1 c2]. simpl in *.
  split.
  - apply (pySet2_keeps _ _ _ _ _ _ H2). by apply (pySet2_read _ _ _ _ _ H1).
  - by apply (pySet2_read _ _ _ _ _ H2).
Qed.

Lemma pairGrid_outcome a c grid :
  (exists b, pairGrid a c grid = Ok b) \/ pairGrid a c grid = Raise IndexError.
Proof.
  unfold pairGrid.
  destruct (pySet2 (binGridOf grid) a.1 a.2 0) as [b1|]; simpl; [|by right].
  destruct (pySet2 b1 c.1 c.2 0) as [b|]; simpl; [left; eauto|by right].
Qed.

Lemma walk_end_free b s e k :
  binAt b s = Some 0 -> walk b s e k -> binAt b e = Some 0.
Proof.
  intros Hs. destruct 1 as [|m c k _ Hstep]; [done|].
  by apply getFreeNeighbours_elem in Hstep as [_ ?].
Qed.

(** A walk from a free tile can be walked back. *)
Lemma walk_reverse b s e k :
  binAt b s = Some 0 -> walk b s e k -> walk b e s k.
Proof.
  intros Hs. induction 1 as [|m c k Hw IH Hstep]; [apply walk_here|].
  apply (walk_cons _ _ m); [|done].
  apply getFreeNeighbours_elem in Hstep as [Hd _]. apply getFreeNeighbours_elem.
  split; [|by apply (walk_end_free b s m k)].
  unfold getManhattanDist in *. lia.
Qed.

(** X11.  [getDist] does not depend on the order of the two tiles: with
    fuel for a search of the grid, [getDist(a, c)] and [getDist(c, a)]
    return the same distance, or both raise [IndexError].  This is what
    lets [convertToGraph] write one distance on both sides of the
    matrix. *)
Theorem getDist_symmetric (fuel : nat) (a c : Z * Z) (grid : list (list string)) :
  (aStarFuel (map length grid) <= fuel)%nat ->
  getDist fuel a c grid = getDist fuel c a grid /\
  ((exists d, getDist fuel a c grid = Ok d) \/
   getDist fuel a c grid = Raise IndexError).
Proof.
  intros Hf. unfold getDist.
  destruct (pairGrid_outcome a c grid) as [[b Hb]|Hb].
  - rewrite Hb, (pairGrid_swap _ _ _ _ Hb). simpl.
    pose proof (pairGrid_free _ _ _ _ Hb) as [Ha Hc].
    apply pairGrid_shape in Hb. rewrite <- Hb in Hf.
    destruct (aStarSearch_terminates fuel a c b getManhattanDist Hf) as [r Hr].
    destruct (aStarSearch_terminates fuel c a b getManhattanDist Hf) as [r' Hr'].
    rewrite Hr, Hr'. simpl. split; [|left; eauto]. f_equal.
    pose proof (aStarSearch_least b getManhattanDist a c
                  (getManhattanDist_consistent b c) fuel r Hr) as Hle.
    pose proof (aStarSearch_least b getManhattanDist c a
                  (getManhattanDist_consistent b a) fuel r' Hr') as Hle'.
    apply aStarSearch_cases in Hr as [[-> Hno]|(n & Hn & Hloc & ->)],
      Hr' as [[-> Hno']|(n' & Hn' & Hloc' & ->)]; simpl in *.
    + done.
    + apply nodeWalk_walk in Hn' as [_ Hw]. rewrite Hloc' in Hw.
      apply walk_reverse in Hw; [|done]. by apply Hno in Hw.
    + apply nodeWalk_walk in Hn as [_ Hw]. rewrite Hloc in Hw.
      apply walk_reverse in Hw; [|done]. by apply Hno' in Hw.
    + apply nodeWalk_walk in Hn as [H0 Hw], Hn' as [H0' Hw'].
      rewrite Hloc in Hw. rewrite Hloc' in Hw'.
      apply walk_reverse in Hw as Hwr; [|done].
      apply walk_reverse in Hw' as Hwr'; [|done].
      apply Hle in Hwr'. apply Hle' in Hwr. lia.
  - rewrite Hb. simpl. split; [|by right].
    destruct (pairGrid_outcome c a grid) as [[b' Hb']|Hb']; [|by rewrite Hb'].
    apply pairGrid_swap in Hb'. congruence.
Qed.

Lemma getDist_symmetric_witness :
  getDist (aStarFuel (map length detourWorld)) (0, 0) (0, 2) detourWorld =
  getDist (aStarFuel (map length detourWorld)) (0, 2) (0, 0) detourWorld /\
  ((exists d, getDist (aStarFuel (map length detourWorld)) (0, 0) (0, 2) detourWorld = Ok d) \/
   getDist (aStarFuel (map length detourWorld)) (0, 0) (0, 2) detourWorld = Raise IndexError).
Proof.
  apply (getDist_symmetric (aStarFuel (map length detourWorld))). exact (le_n _).
Defined.

(** * [convertToGraph]: the matrix *)

Lemma getEdge_edgeOf gr a c w :
  getEdge gr a c = Ok w <-> edgeOf (gAdj gr) a c = Some w.
Proof.
  unfold getEdge, edgeOf. destruct (gAdj gr !! a) as [row|]; simpl; [|done].
  apply orRaise_Ok.
Qed.

Lemma setEdge_edge adj s t d adj' :
  setEdge adj s t d = Ok adj' ->
  forall a c, edgeOf adj' a c =
    if decide (a = s /\ c = t) then Some d else edgeOf adj a c.
Proof.
  unfold setEdge. intros H a c. apply bind_Ok in H as (row & Hrow & [= <-]).
  apply orRaise_Ok in Hrow. unfold edgeOf.
  destruct (decide (a = s)) as [->|Hne].
  - rewrite lookup_insert_eq, Hrow. simpl. destruct (decide (c = t)) as [->|Hne].
    + rewrite lookup_insert_eq. by rewrite decide_True.
    + rewrite lookup_insert_ne by done. rewrite decide_False; [done|tauto].
  - rewrite lookup_insert_ne by done. rewrite decide_False; [done|tauto].
Qed.

Section matrix.
Context (fuel : nat) (grid : list (list string)).

Lemma fillRow_edge s adj targets adj' :
  fillRow fuel grid s adj targets = Ok adj' ->
  forall a c,
    (a = s -> c ∈ targets ->
       exists w, getDist fuel (loc s) (loc c) grid = Ok w /\ edgeOf adj' a c = Some w) /\
    (c = s -> a ∈ targets ->
       exists w, getDist fuel (loc s) (loc a) grid = Ok w /\ edgeOf adj' a c = Some w) /\
    (~ (a = s /\ c ∈ targets) -> ~ (c = s /\ a ∈ targets) ->
       edgeOf adj' a c = edgeOf adj a c).
Proof.
  unfold fillRow. revert adj. induction targets as [|x l IH]; intros adj H a c.
  - injection H as <-. split; [|split]; try done.
    + by intros _ ?%elem_of_nil.
    + by intros _ ?%elem_of_nil.
  - cbn [foldM] in H. apply bind_Ok in H as (adj2 & Hx & H).
    apply bind_Ok in Hx as (d & Hd & Hx). apply bind_Ok in Hx as (adj1 & H1 & H2).
    pose proof (setEdge_edge _ _ _ _ _ H1) as E1.
    pose proof (setEdge_edge _ _ _ _ _ H2) as E2.
    destruct (IH _ H a c) as (IH1 & IH2 & IH3).
    assert (Hsx : edgeOf adj2 s x = Some d).
    { rewrite E2. case_decide; [done|]. rewrite E1. by rewrite decide_True. }
    assert (Hxs : edgeOf adj2 x s = Some d).
    { rewrite E2. by rewrite decide_True. }
    split; [|split].
    + intros -> Hc. destruct (decide (c ∈ l)) as [Hl|Hl]; [by apply IH1|].
      apply elem_of_cons in Hc as [->|Hc]; [|done].
      exists d. split; [done|]. rewrite IH3; [done|tauto|].
      intros [-> ?]. done.
    + intros -> Ha. destruct (decide (a ∈ l)) as [Hl|Hl]; [by apply IH2|].
      apply elem_of_cons in Ha as [->|Ha]; [|done].
      exists d. split; [done|]. rewrite IH3; [done| |tauto].
      intros [-> ?]. done.
    + intros Hn1 Hn2. rewrite IH3.
      * rewrite E2. rewrite decide_False.
        -- rewrite E1. rewrite decide_False; [done|].
           intros [-> ->]. apply Hn1. split; [done|left].
        -- intros [-> ->]. apply Hn2. split; [done|left].
      * intros [-> Hc]. apply Hn1. split; [done|by right].
      * intros [-> Ha]. apply Hn2. split; [done|by right].
Qed.

Lemma fillRows_edge l adj adj' :
  NoDup l -> fillRows fuel grid adj l = Ok adj' ->
  (forall i j a c, (i < j)%nat -> l !! i = Some a -> l !! j = Some c ->
     exists w, getDist fuel (loc a) (loc c) grid = Ok w /\
       edgeOf adj' a c = Some w /\ edgeOf adj' c a = Some w) /\
  (forall a c, a ∉ l \/ c ∉ l \/ a = c -> edgeOf adj' a c = edgeOf adj a c).
Proof.
  revert adj. induction l as [|s rest IH]; intros adj Hnd H.
  - injection H as <-. split; [|done]. intros i j a c _ Ha. by rewrite lookup_nil in Ha.
  - simpl in H. apply bind_Ok in H as (adj1 & H1 & H).
    apply NoDup_cons in Hnd as [Hs Hnd].
    destruct (IH _ Hnd H) as [IHp IHu].
    pose proof (fillRow_edge _ _ _ _ H1) as Hrow. split.
    + intros i j a c Hij Ha Hc. destruct i as [|i].
      * injection Ha as <-. destruct j as [|j]; [lia|]. simpl in Hc.
        apply list_elem_of_lookup_2 in Hc.
        destruct (Hrow s c) as ((w & Hw & Hsc) & _ & _); [done|done|].
        destruct (Hrow c s) as (_ & (w' & Hw' & Hcs) & _); [done|done|].
        exists w. split; [done|]. rewrite !IHu by tauto. split; [done|]. congruence.
      * destruct j as [|j]; [lia|]. apply (IHp i j); [lia|done|done].
    + intros a c Hac. rewrite IHu.
      * destruct (Hrow a c) as (_ & _ & Hu). apply Hu.
        -- intros [-> Hc]. destruct Hac as [Ha|[Hc'|Heq]].
           ++ apply Ha. left.
           ++ apply Hc'. by right.
           ++ by subst c.
        -- intros [-> Ha]. destruct Hac as [Ha'|[Hc|Heq]].
           ++ apply Ha'. by right.
           ++ apply Hc. left.
           ++ by subst a.
      * destruct Hac as [Ha|[Hc|Heq]]; [left|right; left|by right; right].
        -- intros ?. apply Ha. by right.
        -- intros ?. apply Hc. by right.
Qed.
End matrix.

Lemma dictKeys_acc (l acc : list Object) :
  NoDup (acc ++ l) ->
  foldl (fun acc o => if decide (o ∈ acc) then acc else acc ++ [o]) acc l = acc ++ l.
Proof.
  revert acc. induction l as [|o l IH]; intros acc Hnd; simpl; [by rewrite app_nil_r|].
  rewrite decide_False.
  - rewrite IH; rewrite <- app_assoc; done.
  - apply NoDup_app in Hnd as (_ & Hd & _). intros Ho. apply (Hd o Ho). left.
Qed.

Lemma dictKeys_NoDup l : NoDup l -> dictKeys l = l.
Proof. intros Hnd. unfold dictKeys. by rewrite dictKeys_acc. Qed.

(** The objects of a grid come without repetition. *)
Lemma nonObstaclesOf_NoDup grid objs : nonObstaclesOf grid = Ok objs -> NoDup objs.
Proof.
  intros (a & c & s & Ha & Hc & Hs & ->)%nonObstaclesOf_Ok.
  pose proof (fun o => findAll_elem _ _ _ o Ha) as Ea.
  pose proof (fun o => findAll_elem _ _ _ o Hc) as Ec.
  pose proof (fun o => findAll_elem _ _ _ o Hs) as Es.
  apply findCols_increasing in Ha as [Ha%increasing_NoDup _],
    Hc as [Hc%increasing_NoDup _], Hs as [Hs%increasing_NoDup _].
  apply NoDup_app. split; [done|]. split.
  - intros o Ho [Ho'|Ho']%elem_of_app.
    + destruct (Ea o Ho) as (_ & _ & E1 & _), (Ec o Ho') as (_ & _ & E2 & _).
      rewrite E1 in E2. discriminate E2.
    + destruct (Ea o Ho) as (_ & _ & E1 & _), (Es o Ho') as (_ & _ & E2 & _).
      rewrite E1 in E2. discriminate E2.
  - apply NoDup_app. split; [done|]. split; [|done].
    intros o Ho Ho'.
    destruct (Ec o Ho) as (_ & _ & E1 & _), (Es o Ho') as (_ & _ & E2 & _).
    rewrite E1 in E2. discriminate E2.
Qed.

(** X12.  The graph of [convertToGraph]: its keys are the Agent tiles,
    then the coins, then the time-extension devices, each kind in
    column-major order and without repetition; the diagonal is 0; and
    for an object that comes before another in that order, both entries
    of the pair hold the [getDist] from the first to the second. *)
Theorem convertToGraph_matrix (fuel : nat) (grid : list (list string)) (gr : Graph) :
  convertToGraph fuel grid = Ok gr ->
  exists objs, nonObstaclesOf grid = Ok objs /\ NoDup objs /\ gKeys gr = objs /\
    (forall a, a ∈ objs -> getEdge gr a a = Ok 0) /\
    (forall i j a c, (i < j)%nat -> objs !! i = Some a -> objs !! j = Some c ->
       exists w, getDist fuel (loc a) (loc c) grid = Ok w /\
         getEdge gr a c = Ok w /\ getEdge gr c a = Ok w).
Proof.
  unfold convertToGraph. intros H.
  apply bind_Ok in H as (objs & Hobjs & H). apply bind_Ok in H as (adj & Hadj & [= <-]).
  pose proof (nonObstaclesOf_NoDup _ _ Hobjs) as Hnd.
  destruct (fillRows_edge _ _ _ _ _ Hnd Hadj) as [Hp Hu].
  exists objs. split; [done|]. split; [done|]. split; [by apply dictKeys_NoDup|].
  split.
  - intros a Ha. apply getEdge_edgeOf. simpl. rewrite Hu by tauto.
    destruct (zeroMatrix_complete objs a a Ha Ha) as (row & w & Hrow & Hw).
    unfold edgeOf. rewrite Hrow. simpl. rewrite Hw. f_equal.
    unfold zeroMatrix in Hrow.
    rewrite (lookup_const_map _ _ _ Ha) in Hrow. injection Hrow as <-.
    by apply lookup_const_map_inv in Hw.
  - intros i j a c Hij Ha Hc. destruct (Hp i j a c Hij Ha Hc) as (w & Hw & E1 & E2).
    exists w. split; [done|]. by rewrite !getEdge_edgeOf.
Qed.

Lemma convertToGraph_matrix_witness :
  exists objs, nonObstaclesOf scenarioA = Ok objs /\ NoDup objs /\
    gKeys (mkGraph [agentA; coin5]
             {[ agentA := {[ agentA := 0; coin5 := 2 ]};
                coin5 := {[ agentA := 2; coin5 := 0 ]} ]}) = objs /\
    (forall a, a ∈ objs ->
       getEdge (mkGraph [agentA; coin5]
                  {[ agentA := {[ agentA := 0; coin5 := 2 ]};
                     coin5 := {[ agentA := 2; coin5 := 0 ]} ]}) a a = Ok 0) /\
    (forall i j a c, (i < j)%nat -> objs !! i = Some a -> objs !! j = Some c ->
       exists w, getDist 100 (loc a) (loc c) scenarioA = Ok w /\
         getEdge (mkGraph [agentA; coin5]
                    {[ agentA := {[ agentA := 0; coin5 := 2 ]};
                       coin5 := {[ agentA := 2; coin5 := 0 ]} ]}) a c = Ok w /\
         getEdge (mkGraph [agentA; coin5]
                    {[ agentA := {[ agentA := 0; coin5 := 2 ]};
                       coin5 := {[ agentA := 2; coin5 := 0 ]} ]}) c a = Ok w).
Proof.
  apply (convertToGraph_matrix 100 scenarioA). vm_compute. reflexivity.
Defined.

(** * [omitFromGrid] *)

Lemma gridAt_same_shape (g grid : list (list string)) t :
  map length g = map length grid -> is_Some (gridAt g t) -> is_Some (gridAt grid t).
Proof.
  intros Hsh [tile (i & j & col & -> & Hcol & Htile)%gridAt_lookup].
  assert (Hl : map length grid !! i = Some (length col)).
  { rewrite <- Hsh, list_lookup_fmap, Hcol. done. }
  rewrite list_lookup_fmap in Hl.
  destruct (grid !! i) as [col'|] eqn:Hcol'; [|done]. injection Hl as Hl.
  destruct (col' !! j) as [tile'|] eqn:Htile'.
  - exists tile'. apply gridAt_lookup. by exists i, j, col'.
  - apply lookup_ge_None in Htile'. apply lookup_lt_Some in Htile. lia.
Qed.

Lemma pySet2_inside (g g1 : list (list string)) x y v :
  0 <= x -> 0 <= y -> pySet2 g x y v = Some g1 -> is_Some (gridAt g (x, y)).
Proof.
  intros Hx Hy (p & r & col & Hp & Hcol & Hr & _)%pySet2_pos.
  apply pyPos_Some in Hp as [Hp Hp'], Hr as [Hr Hr'].
  assert (p = Z.to_nat x) as -> by lia. assert (r = Z.to_nat y) as -> by lia.
  destruct (col !! Z.to_nat y) as [tile|] eqn:Htile.
  - exists tile. unfold gridAt. simpl. rewrite decide_True by done.
    rewrite Hcol. done.
  - apply lookup_ge_None in Htile. lia.
Qed.

(** The loop stops with [IndexError] when an object lies outside the
    grid. *)
Lemma omit_list_Raise (grid g : list (list string)) (l : list Object) :
  map length g = map length grid ->
  (forall o, o ∈ l -> 0 <= ox o /\ 0 <= oy o) ->
  (exists o, o ∈ l /\ gridAt grid (loc o) = None) ->
  foldM (fun g o => orRaise IndexError (pySet2 g (ox o) (oy o) "."%string)) g l
  = Raise IndexError.
Proof.
  revert g. induction l as [|a l IH]; intros g Hsh Hpos (o & Ho & Hout).
  { by apply elem_of_nil in Ho. }
  cbn [foldM]. destruct (pySet2 g (ox a) (oy a) ".") as [g1|] eqn:Hg1; [|done].
  cbn [orRaise mbind outcome_bind bind]. apply IH.
  - by rewrite (pySet2_shape _ _ _ _ _ Hg1).
  - intros o' Ho'. apply Hpos. by right.
  - exists o. split; [|done]. apply elem_of_cons in Ho as [->|Ho]; [|done].
    exfalso. destruct (Hpos a ltac:(left)) as [Hx Hy].
    apply pySet2_inside in Hg1; [|done..].
    apply (gridAt_same_shape _ grid) in Hg1; [|done].
    unfold loc in Hout. rewrite Hout in Hg1. by destruct Hg1.
Qed.

(** X13.  [omitFromGrid] on objects with coordinates that are not
    negative: when each of them lies inside the grid, the result has the
    shape of the grid, reads ["."] at the tiles of the objects and is
    the grid elsewhere; when one of them lies outside, [IndexError] is
    raised. *)
Theorem omitFromGrid_empties_visited (grid : list (list string))
    (visited : gset Object) :
  (forall o, o ∈ visited -> 0 <= ox o /\ 0 <= oy o) ->
  ((forall o, o ∈ visited -> is_Some (gridAt grid (loc o))) /\
   exists g', omitFromGrid grid visited = Ok g' /\
     map length g' = map length grid /\
     forall t, gridAt g' t =
       if decide (t ∈ locsOf visited) then Some "."%string else gridAt grid t) \/
  ((exists o, o ∈ visited /\ gridAt grid (loc o) = None) /\
   omitFromGrid grid visited = Raise IndexError).
Proof.
  intros Hpos.
  destruct (decide (Forall (fun o => is_Some (gridAt grid (loc o))) (elements visited)))
    as [Hall|Hex].
  - left. rewrite Forall_forall in Hall.
    assert (Hin : forall o, o ∈ visited -> is_Some (gridAt grid (loc o))).
    { intros o Ho. apply Hall. by apply elem_of_elements. }
    split; [done|]. destruct (omitFromGrid_spec grid visited Hin) as (g' & Hg' & Hat).
    exists g'. split; [done|]. split; [|done]. by apply omitFromGrid_shape in Hg'.
  - right. apply not_Forall_Exists in Hex; [|apply _].
    apply Exists_exists in Hex as (o & Ho & Hout).
    assert (Hnone : gridAt grid (loc o) = None).
    { destruct (gridAt grid (loc o)) eqn:E; [|done]. exfalso. apply Hout. eauto. }
    split; [exists o; split; [by apply elem_of_elements|done]|].
    unfold omitFromGrid. apply (omit_list_Raise grid); [done| |by exists o].
    intros o' Ho'%elem_of_elements. by apply Hpos.
Qed.

Lemma omitFromGrid_empties_visited_witness :
  ((forall o, o ∈ ({[ coin5 ]} : gset Object) -> is_Some (gridAt scenarioA (loc o))) /\
   exists g', omitFromGrid scenarioA {[ coin5 ]} = Ok g' /\
     map length g' = map length scenarioA /\
     forall t, gridAt g' t =
       if decide (t ∈ locsOf {[ coin5 ]}) then Some "."%string else gridAt scenarioA t) \/
  ((exists o, o ∈ ({[ coin5 ]} : gset Object) /\ gridAt scenarioA (loc o) = None) /\
   omitFromGrid scenarioA {[ coin5 ]} = Raise IndexError).
Proof.
  apply (omitFromGrid_empties_visited scenarioA {[ coin5 ]}).
  intros o ->%elem_of_singleton. simpl. lia.
Defined.

(** X14.  [omitFromGrid] followed by the three [findAll] of
    [convertToGraph]: for a set of objects of the grid, the objects of
    the altered grid are those of the grid that are not in the set. *)
Theorem omitFromGrid_removes_objects (grid : list (list string))
    (objs : list Object) (V : gset Object) :
  nonObstaclesOf grid = Ok objs -> V ⊆ list_to_set objs ->
  exists g' objs', omitFromGrid grid V = Ok g' /\
    nonObstaclesOf g' = Ok objs' /\
    forall o, o ∈ objs' <-> o ∈ objs /\ o ∉ V.
Proof.
  intros Hobjs HV.
  destruct (omitFromGrid_spec grid V) as (g' & Hg' & Hat).
  { intros o Ho%HV%elem_of_list_to_set.
    destruct (nonObstaclesOf_elem _ _ _ Hobjs Ho) as (t & -> & _). eauto. }
  destruct (nonObstaclesOf_omit _ _ _ _ Hobjs Hat) as (objs' & Hobjs' & Helem).
  exists g', objs'. split; [done|]. split; [done|]. intros o. rewrite Helem.
  split; intros [Ho Hn]; (split; [done|]).
  - intros HoV. apply Hn. apply elem_of_map. by exists o.
  - intros (v & Hloc & Hv)%elem_of_map. apply Hn.
    pose proof Hv as Hv'. apply HV, elem_of_list_to_set in Hv'.
    by rewrite (nonObstaclesOf_loc_inj _ _ _ _ Hobjs Ho Hv' Hloc).
Qed.

Lemma omitFromGrid_removes_objects_witness :
  exists g' objs', omitFromGrid scenarioA {[ coin5 ]} = Ok g' /\
    nonObstaclesOf g' = Ok objs' /\
    forall o, o ∈ objs' <-> o ∈ [agentA; coin5] /\ o ∉ ({[ coin5 ]} : gset Object).
Proof.
  apply (omitFromGrid_removes_objects scenarioA [agentA; coin5] {[ coin5 ]}).
  - vm_compute. reflexivity.
  - set_solver.
Defined.

(** * The entries of the table of [getMScores] *)

Lemma sdSum_app l1 l2 : sdSum (l1 ++ l2) = sdSum l1 + sdSum l2.
Proof.
  induction l1 as [|o l1 IH]; simpl; [done|]. rewrite IH. apply Z.add_assoc.
Qed.

Lemma nodeFrom_child root defaultLimit node nb w :
  nodeFrom root defaultLimit node -> nodeFrom root defaultLimit (childNode node nb w).
Proof.
  intros [Hh Ht]. unfold nodeFrom. rewrite getPath_child, sdSum_app. split.
  - destruct (getPath node); [done|]. done.
  - change (sdSum [nb])
      with ((if decide (identifier nb = "SD"%string) then value nb else 0) + 0).
    unfold getTrajLen in *. unfold childNode. simpl.
    generalize dependent (sdSum (getPath node)). intros z Ht.
    case_decide; lia.
Qed.

(** X15.  With a limit that stays below the sentinel [MAXDIST] with
    the time of all the devices, every entry of the table of
    [getMScores], at a key [L] with the score [s] and the path [p]: the
    path begins at the first Agent tile that [findAll] lists, holds
    objects of the grid without repetition, [s] is the sum of the
    values of its coins, and [L] is the limit plus the values of its
    time-extension devices. *)
Theorem getMScores_entry_shape (fuel : nat) (grid : list (list string))
    (defaultLimit : Z) (table : gmap Z (Z * list Object)) L s p :
  belowSentinel grid defaultLimit ->
  getMScores fuel grid defaultLimit = Ok table ->
  table !! L = Some (s, p) ->
  exists objs root agents,
    nonObstaclesOf grid = Ok objs /\ findAll "A" grid = Ok (root :: agents) /\
    head p = Some root /\ NoDup p /\ (forall o, o ∈ p -> o ∈ objs) /\
    s = coinSum p /\ L = defaultLimit + sdSum p.
Proof.
  intros _ H HL.
  apply getMScores_Ok in H as (objs & agents & root & gr & Hobjs & Hag & Hroot & _ & Hkeys & H).
  destruct agents as [|r agents]; [done|]. injection Hroot as ->.
  assert (Hin : root ∈ objs).
  { apply nonObstaclesOf_Ok in Hobjs as (a & c & s' & Ha & _ & _ & ->).
    rewrite Hag in Ha. injection Ha as <-. set_solver. }
  destruct (findAll_elem _ _ _ root Hag ltac:(left)) as (_ & _ & Hid & _).
  apply (searchLoop_inv fuel grid (gKeys gr)
           (fun n => nodeOk objs n /\ nodeFrom root defaultLimit n)) in H.
  - destruct (H L s p HL) as (n & [(Hnd & Hsub & Hsc) [Hh Ht]] & -> & -> & ->).
    exists objs, root, agents. rewrite Hsc. repeat split; done.
  - intros node nb w [Hok Hfrom] Hnb Hpath Hw. split.
    + apply nodeOk_child; [done| |done].
      by rewrite Hkeys, dictKeys_elem in Hnb.
    + by apply nodeFrom_child.
  - apply Forall_singleton. split.
    + split; [apply NoDup_singleton|]. split.
      * intros o Ho. simpl in Ho. apply list_elem_of_singleton in Ho. by subst o.
      * simpl. by rewrite Hid.
    + split; [done|]. unfold getTrajLen, sdSum. simpl. rewrite Hid. simpl. lia.
  - apply tableFrom_empty.
Qed.

Lemma getMScores_entry_shape_witness :
  exists objs root agents,
    nonObstaclesOf scenarioA = Ok objs /\ findAll "A" scenarioA = Ok (root :: agents) /\
    head [agentA; coin5] = Some root /\ NoDup [agentA; coin5] /\
    (forall o, o ∈ [agentA; coin5] -> o ∈ objs) /\
    5 = coinSum [agentA; coin5] /\ 2 = 2 + sdSum [agentA; coin5].
Proof.
  apply (getMScores_entry_shape 100 scenarioA 2 {[ 2 := (5, [agentA; coin5]) ]} 2).
  - exact scenarioA_belowSentinel.
  - vm_compute. reflexivity.
  - reflexivity.
Defined.

(** * [getMScores]: the table holds the best score of each length *)

Lemma covered_update node table : covered (updateScores node table) node.
Proof.
  unfold covered, updateScores.
  destruct (table !! getTrajLen node) as [[ms mp]|] eqn:Hl.
  - case_decide.
    + rewrite lookup_insert_eq. eexists _, _. split; [done|lia].
    + rewrite Hl. eexists _, _. split; [done|lia].
  - rewrite lookup_insert_eq. eexists _, _. split; [done|lia].
Qed.

Lemma covered_keep node table n :
  covered table n -> covered (updateScores node table) n.
Proof.
  intros (s & p & Hl & Hs). unfold covered, updateScores.
  destruct (table !! getTrajLen node) as [[ms mp]|] eqn:Hn.
  - case_decide as Hgt; [|by exists s, p].
    destruct (decide (getTrajLen n = getTrajLen node)) as [E|E].
    + rewrite E, lookup_insert_eq. rewrite E, Hn in Hl. injection Hl as <- <-.
      eexists _, _. split; [done|lia].
    + rewrite lookup_insert_ne by done. by exists s, p.
  - destruct (decide (getTrajLen n = getTrajLen node)) as [E|E].
    + rewrite E, Hn in Hl. done.
    + rewrite lookup_insert_ne by done. by exists s, p.
Qed.

Section tree.
Context (aFuel : nat) (grid : list (list string)) (keys : list Object).

Lemma reach_first m n :
  reach aFuel grid keys m n ->
  n = m \/ exists nb c, nb ∈ keys /\ childOf aFuel grid m nb c /\ reach aFuel grid keys c n.
Proof.
  induction 1 as [|n nb g' gr w Hr IH Hnb Hp Hg Hgr Hw Hle]; [by left|]. right.
  destruct IH as [->|(nb0 & c & Hnb0 & Hc & Hcn)].
  - exists nb, (childNode m nb w). split; [done|]. split; [|apply reach_here].
    by exists g', gr, w.
  - exists nb0, c. split; [done|]. split; [done|]. by eapply reach_child.
Qed.

Lemma expandNeighbour_step node q graphs nb q' graphs' :
  cacheRight aFuel grid graphs ->
  expandNeighbour aFuel grid node (q, graphs) nb = Ok (q', graphs') ->
  cacheRight aFuel grid graphs' /\
  (q' = q \/ exists c, childOf aFuel grid node nb c /\ q' = q ++ [c]) /\
  (forall c, childOf aFuel grid node nb c -> q' = q ++ [c]).
Proof.
  intros Hcache H. unfold expandNeighbour in H.
  apply bind_Ok in H as (entry & Hentry%orRaise_Ok & H).
  apply bind_Ok in H as ([alteredGraph graphs0] & Hgraph & H).
  assert (Hright : cacheRight aFuel grid graphs0 /\
            exists g0, omitFromGrid grid (getVisited node) = Ok g0 /\
              convertToGraph aFuel g0 = Ok alteredGraph).
  { destruct entry as [gr0|].
    - injection Hgraph as <- <-. split; [done|]. by apply Hcache.
    - apply bind_Ok in Hgraph as (g0 & Hg0 & Hgraph).
      apply bind_Ok in Hgraph as (gr0 & Hgr0 & [= <- <-]). split; [|eauto].
      intros V gr. destruct (decide (V = getVisited node)) as [->|Hne].
      + rewrite lookup_insert_eq. intros [= <-]. eauto.
      + rewrite lookup_insert_ne by done. apply Hcache. }
  destruct Hright as [Hcache0 (g0 & Hg0 & Hgr0)].
  assert (Hsame : forall c, childOf aFuel grid node nb c ->
            exists w, getEdge alteredGraph (dObj node) nb = Ok w /\
              w <= dBudget node /\ (nb ∉ getPath node) /\ c = childNode node nb w).
  { intros c (g' & gr & w & Hp & Hg & Hgr & Hw & Hle & ->).
    rewrite Hg0 in Hg. injection Hg as <-. rewrite Hgr0 in Hgr. injection Hgr as <-.
    eauto. }
  case_decide as Hin.
  - injection H as <- <-. split; [done|]. split; [by left|].
    intros c (w & _ & _ & Hp & _)%Hsame. done.
  - apply bind_Ok in H as (w & Hw & H). case_decide as Hgt.
    + injection H as <- <-. split; [done|]. split; [by left|].
      intros c (w' & Hw' & Hle & _)%Hsame. rewrite Hw in Hw'. injection Hw' as <-. lia.
    + injection H as <- <-. split; [done|]. split.
      * right. exists (childNode node nb w). split; [|done].
        exists g0, alteredGraph, w. repeat split; try done; lia.
      * intros c (w' & Hw' & _ & _ & ->)%Hsame. rewrite Hw in Hw'. by injection Hw' as <-.
Qed.

Lemma expand_all_step node l q graphs st :
  cacheRight aFuel grid graphs ->
  foldM (expandNeighbour aFuel grid node) (q, graphs) l = Ok st ->
  cacheRight aFuel grid st.2 /\
  (forall x, x ∈ st.1 -> x ∈ q \/ exists nb, nb ∈ l /\ childOf aFuel grid node nb x) /\
  (forall x, x ∈ q -> x ∈ st.1) /\
  (forall nb c, nb ∈ l -> childOf aFuel grid node nb c -> c ∈ st.1).
Proof.
  revert q graphs. induction l as [|nb l IH]; intros q graphs Hcache H.
  - injection H as <-. simpl. repeat split; try done; [by left|].
    by intros nb c ?%elem_of_nil.
  - cbn [foldM] in H. apply bind_Ok in H as ([q1 g1] & H1 & H).
    destruct (expandNeighbour_step _ _ _ _ _ _ Hcache H1) as (Hc1 & Hq1 & Hall1).
    destruct (IH _ _ Hc1 H) as (Hc & Hfrom & Hkeep & Hall).
    split; [done|]. split; [|split].
    + intros x [Hx|(nb' & Hnb' & Hch)]%Hfrom.
      * destruct Hq1 as [->|(c & Hc' & ->)]; [by left|].
        apply elem_of_app in Hx as [Hx | ->%list_elem_of_singleton]; [by left|].
        right. exists nb. split; [left|done].
      * right. exists nb'. split; [by right|done].
    + intros x Hx. apply Hkeep.
      destruct Hq1 as [->|(c & _ & ->)]; [done|]. apply elem_of_app. by left.
    + intros nb' c [-> | Hnb']%elem_of_cons Hch.
      * apply Hkeep. rewrite (Hall1 c Hch). apply elem_of_app. right. left.
      * by apply (Hall nb').
Qed.

Lemma searchLoop_tree (root : DLSNode) fuel q table graphs table' :
  cacheRight aFuel grid graphs ->
  Forall (reach aFuel grid keys root) q ->
  tableFrom (reach aFuel grid keys root) table ->
  (forall n, reach aFuel grid keys root n ->
     covered table n \/ exists m, m ∈ q /\ reach aFuel grid keys m n) ->
  searchLoop fuel aFuel grid keys q table graphs = Ok table' ->
  tableFrom (reach aFuel grid keys root) table' /\
  forall n, reach aFuel grid keys root n -> covered table' n.
Proof.
  revert q table graphs.
  induction fuel as [|fuel IH]; intros q table graphs Hcache Hq Ht Hcov H; [done|].
  simpl in H. destruct q as [|node q].
  - injection H as <-. split; [done|]. intros n Hn.
    destruct (Hcov n Hn) as [?|(m & Hm & _)]; [done|]. by apply elem_of_nil in Hm.
  - apply bind_Ok in H as (st & Hst & H).
    apply Forall_cons in Hq as [Hnode Hq].
    destruct (expand_all_step _ _ _ _ _ Hcache Hst) as (Hc & Hfrom & Hkeep & Hall).
    refine (IH _ _ _ Hc _ _ _ H).
    + apply Forall_forall. intros x [Hx|(nb & Hnb & Hch)]%Hfrom.
      * rewrite Forall_forall in Hq. by apply Hq.
      * destruct Hch as (g' & gr & w & Hp & Hg & Hgr & Hw & Hle & ->).
        by eapply reach_child.
    + intros L s p. unfold updateScores.
      destruct (table !! getTrajLen node) as [[ms mp]|] eqn:Hl.
      * case_decide; [|apply Ht].
        destruct (decide (L = getTrajLen node)) as [->|].
        -- rewrite lookup_insert_eq. intros [= <- <-]. eauto.
        -- rewrite lookup_insert_ne by done. apply Ht.
      * destruct (decide (L = getTrajLen node)) as [->|].
        -- rewrite lookup_insert_eq. intros [= <- <-]. eauto.
        -- rewrite lookup_insert_ne by done. apply Ht.
    + intros n Hn. destruct (Hcov n Hn) as [Hn'|(m & Hm & Hmn)].
      * left. by apply covered_keep.
      * apply elem_of_cons in Hm as [->|Hm].
        -- apply reach_first in Hmn as [->|(nb & c & Hnb & Hch & Hcn)].
           ++ left. apply covered_update.
           ++ right. exists c. split; [|done]. by apply (Hall nb).
        -- right. exists m. split; [|done]. by apply Hkeep.
Qed.
End tree.

Lemma initialGraphs_right fuel grid objs gr :
  convertToGraph fuel grid = Ok gr -> cacheRight fuel grid (initialGraphs objs gr).
Proof.
  intros Hgr V g. unfold initialGraphs.
  destruct (decide (V = ∅)) as [->|Hne].
  - rewrite lookup_insert_eq. intros [= <-]. exists grid. split; [|done].
    unfold omitFromGrid. by rewrite elements_empty.
  - rewrite lookup_insert_ne by done. by intros ?%lookup_const_map_inv.
Qed.



(** * [parseEnv]: where the tokens go *)

Lemma splitRuns_tokens s cur toks :
  splitRuns s = (cur, toks) ->
  spaceFree cur = true /\ forall t, t ∈ toks -> token t.
Proof.
  revert cur toks. induction s as [|c s IH]; intros cur toks H; simpl in H.
  - injection H as <- <-. split; [done|]. by intros t ?%elem_of_nil.
  - destruct (splitRuns s) as [cur0 toks0]. destruct (IH _ _ eq_refl) as [Hc Ht].
    destruct (isSpace c) eqn:Hsp.
    + injection H as <- <-. split; [done|]. case_decide as He; [done|].
      intros t [->|Hin]%elem_of_cons; [done|by apply Ht].
    + injection H as <- <-. split; [|done]. simpl. by rewrite Hsp.
Qed.

Lemma split_tokens s t : t ∈ split s -> token t.
Proof.
  unfold split. destruct (splitRuns s) as [cur toks] eqn:H.
  apply splitRuns_tokens in H as [Hc Ht]. case_decide as He; [apply Ht|].
  intros [->|Hin]%elem_of_cons; [done|by apply Ht].
Qed.

(** The transpose reads the [x]-th element of the [y]-th row at column
    [x], row [y]. *)
Lemma transpose_lookup (rs : list (list string)) (n x y : nat) :
  (forall row, row ∈ rs -> length row = n) ->
  (col ← ((fun j => (fun r' : list string => nth j r' EmptyString) <$> rs) <$> seq 0 n) !! x;
   col !! y) = (row ← rs !! y; row !! x).
Proof.
  intros Hlen. rewrite list_lookup_fmap. destruct (decide (x < n)%nat) as [Hx|Hx].
  - rewrite lookup_seq_lt by done. cbn [fmap option_fmap option_map mbind option_bind].
    rewrite list_lookup_fmap.
    destruct (rs !! y) as [row|] eqn:Hrow; simpl; [|done].
    assert (Hl : length row = n) by (apply Hlen; by eapply list_elem_of_lookup_2).
    destruct (row !! x) as [tile|] eqn:Htile.
    + f_equal. by apply nth_lookup_Some.
    + apply lookup_ge_None in Htile. lia.
  - rewrite lookup_seq_ge by lia. simpl.
    destruct (rs !! y) as [row|] eqn:Hrow; simpl; [|done].
    assert (Hl : length row = n) by (apply Hlen; by eapply list_elem_of_lookup_2).
    symmetry. apply lookup_ge_None. lia.
Qed.

Lemma npTranspose_lookup (rows grid : list (list string)) (x y : nat) :
  npTranspose rows = Ok grid ->
  (col ← grid !! x; col !! y) = (row ← rows !! y; row !! x).
Proof.
  unfold npTranspose. destruct rows as [|r rows].
  { intros [= <-]. by rewrite !lookup_nil. }
  destruct (forallb _ _) eqn:Hf; [|done]. intros [= <-].
  apply (transpose_lookup (r :: rows) (length r)).
  intros row Hrow%list_elem_of_In. rewrite forallb_forall in Hf.
  by apply Nat.eqb_eq, Hf.
Qed.

(** X17.  What [parseEnv] returns on a file of 7-bit characters
    without carriage return and null character: the limit is the
    integer of the first line; the tile at column [x] and row [y] of the
    grid is the [x]-th run of characters without white space on the
    line after the first [y + 1] lines; and every tile is such a run,
    so it is not empty. *)
Theorem parseEnv_reads_tokens (text : string) (epLen : Z) (grid : list (list string)) :
  fileText text = true ->
  parseEnv text = Ok (epLen, grid) ->
  pyInt (hd EmptyString (readlines text)) = Some epLen /\
  (forall (x y : nat) tile,
     gridAt grid (Z.of_nat x, Z.of_nat y) = Some tile <->
     exists line, tl (readlines text) !! y = Some line /\ split line !! x = Some tile) /\
  (forall col tile, col ∈ grid -> tile ∈ col -> token tile).
Proof.
  unfold parseEnv. intros _ H. apply bind_Ok in H as (n & Hn%orRaise_Ok & H).
  apply bind_Ok in H as (g & Hg & [= <- <-]). split; [done|].
  assert (Hat : forall (x y : nat) tile,
     gridAt g (Z.of_nat x, Z.of_nat y) = Some tile <->
     exists line, tl (readlines text) !! y = Some line /\ split line !! x = Some tile).
  { intros x y tile. unfold gridAt. simpl. rewrite decide_True by lia.
    rewrite !Nat2Z.id, (npTranspose_lookup _ _ x y Hg), list_lookup_fmap.
    destruct (tl (readlines text) !! y) as [line|]; simpl.
    - split; [by exists line|]. by intros (l & [= <-] & ?).
    - split; [done|]. by intros (l & ? & _). }
  split; [done|]. intros col tile Hcol Htile.
  destruct (elem_gridAt g col tile Hcol Htile) as [t Ht].
  pose proof Ht as Ht'. apply gridAt_lookup in Ht' as (i & j & _ & -> & _).
  apply Hat in Ht as (line & _ & Hx). apply (split_tokens line).
  by eapply list_elem_of_lookup_2.
Qed.

Lemma parseEnv_reads_tokens_witness :
  pyInt (hd EmptyString (readlines twoAgentsText)) = Some 2 /\
  (forall (x y : nat) tile,
     gridAt twoAgents (Z.of_nat x, Z.of_nat y) = Some tile <->
     exists line, tl (readlines twoAgentsText) !! y = Some line /\
       split line !! x = Some tile) /\
  (forall col tile, col ∈ twoAgents -> tile ∈ col -> token tile).
Proof.
  apply (parseEnv_reads_tokens twoAgentsText 2 twoAgents).
  - reflexivity.
  - vm_compute. reflexivity.
Defined.

(** * [getMScores]: how a run ends *)






(** * [parseEnv] reads back what [generateGrids.py] writes *)

(** ** [int(str(z))] *)

Lemma digit_char m :
  0 <= m < 10 ->
  isDigit (ascii_of_nat (Z.to_nat (48 + m))) = true /\
  digitVal (ascii_of_nat (Z.to_nat (48 + m))) = m.
Proof.
  intros Hm.
  assert (m = 0 \/ m = 1 \/ m = 2 \/ m = 3 \/ m = 4 \/ m = 5 \/ m = 6 \/ m = 7 \/
          m = 8 \/ m = 9) as Hc by lia.
  destruct Hc as [-> | [-> | [-> | [-> | [-> | [-> | [-> | [-> | [-> | ->]]]]]]]]];
    by vm_compute.
Qed.

Lemma digitsOf_parse fuel n acc after :
  (0 < fuel)%nat -> 0 <= n < 10 ^ Z.of_nat fuel ->
  parseDigits 0 after (digitsOf fuel n acc) = parseDigits n true acc.
Proof.
  revert n acc after. induction fuel as [|fuel IH]; intros n acc after Hf Hn; [lia|].
  cbn [digitsOf].
  assert (Hmod : 0 <= n mod 10 < 10) by (apply Z.mod_pos_bound; lia).
  destruct (digit_char _ Hmod) as [Hd Hv].
  case_decide as Hlt.
  - cbn [parseDigits]. rewrite Hd, Hv. f_equal. rewrite Z.mod_small; lia.
  - assert (0 < fuel)%nat.
    { destruct fuel; [|lia]. simpl in Hn. lia. }
    rewrite IH; [|done|].
    + cbn [parseDigits]. rewrite Hd, Hv. f_equal.
      pose proof (Z.div_mod n 10). lia.
    + rewrite Nat2Z.inj_succ, Z.pow_succ_r in Hn by lia. split.
      * apply Z.div_pos; lia.
      * apply Z.div_lt_upper_bound; lia.
Qed.

Lemma digitsOf_digits fuel n acc :
  0 <= n -> allDigits acc = true -> allDigits (digitsOf fuel n acc) = true.
Proof.
  revert n acc. induction fuel as [|fuel IH]; intros n acc Hn Hacc; [done|].
  cbn [digitsOf].
  assert (Hmod : 0 <= n mod 10 < 10) by (apply Z.mod_pos_bound; lia).
  destruct (digit_char _ Hmod) as [Hd _].
  case_decide.
  - simpl. by rewrite Hd, Hacc.
  - apply IH; [apply Z.div_pos; lia|]. simpl. by rewrite Hd, Hacc.
Qed.

Lemma digitsOf_nonempty fuel n acc : digitsOf (S fuel) n acc <> EmptyString.
Proof.
  revert n acc. induction fuel as [|fuel IH]; intros n acc.
  - simpl. by case_decide.
  - cbn [digitsOf]. case_decide; [done|]. apply IH.
Qed.

Lemma log2_fuel n : 0 <= n -> n < 10 ^ Z.of_nat (S (Z.to_nat (Z.log2 n))).
Proof.
  intros Hn. rewrite Nat2Z.inj_succ, Z2Nat.id by apply Z.log2_nonneg.
  destruct (decide (n = 0)) as [->|Hne].
  { apply Z.pow_pos_nonneg; [lia|]. pose proof (Z.log2_nonneg 0). lia. }
  pose proof (Z.log2_spec n ltac:(lia)) as [_ Hlt].
  eapply Z.lt_le_trans; [exact Hlt|].
  apply Z.pow_le_mono_l. pose proof (Z.log2_nonneg n). lia.
Qed.

(** [int] reads back what [str] writes. *)
Lemma pyInt_pyStr z : pyInt (pyStr z) = Some z.
Proof.
  unfold pyStr. set (n := Z.abs z). set (f := Z.to_nat (Z.log2 n)).
  assert (Hn : 0 <= n) by (unfold n; lia).
  pose proof (digitsOf_digits (S f) n EmptyString Hn eq_refl) as Hd.
  pose proof (digitsOf_nonempty f n EmptyString) as Hne.
  pose proof (digitsOf_parse (S f) n EmptyString false ltac:(lia)
                (conj Hn (log2_fuel n Hn))) as Hp.
  simpl parseDigits in Hp at 2.
  destruct (digitsOf (S f) n EmptyString) as [|c d] eqn:E; [done|].
  pose proof Hd as Hd'. simpl in Hd'. apply andb_prop in Hd' as [Hc Hd'].
  destruct (isDigit_not_sign c Hc) as (Hplus & Hminus & _).
  case_decide as Hz.
  - unfold pyInt. change (lstrip (String "-" (String c d))) with (String "-" (String c d)).
    assert (Hr : rstrip (String "-" (String c d)) = String "-" (String c d)).
    { change (rstrip (String "-" (String c d)))
        with (match rstrip (String c d) with
              | EmptyString => String "-" EmptyString
              | r => String "-" r
              end).
      by rewrite (rstrip_digits _ Hd). }
    rewrite Hr, Hp. simpl. f_equal. unfold n. lia.
  - unfold pyInt. rewrite (lstrip_digits _ Hd), (rstrip_digits _ Hd).
    assert (Hgo : parseDigits 0 false (String c d) = Some z).
    { rewrite Hp. f_equal. unfold n. lia. }
    clear Hp E. destruct c as [[] [] [] [] [] [] [] []]; try done.
Qed.

Lemma allDigits_oneLine d : allDigits d = true -> oneLine d = true.
Proof.
  induction d as [|c d IH]; [done|]. simpl. intros [Hc Hd]%andb_prop.
  rewrite (IH Hd), andb_true_r. clear IH Hd.
  destruct c as [[] [] [] [] [] [] [] []]; try done.
Qed.

Lemma pyStr_oneLine z : oneLine (pyStr z) = true.
Proof.
  unfold pyStr.
  assert (Hd : allDigits (digitsOf (S (Z.to_nat (Z.log2 (Z.abs z)))) (Z.abs z) EmptyString)
               = true) by (apply digitsOf_digits; [lia|done]).
  apply allDigits_oneLine in Hd. case_decide; [|done]. cbn [oneLine].
  rewrite Hd. reflexivity.
Qed.

(** ** Lines and tokens *)

Lemma append_cons x (a b : string) : (String x a +:+ b)%string = String x (a +:+ b).
Proof. reflexivity. Qed.

Lemma append_nil_l (b : string) : (EmptyString +:+ b)%string = b.
Proof. reflexivity. Qed.

Lemma append_assoc (a b c : string) : ((a +:+ b) +:+ c = a +:+ (b +:+ c))%string.
Proof.
  induction a as [|x a IH]; [done|]. rewrite !append_cons. f_equal. exact IH.
Qed.

Lemma append_nil_r (a : string) : (a +:+ EmptyString)%string = a.
Proof. induction a as [|x a IH]; [done|]. rewrite append_cons. f_equal. exact IH. Qed.

Lemma oneLine_app a b : oneLine (a +:+ b) = oneLine a && oneLine b.
Proof.
  induction a as [|x a IH]; [done|]. rewrite append_cons. simpl.
  by rewrite IH, andb_assoc.
Qed.

Lemma oneLine_spaces n : oneLine (spaces n) = true.
Proof. induction n as [|n IH]; simpl; [done|]. done. Qed.

Lemma spaceFree_oneLine t : spaceFree t = true -> oneLine t = true.
Proof.
  induction t as [|c t IH]; [done|]. simpl. intros [Hc Ht]%andb_prop.
  rewrite (IH Ht), andb_true_r. clear IH Ht.
  destruct c as [[] [] [] [] [] [] [] []]; try done.
Qed.

Lemma readlines_line line rest :
  oneLine line = true ->
  readlines (line +:+ String "010" rest) = line :: readlines rest.
Proof.
  induction line as [|c line IH]; [done|]. rewrite append_cons. simpl.
  intros [Hc Hl]%andb_prop. rewrite (IH Hl). destruct (Ascii.eqb c "010"); done.
Qed.

Lemma split_space c s : isSpace c = true -> split (String c s) = split s.
Proof.
  intros Hc. unfold split. cbn [splitRuns]. destruct (splitRuns s) as [cur toks].
  rewrite Hc. by rewrite decide_True.
Qed.

Lemma split_spaces n s : split (spaces n +:+ s) = split s.
Proof.
  induction n as [|n IH]; [done|]. cbn [spaces]. rewrite append_cons.
  by rewrite split_space.
Qed.

Lemma splitRuns_app t s :
  spaceFree t = true ->
  splitRuns (t +:+ s) = ((t +:+ (splitRuns s).1)%string, (splitRuns s).2).
Proof.
  induction t as [|c t IH].
  - intros _. rewrite !append_nil_l. by destruct (splitRuns s).
  - simpl. intros [Hc Ht]%andb_prop. rewrite !append_cons. cbn [splitRuns].
    rewrite (IH Ht). apply negb_true_iff in Hc. by rewrite Hc.
Qed.

(** A token in front of a space is the first item of [split]. *)
Lemma split_token t s :
  token t -> split (t +:+ String " " s) = t :: split s.
Proof.
  intros [Hne Hsf]. unfold split at 1. rewrite (splitRuns_app _ _ Hsf).
  cbn [splitRuns]. unfold split. destruct (splitRuns s) as [cur toks]. simpl.
  rewrite append_nil_r. by rewrite decide_False.
Qed.

Lemma split_center t w s :
  token t -> split (center t w +:+ String " " s) = t :: split s.
Proof.
  intros Ht. unfold center. rewrite !append_assoc, split_spaces.
  set (k := (w - String.length t - (w - String.length t) / 2)%nat).
  destruct k as [|k]; cbn [spaces].
  - rewrite append_nil_l. by apply split_token.
  - rewrite append_cons, split_token by done. f_equal.
    by rewrite split_spaces, split_space.
Qed.

Lemma center_oneLine t w : spaceFree t = true -> oneLine (center t w) = true.
Proof.
  intros Ht. unfold center.
  by rewrite !oneLine_app, !oneLine_spaces, (spaceFree_oneLine _ Ht).
Qed.

(** A row of tokens is written on a line that [split] reads back. *)
Lemma writeCells_split widths i row :
  (i + length row <= length widths)%nat ->
  (forall t, t ∈ row -> token t) ->
  exists line, writeCells widths i row = Ok line /\
    oneLine line = true /\ split line = row.
Proof.
  revert i. induction row as [|c row IH]; intros i Hlen Htok.
  - by exists EmptyString.
  - cbn [writeCells]. simpl in Hlen.
    destruct (widths !! i) as [w|] eqn:Hw.
    2:{ apply lookup_ge_None in Hw. lia. }
    destruct (IH (S i)) as (rest & Hrest & Hone & Hsplit).
    { lia. } { intros t Ht. apply Htok. by right. }
    rewrite Hrest. cbn [orRaise mbind outcome_bind bind].
    assert (Hc : token c) by (apply Htok; left).
    eexists. split; [done|]. split.
    + rewrite oneLine_app, (center_oneLine _ _ (proj2 Hc)). simpl. done.
    + rewrite split_center by done. by rewrite Hsplit.
Qed.

Lemma writeRows_lines widths rows :
  (forall row, row ∈ rows -> (length row <= length widths)%nat) ->
  (forall row t, row ∈ rows -> t ∈ row -> token t) ->
  exists body, writeRows widths rows = Ok body /\
    map split (readlines body) = rows.
Proof.
  induction rows as [|row rows IH]; intros Hlen Htok.
  - by exists EmptyString.
  - cbn [writeRows].
    destruct (writeCells_split widths 0 row) as (line & Hline & Hone & Hsplit).
    { apply Hlen. left. } { intros t. apply Htok. left. }
    destruct IH as (rest & Hrest & Hrows).
    { intros r Hr. apply Hlen. by right. }
    { intros r t Hr. apply Htok. by right. }
    rewrite Hline, Hrest. cbn [mbind outcome_bind bind].
    eexists. split; [done|]. rewrite (readlines_line _ _ Hone). simpl.
    by rewrite Hsplit, Hrows.
Qed.

(** ** The widths and the transpose *)

Lemma columnWidths_Ok grid :
  (forall col, col ∈ grid -> col <> []) ->
  exists widths, columnWidths grid = Ok widths /\ length widths = length grid.
Proof.
  induction grid as [|col grid IH]; intros Hne; [by exists []|].
  simpl. destruct col as [|t col]; [by destruct (Hne [] ltac:(left))|].
  destruct IH as (ws & Hws & Hl); [intros c Hc; apply Hne; by right|].
  cbn [maxLen mbind outcome_bind bind]. rewrite Hws. simpl.
  eexists. split; [done|]. simpl. by rewrite Hl.
Qed.

(** Two lists of lists with the same shape and the same entries. *)
Lemma grid_eq (g1 g2 : list (list string)) :
  map length g1 = map length g2 ->
  (forall x y, (col ← g1 !! x; col !! y) = (col ← g2 !! x; col !! y)) ->
  g1 = g2.
Proof.
  intros Hsh Hat. apply list_eq. intros x.
  pose proof (f_equal (fun l => l !! x) Hsh) as Hx. simpl in Hx.
  rewrite !list_lookup_fmap in Hx.
  destruct (g1 !! x) as [c1|] eqn:H1, (g2 !! x) as [c2|] eqn:H2; try done.
  f_equal. injection Hx as Hx. apply list_eq. intros y.
  specialize (Hat x y). by rewrite H1, H2 in Hat.
Qed.

(** The transpose of the transpose of a rectangular grid with a first
    row is the grid. *)
Lemma npTranspose_involutive grid rows :
  rectangular grid -> (forall col, col ∈ grid -> col <> []) ->
  npTranspose grid = Ok rows ->
  npTranspose rows = Ok grid /\ forall row, row ∈ rows -> length row = length grid.
Proof.
  intros Hrect Hne Hrows. destruct grid as [|col grid].
  { injection Hrows as <-. done. }
  assert (Hlen : forall row, row ∈ rows -> length row = length (col :: grid)).
  { unfold npTranspose in Hrows. destruct (forallb _ _); [|done].
    injection Hrows as <-. intros row (j & -> & _)%list_elem_of_fmap.
    simpl. f_equal. apply length_map. }
  assert (Hn : length rows = length col).
  { unfold npTranspose in Hrows. destruct (forallb _ _); [|done].
    injection Hrows as <-. by rewrite length_map, length_seq. }
  split; [|done].
  destruct (npTranspose_rectangular rows) as [g2 Hg2].
  { intros r Hr. rewrite (Hlen r Hr). destruct rows as [|r0 rows]; [by apply elem_of_nil in Hr|].
    simpl. symmetry. apply Hlen. left. }
  rewrite Hg2. f_equal. apply grid_eq.
  - assert (Hcol : col <> []) by (apply Hne; left).
    destruct rows as [|r0 rows]; [by destruct col|].
    unfold npTranspose in Hg2. destruct (forallb _ _); [|done].
    injection Hg2 as <-. rewrite map_map. simpl map at 1.
    rewrite (Hlen r0 ltac:(left)).
    apply list_eq. intros x. change (map ?f ?l) with (f <$> l).
    rewrite !list_lookup_fmap.
    destruct (decide (x < length (col :: grid))%nat) as [Hx|Hx].
    + rewrite lookup_seq_lt by done. simpl.
      destruct ((col :: grid) !! x) as [cx|] eqn:Hcx.
      2:{ apply lookup_ge_None in Hcx. lia. }
      simpl. f_equal. rewrite length_fmap.
      change (S (length rows)) with (length (r0 :: rows)). rewrite Hn.
      symmetry. apply (Hrect cx). by eapply list_elem_of_lookup_2.
    + rewrite lookup_seq_ge by lia.
      destruct ((col :: grid) !! x) as [cx|] eqn:Hcx; [|done].
      apply lookup_lt_Some in Hcx. lia.
  - intros x y. rewrite (npTranspose_lookup _ _ x y Hg2).
    by rewrite (npTranspose_lookup _ _ y x Hrows).
Qed.

(** X19.  The file that the [__main__] block of [generateGrids.py]
    writes for a limit and a grid (rectangular, with a first row, of
    non-empty 7-bit tiles without white space) is a file from which
    [parseEnv] returns that limit and that grid. *)
Theorem parseEnv_reads_written_grid (epLen : Z) (grid : list (list string)) :
  writable grid ->
  exists text, writeGrid epLen grid = Ok text /\ parseEnv text = Ok (epLen, grid).
Proof.
  intros (Hrect & Hne & Htok). unfold writeGrid.
  destruct (columnWidths_Ok grid Hne) as (widths & Hw & Hwl). rewrite Hw.
  destruct (npTranspose_rectangular grid Hrect) as [rows Hrows]. rewrite Hrows.
  destruct (npTranspose_involutive grid rows Hrect Hne Hrows) as [Hback Hlen].
  destruct (writeRows_lines widths rows) as (body & Hbody & Hlines).
  { intros row Hrow. rewrite (Hlen row Hrow). lia. }
  { intros row t [y Hy]%list_elem_of_lookup [x Hx]%list_elem_of_lookup.
    pose proof (npTranspose_lookup _ _ y x Hrows) as Hat.
    rewrite Hy in Hat. simpl in Hat. rewrite Hx in Hat.
    destruct (grid !! x) as [col|] eqn:Hcol; [|done]. simpl in Hat.
    apply (Htok col t); by eapply list_elem_of_lookup_2. }
  cbn [mbind outcome_bind bind]. rewrite Hbody. cbn [bind].
  eexists. split; [done|]. unfold parseEnv.
  rewrite (readlines_line _ _ (pyStr_oneLine epLen)). cbn [hd tl].
  rewrite pyInt_pyStr. cbn [orRaise mbind outcome_bind bind].
  by rewrite Hlines, Hback.
Qed.

Lemma scenarioA_writable : writable scenarioA.
Proof.
  split; [|split].
  - intros r Hr. unfold scenarioA in Hr.
    repeat (apply elem_of_cons in Hr as [-> | Hr]; [done|]).
    by apply elem_of_nil in Hr.
  - intros col Hcol. unfold scenarioA in Hcol.
    repeat (apply elem_of_cons in Hcol as [-> | Hcol]; [done|]).
    by apply elem_of_nil in Hcol.
  - intros col tile Hcol Htile. unfold scenarioA in Hcol.
    repeat (apply elem_of_cons in Hcol as [-> | Hcol];
            [repeat (apply elem_of_cons in Htile as [-> | Htile]; [by repeat split|]);
             by apply elem_of_nil in Htile|]).
    by apply elem_of_nil in Hcol.
Qed.

Lemma parseEnv_reads_written_grid_witness :
  exists text, writeGrid 2 scenarioA = Ok text /\ parseEnv text = Ok (2, scenarioA).
Proof. apply (parseEnv_reads_written_grid 2 scenarioA). apply scenarioA_writable. Defined.

(** * [getMScores]: the entries are within their time *)

Lemma getDist_nonneg fuel a c grid d : getDist fuel a c grid = Ok d -> 0 <= d.
Proof.
  unfold getDist. intros H. apply bind_Ok in H as (b & _ & H).
  apply bind_Ok in H as (r & Hr & [= <-]).
  apply aStarSearch_cases in Hr as [[-> _]|(n & Hn & _ & ->)]; [done|].
  by apply nodeWalk_walk in Hn as [? _].
Qed.

Lemma fillRows_nonneg fuel grid l adj adj' :
  (forall a c w, edgeOf adj a c = Some w -> 0 <= w) ->
  fillRows fuel grid adj l = Ok adj' ->
  forall a c w, edgeOf adj' a c = Some w -> 0 <= w.
Proof.
  revert adj. induction l as [|s rest IH]; intros adj H0 Hadj; simpl in Hadj.
  - by injection Hadj as <-.
  - apply bind_Ok in Hadj as (adj1 & H1 & Hadj). apply (IH adj1); [|done].
    unfold fillRow in H1. revert H1.
    apply (foldM_inv _ (fun m => forall a c w, edgeOf m a c = Some w -> 0 <= w));
      [|done].
    intros m t m' _ Hm Hstep a c w.
    apply bind_Ok in Hstep as (d & Hd%getDist_nonneg & Hstep).
    apply bind_Ok in Hstep as (m1 & E1 & E2).
    rewrite (setEdge_edge _ _ _ _ _ E2). case_decide; [by intros [= <-]|].
    rewrite (setEdge_edge _ _ _ _ _ E1). case_decide; [by intros [= <-]|]. apply Hm.
Qed.

(** No entry of the matrix of [convertToGraph] is negative. *)
Lemma convertToGraph_nonneg fuel grid gr a c w :
  convertToGraph fuel grid = Ok gr -> getEdge gr a c = Ok w -> 0 <= w.
Proof.
  unfold convertToGraph. intros H Hw.
  apply bind_Ok in H as (objs & _ & H). apply bind_Ok in H as (adj & Hadj & [= <-]).
  apply getEdge_edgeOf in Hw. simpl in Hw.
  refine (fillRows_nonneg _ _ _ _ _ _ Hadj a c w Hw).
  intros a0 c0 w0. unfold edgeOf.
  destruct (zeroMatrix objs !! a0) as [row|] eqn:Hrow; [|done]. simpl.
  unfold zeroMatrix in Hrow.
  destruct (decide (a0 ∈ objs)) as [Ha|Ha].
  - rewrite (lookup_const_map objs _ a0 Ha) in Hrow. injection Hrow as <-.
    intros ->%lookup_const_map_inv. done.
  - apply elem_of_list_to_map_2 in Hrow.
    apply list_elem_of_fmap in Hrow as (o & [= -> _] & Ho). done.
Qed.

(** The nodes of the search keep a budget that is not negative, so
    their cost is within their trajectory length. *)
Lemma reach_budget aFuel grid keys root n :
  0 <= dBudget root -> 0 <= dCost root ->
  (forall o, o ∈ keys -> identifier o = "SD"%string -> 0 <= value o) ->
  reach aFuel grid keys root n ->
  0 <= dBudget n /\ 0 <= dCost n <= getTrajLen n.
Proof.
  intros Hb Hc Hsd. induction 1 as [|n nb g' gr w Hr IH Hnb Hp Hg Hgr Hw Hle].
  - unfold getTrajLen. lia.
  - pose proof (convertToGraph_nonneg _ _ _ _ _ _ Hgr Hw) as H0.
    unfold getTrajLen in *. unfold childNode. simpl.
    case_decide as Hid; [|lia].
    pose proof (Hsd nb Hnb Hid). lia.
Qed.

(** X20.  With a limit that is not negative and stays below the
    sentinel [MAXDIST] with the time of all the devices, and with
    time-extension devices of values that are not negative, every entry of the table of
    [getMScores] is within its time: it is the score and the path of a
    node of the search whose cost, the sum of the distances along the
    path, is at most the trajectory length of the entry, and that
    length is at least the limit. *)
Theorem getMScores_entries_within_time (fuel : nat) (grid : list (list string))
    (defaultLimit : Z) (table : gmap Z (Z * list Object)) L s p :
  0 <= defaultLimit -> belowSentinel grid defaultLimit ->
  (forall objs o, nonObstaclesOf grid = Ok objs -> o ∈ objs ->
     identifier o = "SD"%string -> 0 <= value o) ->
  getMScores fuel grid defaultLimit = Ok table ->
  table !! L = Some (s, p) ->
  exists gr root agents n,
    convertToGraph fuel grid = Ok gr /\ findAll "A" grid = Ok (root :: agents) /\
    reach fuel grid (gKeys gr) (mkDLSNode None root 0 defaultLimit 0) n /\
    getPath n = p /\ dScore n = s /\ getTrajLen n = L /\
    0 <= dCost n <= L /\ defaultLimit <= L.
Proof.
  intros Hdl _ Hsd H HL.
  apply getMScores_Ok in H as (objs & agents & root & gr & Hobjs & Hag & Hroot & Hgr & Hkeys & H).
  destruct agents as [|r agents]; [done|]. injection Hroot as ->.
  destruct (findAll_elem _ _ _ root Hag ltac:(left)) as (_ & _ & Hid & _).
  pose proof H as Hshape.
  apply (searchLoop_tree fuel grid (gKeys gr) (mkDLSNode None root 0 defaultLimit 0)) in H.
  - destruct H as [Hfrom _]. destruct (Hfrom L s p HL) as (n & Hn & -> & -> & ->).
    exists gr, root, agents, n. repeat split; try done.
    + eapply reach_budget; [| |intros o Ho; apply (Hsd objs)|exact Hn]; simpl; try lia.
      * done.
      * by rewrite Hkeys, dictKeys_elem in Ho.
    + eapply reach_budget; [| |intros o Ho; apply (Hsd objs)|exact Hn]; simpl; try lia.
      * done.
      * by rewrite Hkeys, dictKeys_elem in Ho.
    + apply (searchLoop_inv fuel grid (gKeys gr)
               (fun n => (forall o, o ∈ getPath n -> o ∈ objs) /\
                         nodeFrom root defaultLimit n)) in Hshape.
      * destruct (Hshape _ _ _ HL) as (m & [Hsub [_ Ht]] & Hm & _ & Hpm).
        rewrite Hm, Ht. assert (0 <= sdSum (getPath m)); [|lia].
        clear Ht Hpm Hm. induction (getPath m) as [|o l IH]; [done|].
        unfold sdSum in *. simpl.
        assert (0 <= foldr (fun o acc =>
                  (if decide (identifier o = "SD"%string) then value o else 0) + acc) 0 l).
        { apply IH. intros o' Ho'. apply Hsub. by right. }
        case_decide as Ho; [|lia].
        pose proof (Hsd objs o Hobjs (Hsub o ltac:(left)) Ho). lia.
      * intros node nb w [Hsub Hfrom0] Hnb Hpath Hw. split; [|by apply nodeFrom_child].
        intros o. rewrite getPath_child. intros [Ho| ->%list_elem_of_singleton]%elem_of_app.
        -- by apply Hsub.
        -- by rewrite Hkeys, dictKeys_elem in Hnb.
      * apply Forall_singleton. split.
        -- intros o Ho. simpl in Ho. apply list_elem_of_singleton in Ho. subst o.
           apply nonObstaclesOf_Ok in Hobjs as (a & c & s' & Ha & _ & _ & ->).
           rewrite Hag in Ha. injection Ha as <-. set_solver.
        -- split; [done|]. unfold getTrajLen, sdSum. simpl. rewrite Hid. simpl. lia.
      * apply tableFrom_empty.
  - by apply initialGraphs_right.
  - apply Forall_singleton. apply reach_here.
  - apply tableFrom_empty.
  - intros n Hn. right. eexists. split; [left|done].
Qed.

Lemma getMScores_entries_within_time_witness :
  exists gr root agents n,
    convertToGraph 100 scenarioA = Ok gr /\ findAll "A" scenarioA = Ok (root :: agents) /\
    reach 100 scenarioA (gKeys gr) (mkDLSNode None root 0 2 0) n /\
    getPath n = [agentA; coin5] /\ dScore n = 5 /\ getTrajLen n = 2 /\
    0 <= dCost n <= 2 /\ 2 <= 2.
Proof.
  apply (getMScores_entries_within_time 100 scenarioA 2 {[ 2 := (5, [agentA; coin5]) ]}).
  - lia.
  - exact scenarioA_belowSentinel.
  - intros objs o [= <-] Ho Hid. unfold agentA, coin5 in Ho.
    apply elem_of_cons in Ho as [-> | Ho]; [done|].
    apply elem_of_cons in Ho as [-> | Ho]; [done|]. by apply elem_of_nil in Ho.
  - vm_compute. reflexivity.
  - reflexivity.
Defined.



(** * The keys of the cache of graphs *)

Lemma combinations_zero {A} (l : list A) : combinations l 0 = [[]].
Proof. by destruct l. Qed.

Lemma combinations_elem {A} (s l : list A) k :
  s ∈ combinations l k -> s `sublist_of` l /\ length s = k.
Proof.
  revert s k. induction l as [|x l IH]; intros s k Hs.
  - destruct k; simpl in Hs; [|by apply elem_of_nil in Hs].
    apply list_elem_of_singleton in Hs as ->. done.
  - destruct k as [|k]; simpl in Hs.
    { apply list_elem_of_singleton in Hs as ->. split; [apply sublist_nil_l|done]. }
    apply elem_of_app in Hs as [Hs|Hs].
    + apply list_elem_of_fmap in Hs as (s' & -> & Hs').
      destruct (IH _ _ Hs') as [Hsub Hlen]. split; [by apply sublist_skip|].
      simpl. by rewrite Hlen.
    + destruct (IH _ _ Hs) as [Hsub Hlen]. split; [by apply sublist_cons|done].
Qed.

Lemma combinations_beyond {A} (l : list A) k :
  (length l < k)%nat -> combinations l k = [].
Proof.
  revert k. induction l as [|x l IH]; intros k Hk.
  - destruct k; [simpl in Hk; lia|done].
  - destruct k as [|k]; [lia|]. simpl in *.
    rewrite (IH k), (IH (S k)) by lia. done.
Qed.

Lemma sum_seq_shift (f : nat -> nat) a m :
  sum_list_with f (seq (S a) m) = sum_list_with (fun k => f (S k)) (seq a m).
Proof.
  revert a. induction m as [|m IH]; intros a; [done|].
  simpl. by rewrite IH.
Qed.

Lemma sum_list_with_add {A} (f g : A -> nat) l :
  sum_list_with (fun k => (f k + g k)%nat) l =
  (sum_list_with f l + sum_list_with g l)%nat.
Proof. induction l as [|x l IH]; simpl; [done|]. rewrite IH. lia. Qed.

Lemma sum_list_with_ext {A} (f g : A -> nat) l :
  (forall k, f k = g k) -> sum_list_with f l = sum_list_with g l.
Proof. intros H. induction l as [|x l IH]; simpl; [done|]. by rewrite H, IH. Qed.

(** The number of the combinations of all sizes. *)
Lemma combinations_count {A} (l : list A) m :
  (length l < m)%nat ->
  sum_list_with (fun k => length (combinations l k)) (seq 0 m) = (2 ^ length l)%nat.
Proof.
  revert m. induction l as [|x l IH]; intros m Hm.
  - destruct m as [|m]; [simpl in Hm; lia|]. cbn [seq sum_list_with].
    rewrite sum_seq_shift.
    rewrite (sum_list_with_ext _ (fun _ => 0%nat)) by (intros k; reflexivity).
    assert (forall ks : list nat, sum_list_with (fun _ => 0%nat) ks = 0%nat) as ->;
      [|reflexivity].
    intros ks. induction ks as [|k ks IHk]; [done|]. exact IHk.
  - destruct m as [|m]; [lia|]. simpl in Hm.
    cbn [seq sum_list_with]. rewrite combinations_zero, sum_seq_shift.
    rewrite (sum_list_with_ext _
               (fun k => (length (combinations l k) + length (combinations l (S k)))%nat)).
    2:{ intros k. cbn [combinations]. by rewrite length_app, length_map. }
    rewrite sum_list_with_add, (IH m) by lia.
    pose proof (IH (S m) ltac:(lia)) as HS. cbn [seq sum_list_with] in HS.
    rewrite combinations_zero, sum_seq_shift in HS. simpl in HS.
    cbn [length]. rewrite Nat.pow_succ_r'. simpl length. lia.
Qed.

(** X22.  The keys with which [getMScores] fills the cache of graphs
    before the search: the list [objectPowerset] holds the subsets of
    the objects and nothing else, and it has [2 ^ n] items for [n]
    objects. *)
Theorem objectPowerset_all_subsets (objs : list Object) :
  (forall V : gset Object, V ∈ objectPowerset objs <-> V ⊆ list_to_set objs) /\
  length (objectPowerset objs) = (2 ^ length objs)%nat.
Proof.
  split.
  - intros V. split; [|apply objectPowerset_elem].
    unfold objectPowerset. intros HV%list_elem_of_In%in_concat.
    destruct HV as (ll & Hll%in_map_iff & HV). destruct Hll as (k & <- & _).
    apply list_elem_of_In, list_elem_of_fmap in HV as (s & -> & Hs).
    apply combinations_elem in Hs as [Hs _]. intros o Ho%elem_of_list_to_set.
    apply elem_of_list_to_set. by eapply elem_of_sublist.
  - unfold objectPowerset.
    replace (length objs + 1)%nat with (S (length objs)) by lia.
    rewrite <- (combinations_count objs (S (length objs))) by lia.
    generalize (seq 0 (S (length objs))). intros ks.
    induction ks as [|k ks IHk]; [done|]. simpl.
    by rewrite length_app, length_map, IHk.
Qed.

(** * The search with Python's numbers *)

(** ** Integer nodes as nodes of Python numbers *)

Lemma ofNode_path n : PyNum.getPath (ofNode n) = getPath n.
Proof.
  revert n. fix IH 1. intros [[p|] o c b s]; simpl; [|done]. by rewrite IH.
Qed.

Lemma ofNode_visited n : PyNum.getVisited (ofNode n) = getVisited n.
Proof.
  destruct n as [[p|] o c b s]; unfold PyNum.getVisited, getVisited; simpl; [|done].
  by rewrite ofNode_path.
Qed.

Lemma ofNode_obj n : PyNum.dObj (ofNode n) = dObj n.
Proof. by destruct n. Qed.

Lemma ofNode_budget n : PyNum.dBudget (ofNode n) = PyNum.Int (dBudget n).
Proof. by destruct n. Qed.

Lemma ofNode_score n : PyNum.dScore (ofNode n) = dScore n.
Proof. by destruct n. Qed.

Lemma ofNode_trajLen n :
  PyNum.getTrajLen (ofNode n) = Ok (PyNum.Int (getTrajLen n)).
Proof. by destruct n. Qed.

(** The child of an integer node along an edge that is not the
    sentinel is the integer child. *)
Lemma ofNode_child n nb w :
  w <> MAXDIST ->
  PyNum.childNode (ofNode n) nb (PyNum.edge w) = Ok (ofNode (childNode n nb w)).
Proof.
  intros Hw. unfold PyNum.edge. rewrite decide_False by done.
  destruct n as [p o c b s]. unfold PyNum.childNode, childNode. simpl.
  by repeat case_decide.
Qed.

Lemma MAXDIST_double :
  PyNum.MAXDIST = PyNum.Float (SpecFloat.S754_finite false 5242880000000000 (-19)).
Proof. reflexivity. Qed.

(** The comparison of the expansion, on an integer budget below the
    sentinel. *)
Lemma gt_edge w b :
  b < MAXDIST -> PyNum.gt (PyNum.edge w) (PyNum.Int b) = true <-> w > b.
Proof.
  intros Hb. unfold PyNum.edge. case_decide as Hw.
  - rewrite MAXDIST_double. unfold PyNum.gt, PyNum.compare, PyNum.compareIntFloat.
    change (0 <=? -19) with false. change (2 ^ (- -19)) with 524288.
    change (SpecFloat.cond_Zopp false (Z.pos 5242880000000000)) with 5242880000000000.
    cbn [fmap option_fmap option_map]. unfold MAXDIST in *.
    destruct (Z.compare_spec (b * 524288) 5242880000000000); simpl; split; (done || lia).
  - unfold PyNum.gt, PyNum.compare.
    destruct (Z.compare_spec w b); split; (done || lia).
Qed.

(** ** One step of the loop *)

Section agree.
Context (aFuel : nat) (grid : list (list string)).

Lemma expandNeighbour_agree (n : DLSNode) (q : list DLSNode)
    (graphs : gmap (gset Object) (option Graph)) (nb : Object) :
  dBudget n < MAXDIST ->
  PyNum.expandNeighbour aFuel grid (ofNode n) (ofState (q, graphs)) nb =
  (st ← expandNeighbour aFuel grid n (q, graphs) nb; Ok (ofState st)).
Proof.
  intros Hb. unfold PyNum.expandNeighbour, expandNeighbour, ofState. cbn [fst snd].
  rewrite ofNode_visited, ofNode_path, ofNode_obj, ofNode_budget.
  destruct (graphs !! getVisited n) as [entry|]; [|done]. simpl.
  assert (Hgo : forall gr (graphs' : gmap (gset Object) (option Graph)),
    (if decide (nb ∈ getPath n) then Ok (ofNode <$> q, graphs')
     else w ← getEdge gr (dObj n) nb;
          if PyNum.gt (PyNum.edge w) (PyNum.Int (dBudget n))
          then Ok (ofNode <$> q, graphs')
          else child ← PyNum.childNode (ofNode n) nb (PyNum.edge w);
               Ok ((ofNode <$> q) ++ [child], graphs')) =
    (st ← (if decide (nb ∈ getPath n) then Ok (q, graphs')
           else w ← getEdge gr (dObj n) nb;
                if decide (w > dBudget n) then Ok (q, graphs')
                else Ok (q ++ [childNode n nb w], graphs'));
     Ok (ofState st))).
  { intros gr graphs'. case_decide; [done|].
    destruct (getEdge gr (dObj n) nb) as [w|e|]; [|done|done]. simpl.
    pose proof (gt_edge w (dBudget n) Hb) as Hgt.
    destruct (PyNum.gt (PyNum.edge w) (PyNum.Int (dBudget n))); case_decide as Hw.
    - done.
    - exfalso. apply Hw. by apply Hgt.
    - by apply Hgt in Hw.
    - rewrite ofNode_child by lia. unfold ofState.
      cbn [mbind outcome_bind bind fst snd]. by rewrite fmap_app. }
  destruct entry as [gr|]; simpl; [apply Hgo|].
  destruct (omitFromGrid grid (getVisited n)) as [g'|e|]; [|done|done]. simpl.
  destruct (convertToGraph aFuel g') as [gr|e|]; [|done|done]. simpl. apply Hgo.
Qed.

Lemma expand_all_agree (n : DLSNode) (l : list Object) (q : list DLSNode)
    (graphs : gmap (gset Object) (option Graph)) :
  dBudget n < MAXDIST ->
  foldM (PyNum.expandNeighbour aFuel grid (ofNode n)) (ofState (q, graphs)) l =
  (st ← foldM (expandNeighbour aFuel grid n) (q, graphs) l;
   Ok (ofState st)).
Proof.
  intros Hb. revert q graphs. induction l as [|nb l IH]; intros q graphs; [done|].
  cbn [foldM]. rewrite expandNeighbour_agree by done.
  destruct (expandNeighbour aFuel grid n (q, graphs) nb) as [[q1 g1]|e|]; [|done|done].
  simpl. apply IH.
Qed.

End agree.

Lemma updateScores_agree (n : DLSNode) (table : gmap Z (Z * list Object)) :
  PyNum.updateScores (ofNode n) (ofTable table) =
  Ok (ofTable (updateScores n table)).
Proof.
  unfold PyNum.updateScores, updateScores, ofTable.
  rewrite ofNode_trajLen, ofNode_score, ofNode_path. simpl.
  change (PyNum.Num (getTrajLen n) 0) with (intKey (getTrajLen n)).
  rewrite lookup_kmap by apply _.
  destruct (table !! getTrajLen n) as [[ms mp]|].
  - case_decide; [|done]. by rewrite kmap_insert by apply _.
  - by rewrite kmap_insert by apply _.
Qed.

(** ** The budgets stay below the sentinel *)

Lemma sdGain_nonneg l : 0 <= sdGain l.
Proof.
  induction l as [|o l IH]; [done|]. unfold sdGain in *. simpl.
  case_decide; lia.
Qed.

Lemma sdGain_app l1 l2 : sdGain (l1 ++ l2) = sdGain l1 + sdGain l2.
Proof.
  induction l1 as [|o l1 IH]; simpl; [done|]. rewrite IH. apply Z.add_assoc.
Qed.

Lemma sdGain_cons x l : sdGain (x :: l) = sdGain [x] + sdGain l.
Proof. apply (sdGain_app [x] l). Qed.

Lemma sdGain_submseteq l k : l ⊆+ k -> sdGain l <= sdGain k.
Proof.
  induction 1 as [|x l k Hlk IH|x y l|x l k Hlk IH|l k m Hlk IH1 Hkm IH2].
  - done.
  - rewrite (sdGain_cons x l), (sdGain_cons x k). lia.
  - rewrite (sdGain_cons x (y :: l)), (sdGain_cons y l),
      (sdGain_cons y (x :: l)), (sdGain_cons x l). lia.
  - rewrite (sdGain_cons x k). pose proof (sdGain_nonneg [x]). lia.
  - lia.
Qed.

(** A thrifty node has a budget below the sentinel. *)
Lemma thrifty_below objs defaultLimit n :
  defaultLimit + sdGain objs < MAXDIST ->
  thrifty objs defaultLimit n -> dBudget n < MAXDIST.
Proof.
  intros Hlim [(Hnd & Hsub & _) Hb].
  pose proof (sdGain_submseteq _ _ (NoDup_submseteq _ _ Hnd Hsub)). lia.
Qed.

Lemma thrifty_child aFuel grid objs defaultLimit n nb c :
  thrifty objs defaultLimit n -> nb ∈ objs -> childOf aFuel grid n nb c ->
  thrifty objs defaultLimit c.
Proof.
  intros [Hok Hb] Hnb (g' & gr & w & Hp & Hg & Hgr & Hw & Hle & ->). split.
  - by apply nodeOk_child.
  - pose proof (convertToGraph_nonneg _ _ _ _ _ _ Hgr Hw) as H0.
    rewrite getPath_child, sdGain_app.
    change (sdGain [nb])
      with ((if decide (identifier nb = "SD"%string) then Z.max 0 (value nb) else 0) + 0).
    unfold childNode. simpl.
    generalize dependent (sdGain (getPath n)). intros z Hb.
    case_decide; lia.
Qed.

(** ** The loop and the run *)

Section loop.
Context (aFuel : nat) (grid : list (list string)) (keys objs : list Object)
  (defaultLimit : Z).
Hypothesis Hkeys : forall o, o ∈ keys -> o ∈ objs.
Hypothesis Hlim : defaultLimit + sdGain objs < MAXDIST.

Lemma searchLoop_agree (fuel : nat) (q : list DLSNode)
    (table : gmap Z (Z * list Object)) (graphs : gmap (gset Object) (option Graph)) :
  cacheRight aFuel grid graphs ->
  Forall (thrifty objs defaultLimit) q ->
  PyNum.searchLoop fuel aFuel grid keys (ofNode <$> q) (ofTable table) graphs =
  (t ← searchLoop fuel aFuel grid keys q table graphs; Ok (ofTable t)).
Proof.
  revert q table graphs. induction fuel as [|fuel IH]; intros q table graphs Hc Hq; [done|].
  destruct q as [|n q]; [done|].
  apply Forall_cons in Hq as [Hn Hq].
  cbn [PyNum.searchLoop searchLoop fmap list_fmap].
  rewrite updateScores_agree. cbn [mbind outcome_bind bind].
  change (ofNode <$> q, graphs) with (ofState (q, graphs)).
  rewrite expand_all_agree by (by eapply thrifty_below).
  destruct (foldM (expandNeighbour aFuel grid n) (q, graphs) keys) as [st|e|] eqn:Hst;
    [|done|done].
  destruct (expand_all_step _ _ _ _ _ _ _ Hc Hst) as (Hc' & Hfrom & _ & _).
  cbn [mbind outcome_bind bind]. unfold ofState. cbn [fst snd].
  apply IH; [done|]. apply Forall_forall. intros x [Hx|(nb & Hnb & Hch)]%Hfrom.
  - rewrite Forall_forall in Hq. by apply Hq.
  - apply (thrifty_child aFuel grid objs defaultLimit n nb); auto.
Qed.

End loop.

(** X25.  Below the sentinel the integers are exact.  When the limit,
    with all the time that the devices of the grid can add, is below
    [MAXDIST], the run of [getMScores] with Python's numbers, where the
    sentinel is the float [10e9], sums with it are rounded to doubles
    and an [int] beyond the doubles raises [OverflowError], ends as the
    run with integers does, and returns the same table: no sentinel
    edge is taken, so no float is computed. *)
Theorem getMScores_exact_below_sentinel (fuel : nat) (grid : list (list string))
    (defaultLimit : Z) :
  belowSentinel grid defaultLimit ->
  PyNum.getMScores fuel grid defaultLimit =
  (table ← getMScores fuel grid defaultLimit; Ok (ofTable table)).
Proof.
  intros Hlim. unfold PyNum.getMScores, getMScores.
  destruct (convertToGraph fuel grid) as [gr|e|] eqn:Hgr; [|done|done].
  cbn [mbind outcome_bind bind].
  destruct (nonObstaclesOf grid) as [objs|e|] eqn:Hobjs; [|done|done].
  cbn [mbind outcome_bind bind].
  destruct (findAll "A" grid) as [agents|e|] eqn:Hag; [|done|done].
  cbn [mbind outcome_bind bind].
  destruct agents as [|root agents]; [done|]. cbn [head orRaise mbind outcome_bind bind].
  destruct (convertToGraph_keys _ _ _ Hgr) as (objs' & Hobjs' & Hkeys).
  rewrite Hobjs in Hobjs'. injection Hobjs' as <-.
  assert (Hin : root ∈ objs).
  { apply nonObstaclesOf_Ok in Hobjs as (a & c & s' & Ha & _ & _ & ->).
    rewrite Hag in Ha. injection Ha as <-. set_solver. }
  destruct (findAll_elem _ _ _ root Hag ltac:(left)) as (_ & _ & Hid & _).
  assert (Hsub : forall o, o ∈ gKeys gr -> o ∈ objs).
  { intros o. by rewrite Hkeys, dictKeys_elem. }
  rewrite <-(kmap_empty (M2 := gmap PyNum.key) intKey (A := Z * list Object)).
  apply (searchLoop_agree fuel grid (gKeys gr) objs defaultLimit Hsub (Hlim objs Hobjs)
           fuel [mkDLSNode None root 0 defaultLimit 0] ∅).
  - by apply initialGraphs_right.
  - apply Forall_singleton. split.
    + split; [apply NoDup_singleton|]. split.
      * intros o Ho. simpl in Ho. apply list_elem_of_singleton in Ho. by subst o.
      * simpl. by rewrite Hid.
    + change (defaultLimit <= defaultLimit + sdGain [root]).
      pose proof (sdGain_nonneg [root]). lia.
Qed.

Lemma getMScores_exact_below_sentinel_witness :
  PyNum.getMScores 100 scenarioA 2 =
  (table ← getMScores 100 scenarioA 2; Ok (ofTable table)).
Proof.
  apply (getMScores_exact_below_sentinel 100 scenarioA 2). exact scenarioA_belowSentinel.
Defined.

(** ** Beyond the sentinel *)

Lemma num_expandNeighbour_mono aFuel aFuel' grid node st nb :
  (aFuel <= aFuel')%nat ->
  below (PyNum.expandNeighbour aFuel grid node st nb)
        (PyNum.expandNeighbour aFuel' grid node st nb).
Proof.
  intros Hle. unfold PyNum.expandNeighbour. destruct st as [q graphs].
  apply below_bind; [apply below_refl|]. intros entry.
  apply below_bind; [|intros; apply below_refl].
  destruct entry; [apply below_refl|].
  apply below_bind; [apply below_refl|]. intros g.
  apply below_bind; [by apply convertToGraph_mono|]. intros; apply below_refl.
Qed.

Lemma num_searchLoop_mono fuel fuel' aFuel aFuel' grid keys q table graphs :
  (fuel <= fuel')%nat -> (aFuel <= aFuel')%nat ->
  below (PyNum.searchLoop fuel aFuel grid keys q table graphs)
        (PyNum.searchLoop fuel' aFuel' grid keys q table graphs).
Proof.
  intros Hle Hale. revert fuel' q table graphs Hle.
  induction fuel as [|fuel IH]; intros fuel' q table graphs Hle; [by left|].
  destruct fuel' as [|fuel']; [lia|]. simpl.
  destruct q as [|node q]; [apply below_refl|].
  apply below_bind; [apply below_refl|]. intros table'.
  apply below_bind.
  - apply below_foldM. intros. by apply num_expandNeighbour_mono.
  - intros st. apply IH. lia.
Qed.

(** A run with Python's numbers that ends with some fuel ends in the
    same way with more fuel. *)
Lemma num_getMScores_mono fuel fuel' grid defaultLimit :
  (fuel <= fuel')%nat ->
  below (PyNum.getMScores fuel grid defaultLimit) (PyNum.getMScores fuel' grid defaultLimit).
Proof.
  intros Hle. unfold PyNum.getMScores.
  apply below_bind; [by apply convertToGraph_mono|]. intros gr.
  apply below_bind; [apply below_refl|]. intros objs.
  apply below_bind; [apply below_refl|]. intros agents.
  apply below_bind; [apply below_refl|]. intros root.
  by apply num_searchLoop_mono.
Qed.

(** The way a run ends does not depend on the fuel it had left. *)
Lemma fuel_irrelevant_end {A} (run : nat -> outcome A) n m :
  (forall fuel fuel', (fuel <= fuel')%nat -> below (run fuel) (run fuel')) ->
  run n = m -> m <> OutOfFuel -> forall fuel, below (run fuel) m.
Proof.
  intros Hmono Hn Hm fuel. destruct (Nat.le_gt_cases fuel n) as [Hle|Hgt].
  - rewrite <-Hn. by apply Hmono.
  - right. destruct (Hmono n fuel ltac:(lia)) as [Ho|Ho]; congruence.
Qed.

Lemma partedCoin_noSD : noSD partedCoin.
Proof.
  intros col tile Hcol Htile. unfold partedCoin in Hcol.
  apply list_elem_of_singleton in Hcol. subst col.
  rewrite !elem_of_cons in Htile.
  destruct Htile as [-> | [-> | [-> | Htile]]]; try reflexivity.
  by apply elem_of_nil in Htile.
Qed.


(** C3 fails on the code.  The grid [partedCoin] holds no
    time-extension device, and no walk joins its Agent and its coin:
    their edge is the sentinel, the float [10e9].  With the limit
    2^53 + 1 the edge is within the budget of the root node; the budget
    of the child is the double nearest to (2^53 + 1) - 10e9, and its
    trajectory length 10e9 + budget is 2^53, not the limit.  The table
    has two keys, the limit and 2^53, whatever the fuel. *)
Theorem getMScores_sentinel_second_key :
  noSD partedCoin /\
  getDist 100 (0, 0) (0, 2) partedCoin = Ok MAXDIST /\
  PyNum.getMScores 100 partedCoin 9007199254740993 = Ok partedTable /\
  dom partedTable =
    {[ PyNum.Num 9007199254740993 0; PyNum.Num 9007199254740992 0 ]} /\
  forall fuel, below (PyNum.getMScores fuel partedCoin 9007199254740993) (Ok partedTable).
Proof.
  assert (H : PyNum.getMScores 100 partedCoin 9007199254740993 = Ok partedTable)
    by (vm_compute; reflexivity).
  split; [apply partedCoin_noSD|]. split; [vm_compute; reflexivity|].
  split; [done|]. split.
  - unfold partedTable. rewrite dom_insert_L, dom_singleton_L. set_solver.
  - intros fuel.
    apply (fuel_irrelevant_end (fun fuel => PyNum.getMScores fuel partedCoin 9007199254740993)
             100%nat); [|done|done].
    intros. by apply num_getMScores_mono.
Qed.

